(** * Search Algorithms: Problem, Node and the four graph searches

    A shallow embedding of the notebook [Search Algorithms.ipynb]:
    the [Problem] interface, the [Node] class, the [PathFinder] problem
    over the Romania road map, and the four searches
    [breadth_first_graph_search], [depth_first_graph_search],
    [uniform_cost_search] and [a_star_search], followed by the
    properties established about them. *)

From Stdlib Require Import List String ZArith Lia Bool Arith Permutation.
From Stdlib Require Import Floats Uint63.
Import ListNotations.

Set Implicit Arguments.

(** ** Calls that return or raise *)

(** The exceptions the modelled code can raise. *)
Inductive exn : Type :=
| KeyError
| AttributeError
| TypeError
| NotImplementedError.

(** A Python call either returns a value or raises. *)
Inductive outcome (A : Type) : Type :=
| Ret (a : A)
| Raise (e : exn).

Arguments Ret {A} a.
Arguments Raise {A} e.

Definition bind {A B : Type} (m : outcome A) (k : A -> outcome B) : outcome B :=
  match m with
  | Ret a => k a
  | Raise e => Raise e
  end.

Declare Scope py_scope.
Delimit Scope py_scope with py.
Notation "x <- m ;; k" := (bind m (fun x => k))
  (at level 61, m at next level, right associativity) : py_scope.
Notation "' pat <- m ;; k" := (bind m (fun x => match x with pat => k end))
  (at level 61, pat pattern, m at next level, right associativity) : py_scope.
Local Open Scope py_scope.

(** [[f(x) for x in l]] where [f] may raise. *)
Fixpoint list_comprehension {A B : Type} (f : A -> outcome B) (l : list A)
  : outcome (list B) :=
  match l with
  | [] => Ret []
  | x :: l' => y <- f x ;; ys <- list_comprehension f l' ;; Ret (y :: ys)
  end.

(** ** Values used as states, and numbers used as costs *)

(** States are hashable atoms (the road map uses [str]): they have a
    decidable equality, are never equal to a tuple, and have a truth
    value. *)
Class PyState (State : Type) : Type := {
  state_eq_dec : forall x y : State, {x = y} + {x <> y};
  truthy : State -> bool
}.

Definition state_eqb {State} `{PyState State} (x y : State) : bool :=
  if state_eq_dec x y then true else false.

#[export] Instance PyState_string : PyState string := {
  state_eq_dec := string_dec;
  truthy := fun s => negb (String.eqb s EmptyString)
}.

(** Costs are Python numbers: [int] in the uninformed searches and
    [float] once the heuristic has been added. *)
Class PyNumber (C : Type) : Type := {
  num_of_int : Z -> C;
  num_add : C -> C -> C;
  num_ltb : C -> C -> bool;
  num_eqb : C -> C -> bool
}.

#[export] Instance PyNumber_int : PyNumber Z := {
  num_of_int := fun z => z;
  num_add := Z.add;
  num_ltb := Z.ltb;
  num_eqb := Z.eqb
}.

(** [float(z)] for an [int] of magnitude below 2^63. *)
Definition float_of_int (z : Z) : float :=
  if (z <? 0)%Z
  then PrimFloat.opp (PrimFloat.of_uint63 (Uint63.of_Z (- z)))
  else PrimFloat.of_uint63 (Uint63.of_Z z).

#[export] Instance PyNumber_float : PyNumber float := {
  num_of_int := float_of_int;
  num_add := PrimFloat.add;
  num_ltb := PrimFloat.ltb;
  num_eqb := PrimFloat.eqb
}.

(** ** Python containers *)

Section Containers.
Context {A : Type}.
Variable eqb : A -> A -> bool.

(** [x in s] *)
Definition set_mem (x : A) (s : list A) : bool := existsb (eqb x) s.

(** [s.add(x)] *)
Definition set_add (x : A) (s : list A) : list A :=
  if set_mem x s then s else x :: s.

(** [s.remove(x)]: raises [KeyError] when [x] is absent. *)
Definition set_remove (x : A) (s : list A) : outcome (list A) :=
  if set_mem x s then Ret (filter (fun y => negb (eqb x y)) s)
  else Raise KeyError.
End Containers.

(** [d.pop()] on a [deque] or a [list], given non-empty: the rightmost
    element and what remains. *)
Fixpoint pop_right {A : Type} (l : list A) : option (A * list A) :=
  match l with
  | [] => None
  | x :: l' =>
      match pop_right l' with
      | None => Some (x, [])
      | Some (y, r) => Some (y, x :: r)
      end
  end.

(** [d[k]] on a [dict] kept as an association list in insertion order. *)
Fixpoint dict_get {K V : Type} (eqb : K -> K -> bool) (k : K) (d : list (K * V))
  : outcome V :=
  match d with
  | [] => Raise KeyError
  | (k', v) :: d' => if eqb k k' then Ret v else dict_get eqb k d'
  end.

(** [d.keys()] *)
Definition dict_keys {K V : Type} (d : list (K * V)) : list K := map fst d.

(** ** The Node class and the Problem interface *)

Section Search.
Context {State : Type} `{PyState State}.
Context {C : Type} `{PyNumber C}.

(** A [Node] object.  Its [action] and [parent] attributes are
    dynamically typed slots: [None], a state/action value, or a node. *)
Inductive Node : Type :=
| mkNode (state : State) (action : slot) (parent : slot) (cost : C)
with slot : Type :=
| SNone
| SVal (a : State)
| SNode (n : Node).

Definition state (n : Node) : State := let (s, _, _, _) := n in s.
Definition action (n : Node) : slot := let (_, a, _, _) := n in a.
Definition parent (n : Node) : slot := let (_, _, p, _) := n in p.
Definition cost (n : Node) : C := let (_, _, _, c) := n in c.

(** [Node.__init__(self, state, action=None, parent=None, path_cost=0)]:
    the fourth parameter is stored in the attribute [cost]. *)
Definition Node_init (state : State) (action parent : slot) (path_cost : C) : Node :=
  mkNode state action parent path_cost.

(** [Node(problem.initial)] *)
Definition root_node (s : State) : Node :=
  Node_init s SNone SNone (num_of_int 0).

(** [Node.__lt__]: [self.cost < other.cost]. *)
Definition Node_lt (self other : Node) : bool := num_ltb (cost self) (cost other).

(** What an attribute access on a node can yield. *)
Inductive attr_value : Type :=
| AState (s : State)
| ANumber (c : C)
| ASlot (v : slot)
| AMethod (name : string).

(** [self.<name>] on a node: the instance attributes set by [__init__],
    then the methods of the class; any other name the class defines
    nowhere raises [AttributeError]. *)
Definition Node_getattr (self : Node) (name : string) : outcome attr_value :=
  if String.eqb name "state" then Ret (AState (state self))
  else if String.eqb name "cost" then Ret (ANumber (cost self))
  else if String.eqb name "action" then Ret (ASlot (action self))
  else if String.eqb name "parent" then Ret (ASlot (parent self))
  else if existsb (String.eqb name)
            ["__init__"; "__repr__"; "expand"; "child_node"; "path"; "__lt__"]%string
  then Ret (AMethod name)
  else Raise AttributeError.

(** An attribute value used as the accumulated cost of [path_cost]. *)
Definition as_number (v : attr_value) : outcome C :=
  match v with
  | ANumber c => Ret c
  | _ => Raise TypeError
  end.

(** The [Problem] interface: the searches use the elements of
    [actions] directly as neighbouring states, so actions and states
    share one type. *)
Record Problem : Type := {
  initial : State;
  goal : option State;
  actions : State -> outcome (list State);
  result : State -> State -> outcome State;
  goal_test : State -> bool;
  path_cost : C -> State -> option State -> State -> outcome C
}.

(** The base class: [actions] and [result] are abstract, [goal_test]
    is [state == self.goal] and [path_cost] is [c + 1]. *)
Definition Problem_base (initial : State) (goal : option State) : Problem := {|
  initial := initial;
  goal := goal;
  actions := fun _ => Raise NotImplementedError;
  result := fun _ _ => Raise NotImplementedError;
  goal_test := fun s => match goal with Some g => state_eqb s g | None => false end;
  path_cost := fun c _ _ _ => Ret (num_add c (num_of_int 1))
|}.

(** [Node.child_node]: the next state, then the cost read from
    [self.path_cost], then [Node(next_state, self, action, cost)], whose
    positional arguments bind [self] to [action] and [action] to
    [parent]. *)
Definition child_node (self : Node) (problem : Problem) (action : State)
  : outcome Node :=
  next_state <- result problem (state self) action ;;
  v <- Node_getattr self "path_cost" ;;
  c0 <- as_number v ;;
  c <- path_cost problem c0 (state self) (Some action) next_state ;;
  Ret (Node_init next_state (SNode self) (SVal action) c).

(** [Node.expand]. *)
Definition expand (self : Node) (problem : Problem) : outcome (list Node) :=
  acts <- actions problem (state self) ;;
  list_comprehension (child_node self problem) acts.

(** The loop of [Node.path]: the nodes in the order they are appended,
    [self] first. *)
Fixpoint path_back (n : Node) : outcome (list Node) :=
  match n with
  | mkNode _ _ p _ =>
      match p with
      | SNone => Ret [n]
      | SNode n' => r <- path_back n' ;; Ret (n :: r)
      | SVal a => if truthy a then Raise AttributeError else Ret [n]
      end
  end.

(** [Node.path]: [path_back[::-1]]. *)
Definition path (self : Node) : outcome (list Node) :=
  r <- path_back self ;; Ret (rev r).

(** ** Results of a loop iteration and of a bounded run *)

Inductive iteration (Config : Type) : Type :=
| Return (r : option Node)
| Continue (cfg : Config).
Arguments Return {Config} r.
Arguments Continue {Config} cfg.

(** Runs the [while] loop for at most [fuel] iterations; [None] when
    the loop has not finished by then. *)
Fixpoint while_loop {Config : Type} (step : Config -> outcome (iteration Config))
    (fuel : nat) (cfg : Config) : option (outcome (option Node)) :=
  match fuel with
  | O => None
  | S fuel' =>
      match step cfg with
      | Raise e => Some (Raise e)
      | Ret (Return r) => Some (Ret r)
      | Ret (Continue cfg') => while_loop step fuel' cfg'
      end
  end.

(** ** Breadth First Search *)

(** The loop state of the two uninformed graph searches. *)
Record graph_config : Type := {
  frontier : list Node;
  frontier_states : list State;
  explored : list State
}.

(** The [for neighbor in problem.actions(node.state)] loop of
    [breadth_first_graph_search]. *)
Fixpoint bfs_for (problem : Problem) (node : Node) (explored : list State)
    (neighbors : list State) (frontier : list Node) (frontier_states : list State)
  : outcome (list Node * list State) :=
  match neighbors with
  | [] => Ret (frontier, frontier_states)
  | neighbor :: rest =>
      if negb (set_mem state_eqb neighbor explored)
         && negb (set_mem state_eqb neighbor frontier_states)
      then
        c <- path_cost problem (cost node) (state node) None neighbor ;;
        let neighbor_node := Node_init neighbor (SVal neighbor) (SNode node) c in
        bfs_for problem node explored rest
          (neighbor_node :: frontier) (set_add state_eqb neighbor frontier_states)
      else bfs_for problem node explored rest frontier frontier_states
  end.

(** One iteration of the [while frontier] loop of
    [breadth_first_graph_search]; the deque has its left end at the
    head of the list. *)
Definition bfs_step (problem : Problem) (cfg : graph_config)
  : outcome (iteration graph_config) :=
  match pop_right (frontier cfg) with
  | None => Ret (Return None)
  | Some (node, frontier1) =>
      let explored1 := set_add state_eqb (state node) (explored cfg) in
      fs1 <- set_remove state_eqb (state node) (frontier_states cfg) ;;
      if goal_test problem (state node) then Ret (Return (Some node))
      else
        neighbors <- actions problem (state node) ;;
        '(frontier2, fs2) <- bfs_for problem node explored1 neighbors frontier1 fs1 ;;
        Ret (Continue {| frontier := frontier2;
                         frontier_states := fs2;
                         explored := explored1 |})
  end.

Definition graph_init (problem : Problem) : graph_config :=
  {| frontier := [root_node (initial problem)];
     frontier_states := [initial problem];
     explored := [] |}.

Definition breadth_first_graph_search (fuel : nat) (problem : Problem)
  : option (outcome (option Node)) :=
  while_loop (bfs_step problem) fuel (graph_init problem).

(** ** Depth First Search *)

(** The [for] loop of [depth_first_graph_search]: [frontier.append]. *)
Fixpoint dfs_for (problem : Problem) (node : Node) (explored : list State)
    (neighbors : list State) (frontier : list Node) (frontier_states : list State)
  : outcome (list Node * list State) :=
  match neighbors with
  | [] => Ret (frontier, frontier_states)
  | neighbor :: rest =>
      if negb (set_mem state_eqb neighbor explored)
         && negb (set_mem state_eqb neighbor frontier_states)
      then
        c <- path_cost problem (cost node) (state node) None neighbor ;;
        let neighbor_node := Node_init neighbor (SVal neighbor) (SNode node) c in
        dfs_for problem node explored rest
          (frontier ++ [neighbor_node]) (set_add state_eqb neighbor frontier_states)
      else dfs_for problem node explored rest frontier frontier_states
  end.

Definition dfs_step (problem : Problem) (cfg : graph_config)
  : outcome (iteration graph_config) :=
  match pop_right (frontier cfg) with
  | None => Ret (Return None)
  | Some (node, frontier1) =>
      let explored1 := set_add state_eqb (state node) (explored cfg) in
      fs1 <- set_remove state_eqb (state node) (frontier_states cfg) ;;
      if goal_test problem (state node) then Ret (Return (Some node))
      else
        neighbors <- actions problem (state node) ;;
        '(frontier2, fs2) <- dfs_for problem node explored1 neighbors frontier1 fs1 ;;
        Ret (Continue {| frontier := frontier2;
                         frontier_states := fs2;
                         explored := explored1 |})
  end.

Definition depth_first_graph_search (fuel : nat) (problem : Problem)
  : option (outcome (option Node)) :=
  while_loop (dfs_step problem) fuel (graph_init problem).

End Search.

Arguments Return {State C Config} r.
Arguments Continue {State C Config} cfg.

(** ** heapq on a list *)

(** The standard-library functions the cost-ordered searches call,
    after the reference implementation [heapq.py]: the heap is the
    list itself, compared with [<] only.  The sift loops get as fuel a
    bound on the positions they can visit. *)

Section Heapq.
Context {A : Type}.
Variable lt : A -> A -> bool.

(** [heap[pos] = item] *)
Fixpoint list_set (heap : list A) (pos : nat) (item : A) : list A :=
  match heap, pos with
  | [], _ => []
  | _ :: t, O => item :: t
  | x :: t, S pos' => x :: list_set t pos' item
  end.

(** The [while pos > startpos] loop of [_siftdown], followed by
    [heap[pos] = newitem]. *)
Fixpoint siftdown_loop (fuel : nat) (heap : list A) (newitem : A)
    (startpos pos : nat) : list A :=
  match fuel with
  | O => list_set heap pos newitem
  | S fuel' =>
      if startpos <? pos then
        let parentpos := (pos - 1) / 2 in
        let parent := nth parentpos heap newitem in
        if lt newitem parent
        then siftdown_loop fuel' (list_set heap pos parent) newitem startpos parentpos
        else list_set heap pos newitem
      else list_set heap pos newitem
  end.

(** [_siftdown(heap, startpos, pos)] *)
Definition siftdown (heap : list A) (startpos pos : nat) : list A :=
  match nth_error heap pos with
  | Some newitem => siftdown_loop pos heap newitem startpos pos
  | None => heap
  end.

(** The [while childpos < endpos] loop of [_siftup]: the heap and the
    position of the leaf left empty. *)
Fixpoint siftup_loop (fuel : nat) (heap : list A) (newitem : A)
    (endpos pos : nat) : list A * nat :=
  match fuel with
  | O => (heap, pos)
  | S fuel' =>
      let childpos := 2 * pos + 1 in
      if childpos <? endpos then
        let rightpos := childpos + 1 in
        let childpos :=
          if (rightpos <? endpos)
             && negb (lt (nth childpos heap newitem) (nth rightpos heap newitem))
          then rightpos else childpos in
        siftup_loop fuel' (list_set heap pos (nth childpos heap newitem))
          newitem endpos childpos
      else (heap, pos)
  end.

(** [_siftup(heap, pos)] *)
Definition siftup (heap : list A) (pos : nat) : list A :=
  match nth_error heap pos with
  | Some newitem =>
      let '(heap1, pos1) := siftup_loop (List.length heap) heap newitem (List.length heap) pos in
      siftdown (list_set heap1 pos1 newitem) pos pos1
  | None => heap
  end.

(** [heapq.heappush(heap, item)] *)
Definition heappush (heap : list A) (item : A) : list A :=
  siftdown (heap ++ [item]) 0 (List.length heap).

(** [heapq.heappop(heap)] on a non-empty heap. *)
Definition heappop (heap : list A) : option (A * list A) :=
  match pop_right heap with
  | None => None
  | Some (lastelt, heap1) =>
      match heap1 with
      | [] => Some (lastelt, [])
      | returnitem :: _ => Some (returnitem, siftup (list_set heap1 0 lastelt) 0)
      end
  end.

(** [heapq.heapify(x)]: [_siftup(x, i)] for [i] from [n//2 - 1] down to 0. *)
Definition heapify (x : list A) : list A :=
  fold_left siftup (rev (seq 0 (List.length x / 2))) x.
End Heapq.

(** ** Cheapest First Search (Uniform Cost Search) *)

Section CostOrdered.
Context {State : Type} `{PyState State}.
Context {C : Type} `{PyNumber C}.

(** What is stored in, or looked up in, the [frontier_states] set of the
    cost-ordered searches: a bare state or a [(state, cost)] tuple. *)
Inductive set_elem : Type :=
| EState (s : State)
| EPair (s : State) (c : C).

(** Equality of such values, for states that are not themselves
    [(state, cost)] tuples (such as [str]): a state is never equal to a
    tuple.  Costs are compared with [==]. *)
Definition set_elem_eqb (a b : set_elem) : bool :=
  match a, b with
  | EState x, EState y => state_eqb x y
  | EPair x c, EPair y d => state_eqb x y && num_eqb c d
  | _, _ => false
  end.

(** The loop state of the cost-ordered searches: [heap] is their
    [frontier], [heap_states] their [frontier_states] and [settled]
    their [explored]. *)
Record cost_config : Type := {
  heap : list (@Node State C);
  heap_states : list set_elem;
  settled : list State
}.

(** The [for] loop of [uniform_cost_search]. *)
Fixpoint ucs_for (problem : @Problem State C) (node : Node) (explored : list State)
    (neighbors : list State) (frontier : list Node) (frontier_states : list set_elem)
  : outcome (list Node * list set_elem) :=
  match neighbors with
  | [] => Ret (frontier, frontier_states)
  | neighbor :: rest =>
      if negb (set_mem state_eqb neighbor explored)
         && negb (set_mem set_elem_eqb (EState neighbor) frontier_states)
      then
        cost <- path_cost problem (cost node) (state node) None neighbor ;;
        let neighbor_node := Node_init neighbor (SVal neighbor) (SNode node) cost in
        ucs_for problem node explored rest
          (heappush Node_lt frontier neighbor_node)
          (set_add set_elem_eqb (EPair neighbor cost) frontier_states)
      else ucs_for problem node explored rest frontier frontier_states
  end.

(** One iteration of the [while frontier] loop of [uniform_cost_search]. *)
Definition ucs_step (problem : @Problem State C) (cfg : cost_config)
  : outcome (iteration cost_config) :=
  match heappop Node_lt (heap cfg) with
  | None => Ret (Return None)
  | Some (node, frontier1) =>
      let explored1 := set_add state_eqb (state node) (settled cfg) in
      fs1 <- set_remove set_elem_eqb (EPair (state node) (cost node)) (heap_states cfg) ;;
      if goal_test problem (state node) then Ret (Return (Some node))
      else
        neighbors <- actions problem (state node) ;;
        '(frontier2, fs2) <- ucs_for problem node explored1 neighbors frontier1 fs1 ;;
        Ret (Continue {| heap := frontier2;
                         heap_states := fs2;
                         settled := explored1 |})
  end.

Definition cost_init (problem : @Problem State C) : cost_config :=
  {| heap := heapify Node_lt [root_node (initial problem)];
     heap_states := [EPair (initial problem) (num_of_int 0)];
     settled := [] |}.

Definition uniform_cost_search (fuel : nat) (problem : @Problem State C)
  : option (outcome (option Node)) :=
  while_loop (ucs_step problem) fuel (cost_init problem).

(** ** The PathFinder problem *)

(** [PathFinder(initial, goal, graph)]: [graph] is a dict of dicts of
    road lengths. *)
Definition PathFinder (initial goal : State) (graph : list (State * list (State * Z)))
  : @Problem State C := {|
  initial := initial;
  goal := Some goal;
  actions := fun s => adj <- dict_get state_eqb s graph ;; Ret (dict_keys adj);
  result := fun _ a => Ret a;
  goal_test := goal_test (Problem_base initial (Some goal));
  path_cost := fun c state1 _ state2 =>
    adj <- dict_get state_eqb state1 graph ;;
    w <- dict_get state_eqb state2 adj ;;
    Ret (num_add c (num_of_int w))
|}.

End CostOrdered.

(** ** A* Search *)

Record Location : Type := { loc_x : Z; loc_y : Z }.

(** [math.pow(d, 2)] of an [int] [d]: the product is exact while it stays
    below 2^53, as it does for map coordinates, and is then what
    [math.pow] returns. *)
Definition pow2 (d : Z) : float :=
  PrimFloat.mul (float_of_int d) (float_of_int d).

(** [euclidean_distance(loc1, loc2)], for coordinate differences whose
    squares stay below 2^53 (beyond, [math.pow] may round otherwise or
    raise [OverflowError]); the [lru_cache] does not change what it
    returns. *)
Definition euclidean_distance (loc1 loc2 : Location) : float :=
  PrimFloat.sqrt
    (PrimFloat.add (pow2 (loc_x loc1 - loc_x loc2)) (pow2 (loc_y loc1 - loc_y loc2))).

Section AStar.
Context {State : Type} `{PyState State}.

(** The module-level [locations] dict read by [a_star_search]. *)
Variable locations : list (State * Location).

(** [locations[problem.goal]] *)
Definition goal_location (problem : @Problem State float) : outcome Location :=
  match goal problem with
  | Some g => dict_get state_eqb g locations
  | None => Raise KeyError
  end.

(** The heuristic term the [for] loop adds for a neighbor:
    [euclidean_distance(locations[neighbor], locations[problem.goal])]. *)
Definition heuristic (problem : @Problem State float) (neighbor : State)
  : outcome float :=
  loc1 <- dict_get state_eqb neighbor locations ;;
  loc2 <- goal_location problem ;;
  Ret (euclidean_distance loc1 loc2).

(** The [for] loop of [a_star_search]. *)
Fixpoint a_star_for (problem : @Problem State float) (node : Node) (explored : list State)
    (neighbors : list State) (frontier : list Node)
    (frontier_states : list (@set_elem State float))
  : outcome (list Node * list set_elem) :=
  match neighbors with
  | [] => Ret (frontier, frontier_states)
  | neighbor :: rest =>
      if negb (set_mem state_eqb neighbor explored)
         && negb (set_mem set_elem_eqb (EState neighbor) frontier_states)
      then
        g <- path_cost problem (cost node) (state node) None neighbor ;;
        loc1 <- dict_get state_eqb neighbor locations ;;
        loc2 <- goal_location problem ;;
        let cost := PrimFloat.add g (euclidean_distance loc1 loc2) in
        let neighbor_node := Node_init neighbor (SVal neighbor) (SNode node) cost in
        a_star_for problem node explored rest
          (heappush Node_lt frontier neighbor_node)
          (set_add set_elem_eqb (EPair neighbor cost) frontier_states)
      else a_star_for problem node explored rest frontier frontier_states
  end.

Definition a_star_step (problem : @Problem State float) (cfg : cost_config)
  : outcome (iteration cost_config) :=
  match heappop Node_lt (heap cfg) with
  | None => Ret (Return None)
  | Some (node, frontier1) =>
      let explored1 := set_add state_eqb (state node) (settled cfg) in
      fs1 <- set_remove set_elem_eqb (EPair (state node) (cost node)) (heap_states cfg) ;;
      if goal_test problem (state node) then Ret (Return (Some node))
      else
        neighbors <- actions problem (state node) ;;
        '(frontier2, fs2) <- a_star_for problem node explored1 neighbors frontier1 fs1 ;;
        Ret (Continue {| heap := frontier2;
                         heap_states := fs2;
                         settled := explored1 |})
  end.

Definition a_star_search (fuel : nat) (problem : @Problem State float)
  : option (outcome (option Node)) :=
  while_loop (a_star_step problem) fuel (cost_init problem).
End AStar.

(** ** The worked example: the road map of Romania *)

Local Open Scope string_scope.
Local Open Scope Z_scope.

Definition romania_map : list (string * list (string * Z)) :=
  [ ("Arad", [("Zerind", 75); ("Sibiu", 140); ("Timisoara", 118)]);
    ("Zerind", [("Arad", 75); ("Oradea", 71)]);
    ("Sibiu", [("Arad", 140); ("Fagaras", 99); ("Oradea", 151); ("Rimnicu", 80)]);
    ("Timisoara", [("Arad", 118); ("Lugoj", 111)]);
    ("Bucharest", [("Urziceni", 85); ("Pitesti", 101); ("Giurgiu", 90); ("Fagaras", 211)]);
    ("Urziceni", [("Bucharest", 85); ("Hirsova", 98); ("Vaslui", 142)]);
    ("Pitesti", [("Bucharest", 101); ("Craiova", 138); ("Rimnicu", 97)]);
    ("Giurgiu", [("Bucharest", 90)]);
    ("Fagaras", [("Bucharest", 211); ("Sibiu", 99)]);
    ("Craiova", [("Drobeta", 120); ("Rimnicu", 146); ("Pitesti", 138)]);
    ("Drobeta", [("Craiova", 120); ("Mehadia", 75)]);
    ("Rimnicu", [("Craiova", 146); ("Pitesti", 97); ("Sibiu", 80)]);
    ("Mehadia", [("Drobeta", 75); ("Lugoj", 70)]);
    ("Eforie", [("Hirsova", 86)]);
    ("Hirsova", [("Eforie", 86); ("Urziceni", 98)]);
    ("Iasi", [("Vaslui", 92); ("Neamt", 87)]);
    ("Vaslui", [("Iasi", 92); ("Urziceni", 142)]);
    ("Neamt", [("Iasi", 87)]);
    ("Lugoj", [("Timisoara", 111); ("Mehadia", 70)]);
    ("Oradea", [("Zerind", 71); ("Sibiu", 151)]) ].

Definition locations : list (string * Location) :=
  [ ("Arad", Build_Location 91 492);
    ("Bucharest", Build_Location 400 327);
    ("Craiova", Build_Location 253 288);
    ("Drobeta", Build_Location 165 299);
    ("Eforie", Build_Location 562 293);
    ("Fagaras", Build_Location 305 449);
    ("Giurgiu", Build_Location 375 270);
    ("Hirsova", Build_Location 534 350);
    ("Iasi", Build_Location 473 506);
    ("Lugoj", Build_Location 165 379);
    ("Mehadia", Build_Location 168 339);
    ("Neamt", Build_Location 406 537);
    ("Oradea", Build_Location 131 571);
    ("Pitesti", Build_Location 320 368);
    ("Rimnicu", Build_Location 233 410);
    ("Sibiu", Build_Location 207 457);
    ("Timisoara", Build_Location 94 410);
    ("Urziceni", Build_Location 456 350);
    ("Vaslui", Build_Location 509 444);
    ("Zerind", Build_Location 108 531) ].

(** The states along [solution.path()]. *)
Definition path_states {State C : Type} (r : outcome (list (@Node State C)))
  : outcome (list State) :=
  p <- r ;; Ret (map state p).



Local Close Scope Z_scope.
Local Close Scope string_scope.

(** ** Vocabulary of the properties *)

Section Vocabulary.
Context {State : Type} `{PyState State}.
Context {C : Type} `{PyNumber C}.

(** The nodes one run of the [for] loop of the uninformed searches
    creates, in the order of creation, with the [frontier_states] it
    leaves; the two searches differ only in where they put them. *)
Fixpoint new_nodes (problem : @Problem State C) (node : @Node State C) (explored : list State)
    (neighbors : list State) (frontier_states : list State)
  : outcome (list Node * list State) :=
  match neighbors with
  | [] => Ret ([], frontier_states)
  | neighbor :: rest =>
      if negb (set_mem state_eqb neighbor explored)
         && negb (set_mem state_eqb neighbor frontier_states)
      then
        c <- path_cost problem (cost node) (state node) None neighbor ;;
        '(news, fs2) <- new_nodes problem node explored rest
                          (set_add state_eqb neighbor frontier_states) ;;
        Ret (Node_init neighbor (SVal neighbor) (SNode node) c :: news, fs2)
      else new_nodes problem node explored rest frontier_states
  end.

(** The iteration shared by the two uninformed searches, with the
    insertion into the frontier left open. *)
Definition graph_step
    (insert : list (@Node State C) -> list (@Node State C) -> list (@Node State C))
    (problem : @Problem State C) (cfg : @graph_config State C)
  : outcome (@iteration State C (@graph_config State C)) :=
  match pop_right (frontier cfg) with
  | None => Ret (Return None)
  | Some (node, frontier1) =>
      let explored1 := set_add state_eqb (state node) (explored cfg) in
      fs1 <- set_remove state_eqb (state node) (frontier_states cfg) ;;
      if goal_test problem (state node) then Ret (Return (Some node))
      else
        neighbors <- actions problem (state node) ;;
        '(news, fs2) <- new_nodes problem node explored1 neighbors fs1 ;;
        Ret (Continue {| frontier := insert news frontier1;
                         frontier_states := fs2;
                         explored := explored1 |})
  end.

Definition appendleft_all (news frontier : list (@Node State C)) : list Node :=
  rev news ++ frontier.
Definition append_all (news frontier : list (@Node State C)) : list Node :=
  frontier ++ news.

(** The configurations at the start of the iterations of a run of
    [breadth_first_graph_search], each with the log of the states put
    into the frontier so far (most recent first). *)
Inductive bfs_trace (problem : @Problem State C) : @graph_config State C -> list State -> Prop :=
| bfs_trace_init :
    bfs_trace problem (graph_init problem) [initial problem]
| bfs_trace_step cfg log node rest added cfg' :
    bfs_trace problem cfg log ->
    pop_right (frontier cfg) = Some (node, rest) ->
    bfs_step problem cfg = Ret (Continue cfg') ->
    frontier cfg' = added ++ rest ->
    bfs_trace problem cfg' (map state added ++ log).

(** The same for [depth_first_graph_search], which appends on the right. *)
Inductive dfs_trace (problem : @Problem State C) : @graph_config State C -> list State -> Prop :=
| dfs_trace_init :
    dfs_trace problem (graph_init problem) [initial problem]
| dfs_trace_step cfg log node rest added cfg' :
    dfs_trace problem cfg log ->
    pop_right (frontier cfg) = Some (node, rest) ->
    dfs_step problem cfg = Ret (Continue cfg') ->
    frontier cfg' = rest ++ added ->
    dfs_trace problem cfg' (map state added ++ log).

(** [frontier_states] mirrors the frontier and avoids [explored]. *)
Definition mirrors (cfg : @graph_config State C) : Prop :=
  NoDup (map state (frontier cfg)) /\
  (forall s, In s (frontier_states cfg) <-> In s (map state (frontier cfg))) /\
  (forall s, In s (frontier_states cfg) -> ~ In s (explored cfg)).

(** The log holds each state once, and exactly the states that are in
    the frontier or explored. *)
Definition logged (cfg : @graph_config State C) (log : list State) : Prop :=
  NoDup log /\
  (forall s, In s log <-> In s (frontier_states cfg) \/ In s (explored cfg)).

(** The number of parent links above a node: the edge count of its
    path. *)
Fixpoint depth (n : @Node State C) : nat :=
  match n with
  | mkNode _ _ p _ =>
      match p with
      | SNode n' => S (depth n')
      | _ => O
      end
  end.

(** [walk problem k s]: some sequence of [k] actions leads from the
    initial state to [s]. *)
Inductive walk (problem : @Problem State C) : nat -> State -> Prop :=
| walk_O : walk problem 0 (initial problem)
| walk_S k s l a s' :
    walk problem k s ->
    actions problem s = Ret l -> In a l ->
    result problem s a = Ret s' ->
    walk problem (S k) s'.

(** A sequence of states that starts at the initial state and follows
    one action at every step. *)
Inductive route (problem : @Problem State C) : list State -> Prop :=
| route_initial : route problem [initial problem]
| route_snoc r s l a s' :
    route problem (r ++ [s]) ->
    actions problem s = Ret l -> In a l ->
    result problem s a = Ret s' ->
    route problem ((r ++ [s]) ++ [s']).

(** The nodes a search can create: the root, and children linked to a
    created node by one of its actions. *)
Inductive generated (problem : @Problem State C) : @Node State C -> Prop :=
| generated_root : generated problem (root_node (initial problem))
| generated_child n l s c :
    generated problem n ->
    actions problem (state n) = Ret l -> In s l ->
    generated problem (Node_init s (SVal s) (SNode n) c).

(** A problem whose reachable states lie in the finite list
    [universe], on which its methods return: the neighbours of a state
    stay in [universe], taking the action [a] leads to the state [a]
    (as the searches assume), and [path_cost] is defined on every edge. *)
Record finite_problem (problem : @Problem State C) (universe : list State) : Prop := {
  fp_initial : In (initial problem) universe;
  fp_actions : forall s, In s universe ->
    exists l, actions problem s = Ret l /\ incl l universe;
  fp_result : forall s l a, In s universe ->
    actions problem s = Ret l -> In a l -> result problem s a = Ret a;
  fp_path_cost : forall (c : C) s l s', In s universe ->
    actions problem s = Ret l -> In s' l ->
    exists c', path_cost problem c s None s' = Ret c'
}.

(** The number of states of [universe] not yet explored. *)
Definition unexplored (universe explored : list State) : nat :=
  List.length (filter (fun s => negb (set_mem state_eqb s explored)) universe).


(** The invariant of both uninformed searches on a finite problem:
    the mirror, and every frontier node created by the search. *)
Record graph_invariant (problem : @Problem State C) (cfg : @graph_config State C)
  : Prop := {
  gi_mirrors : mirrors cfg;
  gi_generated : forall n, In n (frontier cfg) -> generated problem n;
  gi_explored : forall s, In s (explored cfg) ->
    goal_test problem s = false /\ exists k, walk problem k s
}.

(** The invariant that makes the FIFO order find shortest routes. *)
Record bfs_invariant (problem : @Problem State C) (cfg : @graph_config State C)
  : Prop := {
  bi_graph : graph_invariant problem cfg;
  bi_initial : In (initial problem) (explored cfg) \/
               In (initial problem) (frontier_states cfg);
  bi_levels : exists (L : nat) (hi lo : list Node),
    frontier cfg = hi ++ lo /\
    Forall (fun n => depth n = S L) hi /\ Forall (fun n => depth n = L) lo;
  bi_closed : forall s l s', In s (explored cfg) ->
    actions problem s = Ret l -> In s' l ->
    In s' (explored cfg) \/ In s' (frontier_states cfg);
  bi_shortest : forall f k, In f (frontier cfg) ->
    walk problem k (state f) -> depth f <= k
}.

(** The largest number of actions of a state of [universe]. *)
Definition degree (problem : @Problem State C) (universe : list State) : nat :=
  list_max
    (map (fun s => match actions problem s with
                   | Ret l => List.length l
                   | Raise _ => 0
                   end)
       universe).

(** The termination measure of the cost-ordered searches: a frontier
    node weighs [base ^ rank], where the rank counts twice the
    unexplored states, plus one when the state of the node is explored
    already. *)
Definition rank (universe E : list State) (s : State) : nat :=
  2 * unexplored universe E + (if set_mem state_eqb s E then 1 else 0).

Definition potential (base : nat) (universe E : list State)
    (frontier : list (@Node State C)) : nat :=
  list_sum (map (fun n => base ^ rank universe E (state n)) frontier).

(** An iteration of a cost-ordered loop that goes on has taken one node
    out of the heap, settled its state, and put nodes of unsettled
    neighbouring states into the heap, at most one for each action. *)
Definition pops_and_pushes (problem : @Problem State C)
    (step : @cost_config State C -> outcome (@iteration State C (@cost_config State C)))
  : Prop :=
  forall cfg cfg', step cfg = Ret (Continue cfg') ->
    exists node rest news nb,
      Permutation (heap cfg) (node :: rest) /\
      actions problem (state node) = Ret nb /\
      settled cfg' = set_add state_eqb (state node) (settled cfg) /\
      Permutation (heap cfg') (news ++ rest) /\
      List.length news <= List.length nb /\
      (forall m, In m news -> In (state m) nb /\ ~ In (state m) (settled cfg')).

End Vocabulary.

(** ** Inputs used in the statements *)

Section Runs.
Context {State : Type} `{PyState State}.
Context {C : Type} `{PyNumber C}.

(** The configuration at the start of iteration [k] (counted from 0),
    when the loop gets that far. *)
Fixpoint configuration_at {Config : Type}
    (step : Config -> outcome (@iteration State C Config)) (k : nat) (cfg : Config)
  : option Config :=
  match k with
  | O => Some cfg
  | S k' =>
      match step cfg with
      | Ret (Continue cfg') => configuration_at step k' cfg'
      | _ => None
      end
  end.

(** Every road of [graph] leads to a city that has an entry in [graph]. *)
Definition graph_closed (graph : list (State * list (State * Z))) : bool :=
  forallb (fun entry =>
             forallb (fun road => set_mem state_eqb (fst road) (dict_keys graph))
               (snd entry))
    graph.

(** The cost [path_cost] accumulates from 0 along a sequence of states. *)
Fixpoint accumulate (problem : @Problem State C) (c : C) (s : State)
    (rest : list State) : outcome C :=
  match rest with
  | [] => Ret c
  | s' :: rest' =>
      c' <- path_cost problem c s None s' ;;
      accumulate problem c' s' rest'
  end.

Definition accumulated_cost (problem : @Problem State C) (states : list State)
  : outcome C :=
  match states with
  | [] => Ret (num_of_int 0)
  | s :: rest => accumulate problem (num_of_int 0) s rest
  end.

(** The nodes of a frontier that carry a given state. *)
Definition nodes_of_state (s : State) (frontier : list (@Node State C))
  : list Node :=
  filter (fun n => state_eqb (state n) s) frontier.

(** A [frontier_states] set that holds [(state, cost)] tuples only. *)
Definition only_pairs (fs : list (@set_elem State C)) : Prop :=
  Forall (fun e => match e with EPair _ _ => True | EState _ => False end) fs.
End Runs.

Local Open Scope string_scope.
Local Open Scope Z_scope.

(** [PathFinder("Arad", "Bucharest", romania_map)], with [int] costs for
    the uninformed and uniform-cost searches and [float] costs for A*. *)
Definition romania_problem : @Problem string Z :=
  PathFinder "Arad" "Bucharest" romania_map.
Definition romania_problem_float : @Problem string float :=
  PathFinder "Arad" "Bucharest" romania_map.

(** A small road map on which two roads of equal length meet in
    Craiova; every road is at least as long as the straight line between
    its ends in [locations]. *)
Definition fork_map : list (string * list (string * Z)) :=
  [ ("Sibiu", [("Drobeta", 170); ("Lugoj", 170)]);
    ("Drobeta", [("Craiova", 130)]);
    ("Lugoj", [("Craiova", 130)]);
    ("Craiova", [("Mehadia", 100)]);
    ("Mehadia", []) ].

(** The same map with no road out of Craiova. *)
Definition dead_end_map : list (string * list (string * Z)) :=
  [ ("Sibiu", [("Drobeta", 170); ("Lugoj", 170)]);
    ("Drobeta", [("Craiova", 130)]);
    ("Lugoj", [("Craiova", 130)]);
    ("Craiova", []) ].

(** [PathFinder("Sibiu", goal, fork_map)] *)
Definition fork_problem (goal : string) : @Problem string Z :=
  PathFinder "Sibiu" goal fork_map.
Definition fork_problem_float (goal : string) : @Problem string float :=
  PathFinder "Sibiu" goal fork_map.

(** The square of the straight-line distance between two cities, and
    the check that no road of a map is shorter than the straight line. *)
Definition squared_distance (a b : string) : option Z :=
  match dict_get String.eqb a locations, dict_get String.eqb b locations with
  | Ret la, Ret lb =>
      Some ((loc_x la - loc_x lb) * (loc_x la - loc_x lb)
            + (loc_y la - loc_y lb) * (loc_y la - loc_y lb))
  | _, _ => None
  end.

Definition roads_not_shorter_than_line (graph : list (string * list (string * Z)))
  : bool :=
  forallb (fun entry =>
             forallb (fun road =>
                        match squared_distance (fst entry) (fst road) with
                        | Some d2 => (0 <=? snd road) && (d2 <=? snd road * snd road)
                        | None => false
                        end)
               (snd entry))
    graph.

(** The configuration of [breadth_first_graph_search] on the Romania
    problem after its first iteration. *)
Definition romania_second_iteration : @graph_config string Z :=
  Eval vm_compute in
    match bfs_step romania_problem (graph_init romania_problem) with
    | Ret (Continue cfg) => cfg
    | _ => graph_init romania_problem
    end.

Local Close Scope Z_scope.
Local Close Scope string_scope.

(** ** Vocabulary of the further properties *)

Section Results.
Context {State : Type} `{PyState State}.
Context {C : Type} `{PyNumber C}.

(** A node whose [parent] slots lead, node by node, to a node without
    parent. *)
Inductive chained : @Node State C -> Prop :=
| chained_root s a c : chained (mkNode s a SNone c)
| chained_child s a p c : chained p -> chained (mkNode s a (SNode p) c).

(** Each node of the list is the [parent] of the next one. *)
Fixpoint parent_linked (first : @Node State C) (rest : list (@Node State C)) : Prop :=
  match rest with
  | [] => True
  | n :: rest' => parent n = SNode first /\ parent_linked n rest'
  end.

(** Each state of the list is one of the actions of the state before. *)
Fixpoint follows_actions (problem : @Problem State C) (s : State)
    (rest : list State) : Prop :=
  match rest with
  | [] => True
  | s' :: rest' =>
      (exists l, actions problem s = Ret l /\ In s' l) /\
      follows_actions problem s' rest'
  end.

(** The nodes the three cost-keeping searches create: the root with
    cost 0, and children whose cost is [path_cost] of the cost of their
    parent. *)
Inductive costed (problem : @Problem State C) : @Node State C -> Prop :=
| costed_root : costed problem (root_node (initial problem))
| costed_child n l s c :
    costed problem n ->
    actions problem (state n) = Ret l -> In s l ->
    path_cost problem (cost n) (state n) None s = Ret c ->
    costed problem (Node_init s (SVal s) (SNode n) c).

(** The nodes [a_star_search] creates: children are linked to their
    parent by one of its actions, whatever their priority. *)
Inductive linked (problem : @Problem State C) : @Node State C -> Prop :=
| linked_root : linked problem (root_node (initial problem))
| linked_child n l s c :
    linked problem n ->
    actions problem (state n) = Ret l -> In s l ->
    linked problem (Node_init s (SVal s) (SNode n) c).

(** The [(state, cost)] tuples of the nodes of a heap. *)
Definition pairs (frontier : list (@Node State C)) : list (@set_elem State C) :=
  map (fun n => EPair (state n) (cost n)) frontier.

(** The configurations a run of [uniform_cost_search] reaches while no
    two nodes of its heap carry the same state with the same cost. *)
Inductive distinct_run (problem : @Problem State C) : @cost_config State C -> Prop :=
| distinct_init : distinct_run problem (cost_init problem)
| distinct_step cfg cfg' :
    distinct_run problem cfg ->
    NoDup (pairs (heap cfg)) ->
    ucs_step problem cfg = Ret (Continue cfg') ->
    distinct_run problem cfg'.

(** The invariant that makes the uninformed searches find a reachable
    goal: the initial state has been seen, and so has every neighbour
    of an explored state. *)
Record complete_invariant (problem : @Problem State C)
    (cfg : @graph_config State C) : Prop := {
  ci_graph : graph_invariant problem cfg;
  ci_initial : In (initial problem) (explored cfg) \/
               In (initial problem) (frontier_states cfg);
  ci_closed : forall s l s', In s (explored cfg) ->
    actions problem s = Ret l -> In s' l ->
    In s' (explored cfg) \/ In s' (frontier_states cfg)
}.

(** A problem class that overrides [actions], [result] and [goal_test]
    as [problem] does and inherits [path_cost] from the base class. *)
Definition with_inherited_path_cost (problem : @Problem State C) : @Problem State C := {|
  initial := initial problem;
  goal := goal problem;
  actions := actions problem;
  result := result problem;
  goal_test := goal_test problem;
  path_cost := path_cost (Problem_base (initial problem) (goal problem))
|}.
End Results.

Local Open Scope string_scope.

(** The nodes the notebook's runs return on the Romania problem. *)
Definition romania_bfs_node : @Node string Z :=
  Eval vm_compute in
    match breadth_first_graph_search 100 romania_problem with
    | Some (Ret (Some n)) => n
    | _ => root_node "Arad"
    end.

Definition romania_dfs_node : @Node string Z :=
  Eval vm_compute in
    match depth_first_graph_search 100 romania_problem with
    | Some (Ret (Some n)) => n
    | _ => root_node "Arad"
    end.

Definition romania_ucs_node : @Node string Z :=
  Eval vm_compute in
    match uniform_cost_search 100 romania_problem with
    | Some (Ret (Some n)) => n
    | _ => root_node "Arad"
    end.

Definition romania_a_star_node : @Node string float :=
  Eval vm_compute in
    match a_star_search locations 100 romania_problem_float with
    | Some (Ret (Some n)) => n
    | _ => root_node "Arad"
    end.

Local Close Scope string_scope.

(** The Romania problem with the [path_cost] of the base class, and the
    configuration of [uniform_cost_search] on the Romania problem after
    its first iteration. *)
Definition romania_unit_cost_problem : @Problem string Z :=
  with_inherited_path_cost romania_problem.

Definition romania_ucs_second_iteration : @cost_config string Z :=
  Eval vm_compute in
    match ucs_step romania_problem (cost_init romania_problem) with
    | Ret (Continue cfg) => cfg
    | _ => cost_init romania_problem
    end.

(** ** The heap invariant *)

Section HeapOrder.
Context {A : Type}.
Variable key : A -> Z.

(** The invariant of [heapq]: [heap[(k - 1) // 2] <= heap[k]] for every
    position [k > 0], for items compared by their [key]. *)
Definition heap_ordered (heap : list A) : Prop :=
  forall k x p, 0 < k ->
    nth_error heap k = Some x -> nth_error heap ((k - 1) / 2) = Some p ->
    (key p <= key x)%Z.

(** The same with [nth], for a default item [d]. *)
Definition ordered_nth (d : A) (heap : list A) : Prop :=
  forall k, 0 < k < List.length heap ->
    (key (nth ((k - 1) / 2) heap d) <= key (nth k heap d))%Z.

(** What the sift loops keep while the item they move has no place
    yet: the position [pos] is free, the invariant holds between the
    other positions, and the children of [pos] are not below its
    parent. *)
Definition sifting (d : A) (heap : list A) (pos : nat) : Prop :=
  pos < List.length heap /\
  (forall k, 0 < k < List.length heap -> k <> pos -> (k - 1) / 2 <> pos ->
     (key (nth ((k - 1) / 2) heap d) <= key (nth k heap d))%Z) /\
  (forall k, 0 < pos -> 0 < k < List.length heap -> (k - 1) / 2 = pos ->
     (key (nth ((pos - 1) / 2) heap d) <= key (nth k heap d))%Z).
End HeapOrder.

(** ** Vocabulary of the cheapest-first property *)

Section CheapestFirst.
Context {State : Type} `{PyState State}.

(** A [path_cost] that never lowers the cost it is given, and one that
    gives no lower result for a higher cost. *)
Definition nonnegative_steps (problem : @Problem State Z) : Prop :=
  forall c s s' r, path_cost problem c s None s' = Ret r -> (c <= r)%Z.

Definition monotone_path_cost (problem : @Problem State Z) : Prop :=
  forall c c' s s' r r', (c <= c')%Z ->
    path_cost problem c s None s' = Ret r ->
    path_cost problem c' s None s' = Ret r' -> (r <= r')%Z.

(** A route of cost [d] to a goal is still ahead of the search: a node
    of the frontier is on it at no more than the route's cost there,
    and none of the states from there on has been explored. *)
Definition route_ahead (problem : @Problem State Z) (d : Z)
    (cfg : @cost_config State Z) : Prop :=
  exists n suffix c0,
    In n (heap cfg) /\ (cost n <= c0)%Z /\
    follows_actions problem (state n) suffix /\
    accumulate problem c0 (state n) suffix = Ret d /\
    goal_test problem (last suffix (state n)) = true /\
    forall s, In s (state n :: suffix) -> ~ In s (settled cfg).

Record cheapest_first_invariant (problem : @Problem State Z) (d : Z)
    (cfg : @cost_config State Z) : Prop := {
  cf_ordered : heap_ordered cost (heap cfg);
  cf_pairs : only_pairs (heap_states cfg);
  cf_ahead : route_ahead problem d cfg
}.

(** No road of [graph] has a negative length. *)
Definition roads_nonnegative (graph : list (State * list (State * Z))) : bool :=
  forallb (fun entry => forallb (fun road => (0 <=? snd road)%Z) (snd entry)) graph.
End CheapestFirst.

(** ** Vocabulary of the completeness of the cost-ordered searches *)

Section Pending.
Context {State : Type} `{PyState State}.
Context {C : Type} `{PyNumber C}.

(** A route to a goal is still ahead of the search: a node of the
    frontier is on it, and none of the states from there on has been
    explored. *)
Definition route_pending (problem : @Problem State C)
    (cfg : @cost_config State C) : Prop :=
  only_pairs (heap_states cfg) /\
  exists n suffix,
    In n (heap cfg) /\
    follows_actions problem (state n) suffix /\
    goal_test problem (last suffix (state n)) = true /\
    forall s, In s (state n :: suffix) -> ~ In s (settled cfg).

(** What an iteration of a cost-ordered search does to the frontier
    when it does not raise: it returns [None] on an empty frontier
    only, it returns a node of the frontier that passes the goal test,
    or it takes a node from the frontier, marks its state as explored
    and leaves in the frontier a node for every neighbor that is not
    explored. *)
Definition expands_frontier (problem : @Problem State C)
    (step : @cost_config State C -> outcome (@iteration State C (@cost_config State C)))
  : Prop :=
  forall cfg it, only_pairs (heap_states cfg) -> step cfg = Ret it ->
    match it with
    | Return None => heap cfg = []
    | Return (Some n) => In n (heap cfg) /\ goal_test problem (state n) = true
    | Continue cfg' =>
        exists node rest nb,
          Permutation (heap cfg) (node :: rest) /\
          goal_test problem (state node) = false /\
          actions problem (state node) = Ret nb /\
          settled cfg' = set_add state_eqb (state node) (settled cfg) /\
          only_pairs (heap_states cfg') /\
          (forall x, In x rest -> In x (heap cfg')) /\
          (forall s', In s' nb -> ~ In s' (settled cfg') ->
             exists m, In m (heap cfg') /\ state m = s')
    end.
End Pending.

(** ** Problems as the search loops read them *)

Section ActionsAsStates.
Context {State : Type} `{PyState State}.
Context {C : Type} `{PyNumber C}.

(** The four searches take the members of [problem.actions(state)] as
    the neighbouring states and never call [problem.result]: they run
    on [problem] as on the problem whose [result] returns the action. *)
Definition actions_as_states (problem : @Problem State C) : @Problem State C := {|
  initial := initial problem;
  goal := goal problem;
  actions := actions problem;
  result := fun _ a => Ret a;
  goal_test := goal_test problem;
  path_cost := path_cost problem
|}.

(** A problem whose states, as the searches reach them, lie in the
    finite list [universe]: [actions] returns on each of them and stays
    in [universe], and [path_cost] is defined on every edge.  Nothing is
    asked of [result]. *)
Record finite_state_space (problem : @Problem State C) (universe : list State)
  : Prop := {
  fs_initial : In (initial problem) universe;
  fs_actions : forall s, In s universe ->
    exists l, actions problem s = Ret l /\ incl l universe;
  fs_path_cost : forall (c : C) s l s', In s universe ->
    actions problem s = Ret l -> In s' l ->
    exists c', path_cost problem c s None s' = Ret c'
}.
End ActionsAsStates.

(** A problem whose actions are labels, not states: from ["A"] the
    action ["go"] leads to the goal ["G"]; the goal test and the step
    cost are those of the base class.
<<
    class OneStep(Problem):
        def actions(self, state):
            return ["go"] if state == "A" else []
        def result(self, state, action):
            return "G" if (state, action) == ("A", "go") else state
    OneStep("A", "G")
>> *)
Definition labelled_problem : @Problem string Z := {|
  initial := "A"%string;
  goal := Some "G"%string;
  actions := fun s => if String.eqb s "A" then Ret ["go"%string] else Ret [];
  result := fun s a =>
    if String.eqb s "A" && String.eqb a "go" then Ret "G"%string else Ret s;
  goal_test := goal_test (Problem_base "A"%string (Some "G"%string));
  path_cost := path_cost (Problem_base "A"%string (Some "G"%string))
|}.

(** * Properties *)

(** ** Containers *)

Section ContainerFacts.
Context {State : Type} `{PyState State}.

Lemma state_eqb_eq (x y : State) : state_eqb x y = true <-> x = y.
Proof.
  unfold state_eqb. destruct (state_eq_dec x y); split; congruence.
Qed.

Lemma state_eqb_refl (x : State) : state_eqb x x = true.
Proof. apply state_eqb_eq. reflexivity. Qed.

Lemma set_mem_In (x : State) (s : list State) :
  set_mem state_eqb x s = true <-> In x s.
Proof.
  unfold set_mem. rewrite existsb_exists. split.
  - intros [y [Hy Heq]]. apply state_eqb_eq in Heq. subst. assumption.
  - intros Hin. exists x. split; [assumption | apply state_eqb_refl].
Qed.

Lemma set_mem_not_In (x : State) (s : list State) :
  set_mem state_eqb x s = false <-> ~ In x s.
Proof.
  rewrite <- set_mem_In. destruct (set_mem state_eqb x s); split; congruence.
Qed.

Lemma set_add_In (x y : State) (s : list State) :
  In y (set_add state_eqb x s) <-> y = x \/ In y s.
Proof.
  unfold set_add. destruct (set_mem state_eqb x s) eqn:E.
  - apply set_mem_In in E. split; [tauto | intros [-> | ?]; assumption].
  - simpl. split; intros [? | ?]; auto.
Qed.

Lemma set_remove_Ret (x : State) (s s' : list State) :
  set_remove state_eqb x s = Ret s' ->
  In x s /\ forall y, In y s' <-> In y s /\ y <> x.
Proof.
  unfold set_remove. destruct (set_mem state_eqb x s) eqn:E; [|discriminate].
  intros [= <-]. split; [apply set_mem_In; assumption|].
  intros y. rewrite filter_In. split; intros [Hy Hne]; split; try assumption.
  - intros ->. rewrite state_eqb_refl in Hne. discriminate.
  - destruct (state_eqb x y) eqn:E'; [|reflexivity].
    apply state_eqb_eq in E'. congruence.
Qed.

Lemma set_remove_In (x : State) (s : list State) :
  In x s -> exists s', set_remove state_eqb x s = Ret s'.
Proof.
  intros Hin. unfold set_remove. apply set_mem_In in Hin. rewrite Hin.
  eexists. reflexivity.
Qed.
End ContainerFacts.

Lemma pop_right_app {A : Type} (l : list A) (x : A) :
  pop_right (l ++ [x]) = Some (x, l).
Proof.
  induction l as [|y l IH]; simpl; [reflexivity|]. rewrite IH. reflexivity.
Qed.

Lemma pop_right_Some {A : Type} (l r : list A) (x : A) :
  pop_right l = Some (x, r) -> l = r ++ [x].
Proof.
  revert r x. induction l as [|y l IH]; simpl; intros r x E; [discriminate|].
  destruct (pop_right l) as [[z r']|] eqn:P.
  - injection E as <- <-. rewrite (IH _ _ eq_refl). reflexivity.
  - injection E as <- <-. destruct l; [reflexivity|].
    simpl in P. destruct (pop_right l) as [[? ?]|]; discriminate.
Qed.

Lemma pop_right_None {A : Type} (l : list A) :
  pop_right l = None -> l = [].
Proof.
  destruct l as [|y l]; [reflexivity|]. simpl.
  destruct (pop_right l) as [[? ?]|]; discriminate.
Qed.

(** Monotonicity of bounded runs: more fuel does not change a result. *)
Lemma while_loop_more {State C Config : Type}
    (step : Config -> outcome (@iteration State C Config)) (fuel fuel' : nat)
    (cfg : Config) (r : outcome (option Node)) :
  while_loop step fuel cfg = Some r -> fuel <= fuel' ->
  while_loop step fuel' cfg = Some r.
Proof.
  revert fuel' cfg. induction fuel as [|fuel IH]; intros fuel' cfg E Hle;
    [discriminate|].
  destruct fuel' as [|fuel']; [lia|]. simpl in *.
  destruct (step cfg) as [[res|cfg']|e]; try assumption.
  apply IH; [assumption | lia].
Qed.

Lemma filter_length_le {A : Type} (f g : A -> bool) (l : list A) :
  (forall y, f y = true -> g y = true) ->
  List.length (filter f l) <= List.length (filter g l).
Proof.
  intros Hfg. induction l as [|y l IH]; simpl; [lia|].
  destruct (f y) eqn:F.
  - rewrite (Hfg y F). simpl. lia.
  - destruct (g y); simpl; lia.
Qed.

Lemma filter_length_lt {A : Type} (f g : A -> bool) (l : list A) (x : A) :
  (forall y, f y = true -> g y = true) ->
  In x l -> g x = true -> f x = false ->
  List.length (filter f l) < List.length (filter g l).
Proof.
  intros Hfg. induction l as [|y l IH]; simpl; intros Hin Gx Fx; [contradiction|].
  destruct Hin as [-> | Hin].
  - rewrite Gx, Fx. simpl. pose proof (filter_length_le f g l Hfg). lia.
  - specialize (IH Hin Gx Fx). destruct (f y) eqn:F.
    + rewrite (Hfg y F). simpl. lia.
    + destruct (g y); simpl; lia.
Qed.

(** A loop whose iterations never raise, keep an invariant and decrease
    a measure returns, from a configuration that satisfies the invariant
    at its last iteration. *)
Lemma while_loop_invariant {State C Config : Type}
    (step : Config -> outcome (@iteration State C Config))
    (Inv : Config -> Prop) (mu : Config -> nat) :
  (forall cfg, Inv cfg -> exists it, step cfg = Ret it) ->
  (forall cfg cfg', Inv cfg -> step cfg = Ret (Continue cfg') ->
     Inv cfg' /\ mu cfg' < mu cfg) ->
  forall cfg, Inv cfg ->
  exists cfg_last r,
    Inv cfg_last /\ step cfg_last = Ret (Return r) /\
    while_loop step (S (mu cfg)) cfg = Some (Ret r).
Proof.
  intros Hprog Hstep.
  assert (G : forall k cfg, mu cfg < k -> Inv cfg ->
            exists cfg_last r, Inv cfg_last /\ step cfg_last = Ret (Return r) /\
              while_loop step k cfg = Some (Ret r)).
  { induction k as [|k IH]; intros cfg Hk HI; [lia|].
    destruct (Hprog cfg HI) as [[r|cfg'] E].
    - exists cfg, r. simpl. rewrite E. auto.
    - destruct (Hstep cfg cfg' HI E) as [HI' Hmu].
      destruct (IH cfg') as (cl & r & H1 & H2 & H3); [lia | assumption|].
      exists cl, r. simpl. rewrite E. auto. }
  intros cfg HI. apply G; [lia | assumption].
Qed.

Lemma while_loop_ext {State C Config : Type}
    (step step' : Config -> outcome (@iteration State C Config)) :
  (forall cfg, step cfg = step' cfg) ->
  forall fuel cfg, while_loop step fuel cfg = while_loop step' fuel cfg.
Proof.
  intros E. induction fuel as [|fuel IH]; intros cfg; simpl; [reflexivity|].
  rewrite E. destruct (step' cfg) as [[r|cfg']|e]; try reflexivity. apply IH.
Qed.

Lemma list_last_cases {A : Type} (l : list A) :
  l = [] \/ exists l' a, l = l' ++ [a].
Proof.
  destruct l as [|x l]; [left; reflexivity|]. right.
  destruct (@exists_last A (x :: l)) as (l' & a & E); [discriminate|].
  exists l', a. assumption.
Qed.

(** ** The loop of the uninformed searches *)

Section GraphSearch.
Context {State : Type} `{PyState State}.
Context {C : Type} `{PyNumber C}.
Implicit Types (problem : @Problem State C) (cfg : @graph_config State C).
Implicit Types (node n m : @Node State C).

Lemma bfs_for_new_nodes problem node E nb : forall F fs,
  bfs_for problem node E nb F fs =
  ('(news, fs2) <- new_nodes problem node E nb fs ;; Ret (rev news ++ F, fs2)).
Proof.
  induction nb as [|neighbor rest IH]; intros F fs; simpl; [reflexivity|].
  destruct (negb (set_mem state_eqb neighbor E) && negb (set_mem state_eqb neighbor fs));
    [|apply IH].
  destruct (path_cost problem (cost node) (state node) None neighbor) as [c|e];
    simpl; [|reflexivity].
  rewrite IH.
  destruct (new_nodes problem node E rest (set_add state_eqb neighbor fs))
    as [[news fs2]|e]; simpl; [|reflexivity].
  rewrite <- app_assoc. reflexivity.
Qed.

Lemma dfs_for_new_nodes problem node E nb : forall F fs,
  dfs_for problem node E nb F fs =
  ('(news, fs2) <- new_nodes problem node E nb fs ;; Ret (F ++ news, fs2)).
Proof.
  induction nb as [|neighbor rest IH]; intros F fs; simpl.
  - rewrite app_nil_r. reflexivity.
  - destruct (negb (set_mem state_eqb neighbor E) && negb (set_mem state_eqb neighbor fs));
      [|apply IH].
    destruct (path_cost problem (cost node) (state node) None neighbor) as [c|e];
      simpl; [|reflexivity].
    rewrite IH.
    destruct (new_nodes problem node E rest (set_add state_eqb neighbor fs))
      as [[news fs2]|e]; simpl; [|reflexivity].
    rewrite <- app_assoc. reflexivity.
Qed.

Lemma bfs_step_graph_step problem cfg :
  bfs_step problem cfg = graph_step appendleft_all problem cfg.
Proof.
  unfold bfs_step, graph_step.
  destruct (pop_right (frontier cfg)) as [[node F1]|]; [|reflexivity].
  destruct (set_remove state_eqb (state node) (frontier_states cfg)) as [fs1|e];
    simpl; [|reflexivity].
  destruct (goal_test problem (state node)); [reflexivity|].
  destruct (actions problem (state node)) as [nb|e]; simpl; [|reflexivity].
  rewrite bfs_for_new_nodes.
  destruct (new_nodes problem node _ nb fs1) as [[news fs2]|e]; reflexivity.
Qed.

Lemma dfs_step_graph_step problem cfg :
  dfs_step problem cfg = graph_step append_all problem cfg.
Proof.
  unfold dfs_step, graph_step.
  destruct (pop_right (frontier cfg)) as [[node F1]|]; [|reflexivity].
  destruct (set_remove state_eqb (state node) (frontier_states cfg)) as [fs1|e];
    simpl; [|reflexivity].
  destruct (goal_test problem (state node)); [reflexivity|].
  destruct (actions problem (state node)) as [nb|e]; simpl; [|reflexivity].
  rewrite dfs_for_new_nodes.
  destruct (new_nodes problem node _ nb fs1) as [[news fs2]|e]; reflexivity.
Qed.

(** What the [for] loop creates. *)
Lemma new_nodes_spec problem node E nb : forall fs news fs2,
  new_nodes problem node E nb fs = Ret (news, fs2) ->
  (forall s, In s fs2 <-> In s fs \/ In s (map state news)) /\
  NoDup (map state news) /\
  (forall m, In m news ->
     m = Node_init (state m) (SVal (state m)) (SNode node) (cost m) /\
     In (state m) nb /\
     ~ In (state m) E /\ ~ In (state m) fs /\
     path_cost problem (cost node) (state node) None (state m) = Ret (cost m)) /\
  (forall s, In s nb -> In s E \/ In s fs2).
Proof.
  induction nb as [|neighbor rest IH]; intros fs news fs2 E0; simpl in E0.
  - injection E0 as <- <-. simpl.
    split; [tauto | split; [constructor | split; [contradiction | tauto]]].
  - destruct (set_mem state_eqb neighbor E) eqn:G1; simpl in E0.
    { destruct (IH _ _ _ E0) as (I1 & I2 & I3 & I4).
      apply set_mem_In in G1.
      split; [assumption | split; [assumption | split]].
      - intros m Hm. destruct (I3 m Hm) as (? & ? & ? & ? & ?).
        repeat split; try assumption. right. assumption.
      - intros s [<- | Hs]; [left; assumption | apply I4; assumption]. }
    destruct (set_mem state_eqb neighbor fs) eqn:G2; simpl in E0.
    { destruct (IH _ _ _ E0) as (I1 & I2 & I3 & I4).
      apply set_mem_In in G2.
      split; [assumption | split; [assumption | split]].
      - intros m Hm. destruct (I3 m Hm) as (? & ? & ? & ? & ?).
        repeat split; try assumption. right. assumption.
      - intros s [<- | Hs]; [right; apply I1; left; assumption
                             | apply I4; assumption]. }
    apply set_mem_not_In in G1. apply set_mem_not_In in G2.
    destruct (path_cost problem (cost node) (state node) None neighbor)
      as [c|e] eqn:PC; simpl in E0; [|discriminate].
    destruct (new_nodes problem node E rest (set_add state_eqb neighbor fs))
      as [[news' fs2']|e] eqn:NN; simpl in E0; [|discriminate].
    injection E0 as <- <-.
    destruct (IH _ _ _ NN) as (I1 & I2 & I3 & I4).
    split; [|split; [|split]].
    + intros s. rewrite I1, set_add_In. simpl. split; intros; intuition congruence.
    + simpl. constructor; [|assumption].
      intros Hin. apply in_map_iff in Hin as [m [Hm1 Hm2]].
      destruct (I3 m Hm2) as (_ & _ & _ & Hfs & _).
      apply Hfs. apply set_add_In. left. assumption.
    + intros m [<- | Hm].
      * simpl. repeat split; auto.
      * destruct (I3 m Hm) as (? & ? & ? & Hfs & ?).
        repeat split; auto.
        -- right. assumption.
        -- intros Hin. apply Hfs. apply set_add_In. right. assumption.
    + intros s [<- | Hs].
      * right. apply I1. left. apply set_add_In. left. reflexivity.
      * apply I4. assumption.
Qed.

(** An iteration that goes on has popped a node, removed its state,
    failed the goal test and run the [for] loop. *)
Lemma graph_step_Continue insert problem cfg cfg' :
  graph_step insert problem cfg = Ret (Continue cfg') ->
  exists node F1 fs1 nb news fs2,
    pop_right (frontier cfg) = Some (node, F1) /\
    set_remove state_eqb (state node) (frontier_states cfg) = Ret fs1 /\
    goal_test problem (state node) = false /\
    actions problem (state node) = Ret nb /\
    new_nodes problem node (set_add state_eqb (state node) (explored cfg)) nb fs1
      = Ret (news, fs2) /\
    cfg' = {| frontier := insert news F1;
              frontier_states := fs2;
              explored := set_add state_eqb (state node) (explored cfg) |}.
Proof.
  unfold graph_step. intros E0.
  destruct (pop_right (frontier cfg)) as [[node F1]|] eqn:P; [|discriminate].
  destruct (set_remove state_eqb (state node) (frontier_states cfg)) as [fs1|e]
    eqn:R; simpl in E0; [|discriminate].
  destruct (goal_test problem (state node)) eqn:G; [discriminate|].
  destruct (actions problem (state node)) as [nb|e] eqn:A; simpl in E0;
    [|discriminate].
  destruct (new_nodes problem node _ nb fs1) as [[news fs2]|e] eqn:NN;
    simpl in E0; [|discriminate].
  injection E0 as <-.
  exists node, F1, fs1, nb, news, fs2.
  repeat split; first [assumption | reflexivity].
Qed.

Lemma mirrors_init problem : mirrors (graph_init problem).
Proof.
  unfold mirrors, graph_init. simpl. split; [|split].
  - constructor; [intros [] | constructor].
  - tauto.
  - intros s _ [].
Qed.

Lemma logged_init problem : logged (graph_init problem) [initial problem].
Proof.
  unfold logged, graph_init. simpl. split.
  - constructor; [intros [] | constructor].
  - tauto.
Qed.

Lemma logged_Permutation cfg log log' :
  Permutation log log' -> logged cfg log -> logged cfg log'.
Proof.
  intros P [L1 L2]. split.
  - apply (Permutation_NoDup P L1).
  - intros s. rewrite <- L2. split; apply Permutation_in;
      [apply Permutation_sym|]; assumption.
Qed.

(** On a mirrored configuration [frontier_states.remove(node.state)]
    finds its element. *)
Lemma mirrors_remove cfg node rest :
  mirrors cfg -> pop_right (frontier cfg) = Some (node, rest) ->
  exists fs1, set_remove state_eqb (state node) (frontier_states cfg) = Ret fs1.
Proof.
  intros (_ & M2 & _) P. apply pop_right_Some in P.
  apply set_remove_In. apply M2. rewrite P, map_app. apply in_or_app.
  right. left. reflexivity.
Qed.

(** One iteration keeps the mirror and extends the log by the new
    states. *)
Lemma graph_step_mirrors insert problem cfg cfg' log :
  (forall news F, Permutation (insert news F) (news ++ F)) ->
  mirrors cfg -> logged cfg log ->
  graph_step insert problem cfg = Ret (Continue cfg') ->
  exists node F1 news,
    pop_right (frontier cfg) = Some (node, F1) /\
    frontier cfg' = insert news F1 /\
    mirrors cfg' /\ logged cfg' (map state news ++ log).
Proof.
  intros PI (M1 & M2 & M3) (L1 & L2) E0.
  apply graph_step_Continue in E0
    as (node & F1 & fs1 & nb & news & fs2 & P & R & G & A & NN & ->).
  exists node, F1, news. split; [assumption|]. split; [reflexivity|].
  pose proof (pop_right_Some _ P) as EF.
  rewrite EF, map_app in M1, M2. simpl in M1, M2.
  apply set_remove_Ret in R as [Rin R].
  apply new_nodes_spec in NN as (N1 & N2 & N3 & N4).
  assert (D1 : NoDup (map state F1)) by (apply NoDup_app_remove_r in M1; assumption).
  assert (D2 : ~ In (state node) (map state F1)).
  { apply NoDup_remove_2 in M1. rewrite app_nil_r in M1. assumption. }
  assert (Hfs1 : forall s, In s fs1 <-> In s (map state F1)).
  { intros s. rewrite R, M2, in_app_iff. simpl. split.
    - intros [[? | [? | []]] ?]; congruence.
    - intros Hs. split; [left; assumption | congruence]. }
  assert (Hnew : forall s, In s (map state news) ->
            ~ In s fs1 /\ s <> state node /\ ~ In s (explored cfg)).
  { intros s Hs. apply in_map_iff in Hs as [m [<- Hm]].
    destruct (N3 m Hm) as (_ & _ & HE & Hf & _).
    rewrite set_add_In in HE. tauto. }
  assert (Hperm : Permutation (map state (insert news F1))
                    (map state news ++ map state F1)).
  { rewrite <- map_app. apply Permutation_map, PI. }
  split; [split; [|split]|split]; simpl.
  - apply (Permutation_NoDup (Permutation_sym Hperm)).
    apply NoDup_app; try assumption.
    intros s Hs Hs'. destruct (Hnew s Hs) as [Hf _]. apply Hf, Hfs1. assumption.
  - intros s. rewrite N1, Hfs1. split; intros Hs.
    + apply (Permutation_in _ (Permutation_sym Hperm)). apply in_or_app. tauto.
    + apply (Permutation_in _ Hperm) in Hs. apply in_app_or in Hs. tauto.
  - intros s Hs. rewrite N1 in Hs. rewrite set_add_In. intros [-> | HE].
    + destruct Hs as [Hs | Hs]; [apply R in Hs; tauto | apply Hnew in Hs; tauto].
    + destruct Hs as [Hs | Hs]; [|apply Hnew in Hs; tauto].
      apply R in Hs as [Hs _]. apply (M3 s); assumption.
  - apply NoDup_app; try assumption.
    intros s Hs Hlog. apply L2 in Hlog. destruct (Hnew s Hs) as (Hf & Hne & HE).
    destruct Hlog as [Hlog | Hlog]; [|tauto].
    apply Hf, R. tauto.
  - intros s. rewrite in_app_iff, L2, N1, set_add_In, R. split.
    + intros [Hs | [Hs | Hs]]; try tauto.
      destruct (state_eq_dec s (state node)); tauto.
    + intros [[[Hs _] | Hs] | [-> | Hs]]; tauto.
Qed.

Lemma appendleft_all_Permutation (news F : list (@Node State C)) :
  Permutation (appendleft_all news F) (news ++ F).
Proof.
  unfold appendleft_all. apply Permutation_app_tail, Permutation_sym, Permutation_rev.
Qed.

Lemma append_all_Permutation (news F : list (@Node State C)) :
  Permutation (append_all news F) (news ++ F).
Proof. unfold append_all. apply Permutation_app_comm. Qed.

Lemma bfs_trace_mirrors problem cfg log :
  bfs_trace problem cfg log -> mirrors cfg /\ logged cfg log.
Proof.
  induction 1 as [|cfg log node rest added cfg' T [IM IL] P E0 EF].
  - split; [apply mirrors_init | apply logged_init].
  - rewrite bfs_step_graph_step in E0.
    eapply graph_step_mirrors in E0;
      [|apply appendleft_all_Permutation | eassumption | eassumption].
    destruct E0 as (node' & F1 & news & P' & EF' & M' & L').
    rewrite P in P'. injection P' as <- <-.
    split; [assumption|].
    rewrite EF in EF'. unfold appendleft_all in EF'.
    apply app_inv_tail in EF'. subst added.
    apply (logged_Permutation (log := map state news ++ log)); [|assumption].
    apply Permutation_app_tail. rewrite map_rev. apply Permutation_rev.
Qed.

Lemma dfs_trace_mirrors problem cfg log :
  dfs_trace problem cfg log -> mirrors cfg /\ logged cfg log.
Proof.
  induction 1 as [|cfg log node rest added cfg' T [IM IL] P E0 EF].
  - split; [apply mirrors_init | apply logged_init].
  - rewrite dfs_step_graph_step in E0.
    eapply graph_step_mirrors in E0;
      [|apply append_all_Permutation | eassumption | eassumption].
    destruct E0 as (node' & F1 & news & P' & EF' & M' & L').
    rewrite P in P'. injection P' as <- <-.
    split; [assumption|].
    rewrite EF in EF'. unfold append_all in EF'.
    apply app_inv_head in EF'. subst added. assumption.
Qed.


(** *** Finite problems: the loop returns *)

Lemma unexplored_add (universe E : list State) (x : State) :
  In x universe -> ~ In x E ->
  unexplored universe (set_add state_eqb x E) < unexplored universe E.
Proof.
  intros Hx HE. unfold unexplored. apply filter_length_lt with (x := x).
  - intros y Hy. apply negb_true_iff in Hy. apply negb_true_iff.
    apply set_mem_not_In. apply set_mem_not_In in Hy.
    intros Hin. apply Hy. apply set_add_In. right. assumption.
  - assumption.
  - apply negb_true_iff. apply set_mem_not_In. assumption.
  - apply negb_false_iff. apply set_mem_In. apply set_add_In. left. reflexivity.
Qed.

Lemma unexplored_le (universe E : list State) :
  unexplored universe E <= List.length universe.
Proof.
  unfold unexplored. induction universe as [|x u IH]; simpl; [lia|].
  destruct (negb (set_mem state_eqb x E)); simpl; lia.
Qed.

Lemma graph_step_Return insert problem cfg r :
  graph_step insert problem cfg = Ret (Return r) ->
  (frontier cfg = [] /\ r = None) \/
  (exists n F1, pop_right (frontier cfg) = Some (n, F1) /\
     goal_test problem (state n) = true /\ r = Some n).
Proof.
  unfold graph_step. intros E0.
  destruct (pop_right (frontier cfg)) as [[node F1]|] eqn:P.
  - right.
    destruct (set_remove state_eqb (state node) (frontier_states cfg)) as [fs1|e];
      simpl in E0; [|discriminate].
    destruct (goal_test problem (state node)) eqn:G.
    + injection E0 as <-. exists node, F1. auto.
    + destruct (actions problem (state node)) as [nb|e]; simpl in E0;
        [|discriminate].
      destruct (new_nodes problem node _ nb fs1) as [[news fs2]|e];
        simpl in E0; discriminate.
  - left. injection E0 as <-. split; [apply pop_right_None; assumption | reflexivity].
Qed.

Lemma new_nodes_total problem node E nb :
  (forall s', In s' nb ->
     exists c', path_cost problem (cost node) (state node) None s' = Ret c') ->
  forall fs, exists news fs2, new_nodes problem node E nb fs = Ret (news, fs2).
Proof.
  induction nb as [|neighbor rest IH]; intros Hpc fs; simpl.
  - eexists. eexists. reflexivity.
  - assert (Hrest : forall s', In s' rest ->
              exists c', path_cost problem (cost node) (state node) None s' = Ret c')
      by (intros s' Hs'; apply Hpc; right; assumption).
    destruct (negb (set_mem state_eqb neighbor E)
              && negb (set_mem state_eqb neighbor fs)); [|apply IH; assumption].
    destruct (Hpc neighbor (or_introl eq_refl)) as [c' ->]. simpl.
    destruct (IH Hrest (set_add state_eqb neighbor fs)) as (news & fs2 & ->).
    simpl. eexists. eexists. reflexivity.
Qed.

Section Finite.
Variable problem : @Problem State C.
Variable universe : list State.
Hypothesis finite : finite_problem problem universe.

Lemma walk_in_universe k s : walk problem k s -> In s universe.
Proof.
  induction 1 as [|k s l a s' W IH A Ha R].
  - apply (fp_initial finite).
  - pose proof (fp_result finite) as FR. pose proof (fp_actions finite) as FA.
    rewrite (FR _ _ _ IH A Ha) in R. injection R as <-.
    destruct (FA _ IH) as (l' & A' & Hincl).
    rewrite A in A'. injection A' as <-. apply Hincl. assumption.
Qed.

Lemma generated_walk n :
  generated problem n -> walk problem (depth n) (state n).
Proof.
  induction 1 as [|n l s c G IH A Hs].
  - apply walk_O.
  - simpl. apply walk_S with (s := state n) (l := l) (a := s); try assumption.
    apply (fp_result finite) with (l := l); try assumption.
    apply walk_in_universe with (k := depth n). assumption.
Qed.

Lemma generated_in_universe n : generated problem n -> In (state n) universe.
Proof.
  intros G. apply walk_in_universe with (k := depth n).
  apply generated_walk. assumption.
Qed.

(** [path()] of a created node: it returns, has one node per level
    and follows the actions from the initial state to the node. *)
Lemma generated_path_back n :
  generated problem n ->
  exists q, path_back n = Ret q /\ List.length q = S (depth n) /\
    route problem (map state (rev q)) /\
    exists r, map state (rev q) = r ++ [state n].
Proof.
  induction 1 as [|n l s c G IH A Hs].
  - exists [root_node (initial problem)]. simpl.
    repeat split; [apply route_initial | exists []; reflexivity].
  - destruct IH as (q & Eq & Hlen & Hroute & r & Er).
    exists (Node_init s (SVal s) (SNode n) c :: q). simpl.
    rewrite Eq. simpl. split; [reflexivity|]. split; [lia|].
    rewrite map_app, Er. simpl. split.
    + apply route_snoc with (l := l) (a := s); try assumption.
      * rewrite <- Er. assumption.
      * apply (fp_result finite) with (l := l); try assumption.
        apply generated_in_universe. assumption.
    + exists (r ++ [state n]). reflexivity.
Qed.

Lemma generated_path n :
  generated problem n ->
  exists p, path n = Ret p /\ List.length p = S (depth n) /\
    route problem (map state p) /\
    exists r, map state p = r ++ [state n].
Proof.
  intros G. destruct (generated_path_back G) as (q & Eq & Hlen & Hroute & Hr).
  exists (rev q). unfold path. rewrite Eq. simpl.
  rewrite length_rev. auto.
Qed.

Lemma graph_invariant_init : graph_invariant problem (graph_init problem).
Proof.
  split.
  - apply mirrors_init.
  - simpl. intros n [<- | []]. apply generated_root.
  - simpl. intros s [].
Qed.

(** An iteration on a configuration that satisfies the invariant
    does not raise. *)
Lemma graph_step_progress insert cfg :
  graph_invariant problem cfg ->
  exists it, graph_step insert problem cfg = Ret it.
Proof.
  intros [M G X]. unfold graph_step.
  destruct (pop_right (frontier cfg)) as [[node F1]|] eqn:P;
    [|eexists; reflexivity].
  destruct (mirrors_remove M P) as [fs1 ->]. simpl.
  destruct (goal_test problem (state node)); [eexists; reflexivity|].
  assert (Gn : generated problem node).
  { apply G. rewrite (pop_right_Some _ P). apply in_or_app. right. left.
    reflexivity. }
  pose proof (generated_in_universe Gn) as Hu.
  pose proof (fp_actions finite) as FA.
  destruct (FA _ Hu) as (nb & A & Hincl). rewrite A. simpl.
  destruct (@new_nodes_total problem node
              (set_add state_eqb (state node) (explored cfg)) nb) with (fs := fs1)
    as (news & fs2 & ->).
  - intros s' Hs'. apply (fp_path_cost finite) with (l := nb); assumption.
  - simpl. eexists. reflexivity.
Qed.

(** An iteration that goes on keeps the invariant and explores one
    more state of the universe. *)
Lemma graph_step_invariant insert cfg cfg' :
  (forall news F, Permutation (insert news F) (news ++ F)) ->
  graph_invariant problem cfg ->
  graph_step insert problem cfg = Ret (Continue cfg') ->
  graph_invariant problem cfg' /\
  unexplored universe (explored cfg') < unexplored universe (explored cfg).
Proof.
  intros PI [M G X] E0.
  assert (M' : mirrors cfg').
  { assert (L : logged cfg (nodup state_eq_dec (frontier_states cfg ++ explored cfg))).
    { split; [apply NoDup_nodup|].
      intros s. rewrite nodup_In. apply in_app_iff. }
    pose proof E0 as E1.
    eapply graph_step_mirrors in E1; [|exact PI | exact M | exact L].
    destruct E1 as (_ & _ & _ & _ & _ & M' & _). exact M'. }
  apply graph_step_Continue in E0
    as (node & F1 & fs1 & nb & news & fs2 & P & R & Gt & A & NN & ->).
  pose proof (pop_right_Some _ P) as EF.
  assert (Gn : generated problem node).
  { apply G. rewrite EF. apply in_or_app. right. left. reflexivity. }
  assert (Hfs : In (state node) (frontier_states cfg)).
  { apply set_remove_Ret in R. tauto. }
  split; [split|].
  - exact M'.
  - simpl. intros n Hn. apply (Permutation_in _ (PI news F1)) in Hn.
    apply in_app_or in Hn as [Hn | Hn].
    + apply new_nodes_spec in NN as (_ & _ & N3 & _).
      destruct (N3 n Hn) as (En & Hnb & _). rewrite En.
      apply generated_child with (l := nb); assumption.
    + apply G. rewrite EF. apply in_or_app. left. assumption.
  - simpl. intros s Hs. apply set_add_In in Hs as [-> | Hs]; [|apply X; assumption].
    split; [assumption|]. exists (depth node). apply generated_walk. assumption.
  - simpl. apply unexplored_add.
    + apply generated_in_universe. assumption.
    + destruct M as (_ & _ & M3). apply M3. assumption.
Qed.

(** Both uninformed searches return on a finite problem, within
    [length universe + 1] iterations, from a last configuration that
    satisfies the invariant. *)
Lemma graph_search_returns insert :
  (forall news F, Permutation (insert news F) (news ++ F)) ->
  exists cfg_last r,
    graph_invariant problem cfg_last /\
    graph_step insert problem cfg_last = Ret (Return r) /\
    forall fuel, List.length universe < fuel ->
      while_loop (graph_step insert problem) fuel (graph_init problem)
      = Some (Ret r).
Proof.
  intros PI.
  destruct (@while_loop_invariant State C _ (graph_step insert problem)
              (graph_invariant problem)
              (fun cfg => unexplored universe (explored cfg)))
    with (cfg := graph_init problem) as (cl & r & I1 & I2 & I3).
  - intros cfg HI. apply graph_step_progress. assumption.
  - intros cfg cfg' HI E. apply graph_step_invariant with (insert := insert);
      assumption.
  - apply graph_invariant_init.
  - exists cl, r. split; [assumption|]. split; [assumption|].
    intros fuel Hfuel. apply while_loop_more with (fuel := S (unexplored universe [])).
    + exact I3.
    + pose proof (unexplored_le universe []). lia.
Qed.

(** A returned node is a created node whose state passes the goal
    test. *)
Lemma graph_step_Return_goal insert cfg n :
  graph_invariant problem cfg ->
  graph_step insert problem cfg = Ret (Return (Some n)) ->
  generated problem n /\ goal_test problem (state n) = true.
Proof.
  intros [M G X] E. apply graph_step_Return in E as [[_ E] | (n' & F1 & P & Gt & E)];
    [discriminate|].
  injection E as <-. split; [|assumption].
  apply G. rewrite (pop_right_Some _ P). apply in_or_app. right. left. reflexivity.
Qed.

(** *** The FIFO order *)

Lemma levels_pop (F F1 hi lo : list (@Node State C)) (L : nat) node :
  F = hi ++ lo ->
  Forall (fun n => depth n = S L) hi -> Forall (fun n => depth n = L) lo ->
  F = F1 ++ [node] ->
  (forall f, In f F -> depth node <= depth f) /\
  (forall news, Forall (fun m => depth m = S (depth node)) news ->
     exists L' hi' lo',
       rev news ++ F1 = hi' ++ lo' /\
       Forall (fun n => depth n = S L') hi' /\
       Forall (fun n => depth n = L') lo').
Proof.
  intros EF Hhi Hlo EF1.
  destruct (list_last_cases lo) as [-> | (lo' & a & ->)].
  - rewrite app_nil_r in EF. subst F. subst hi.
    apply Forall_app in Hhi as [H1 Hn]. inversion Hn as [|? ? Dn _]; subst.
    split.
    + intros f Hf. apply in_app_or in Hf as [Hf | [<- | []]]; [|lia].
      rewrite Forall_forall in H1. rewrite (H1 f Hf). lia.
    + intros news Hnews. exists (S L), (rev news), F1.
      split; [reflexivity|]. split; [|assumption].
      apply Forall_rev. rewrite Dn in Hnews. assumption.
  - subst F. rewrite app_assoc in EF1. apply app_inj_tail in EF1 as [<- <-].
    apply Forall_app in Hlo as [Hlo' Hn]. inversion Hn as [|? ? Dn _]; subst.
    split.
    + intros f Hf. rewrite Forall_forall in Hhi, Hlo'.
      apply in_app_or in Hf as [Hf | Hf].
      * rewrite (Hhi f Hf). lia.
      * apply in_app_or in Hf as [Hf | [<- | []]]; [|lia].
        rewrite (Hlo' f Hf). lia.
    + intros news Hnews. exists (depth a), (rev news ++ hi), lo'.
      split; [rewrite app_assoc; reflexivity|]. split; [|assumption].
      apply Forall_app. split; [apply Forall_rev|]; assumption.
Qed.

(** Every route to an unexplored state is cut by the frontier, at a
    node that is no deeper than the route is long. *)
Lemma frontier_cut cfg k s :
  bfs_invariant problem cfg ->
  walk problem k s -> ~ In s (explored cfg) ->
  exists f, In f (frontier cfg) /\ depth f <= k /\ (depth f = k -> state f = s).
Proof.
  intros [[M G X] BI BL BC BS] W. simpl in *.
  induction W as [|k s l a s' W IH A Ha R]; intros HE.
  - destruct BI as [BI | BI]; [contradiction|].
    destruct M as (_ & M2 & _). apply M2 in BI.
    apply in_map_iff in BI as (f & Ef & Hf).
    exists f. split; [assumption|]. split; [|intros _; assumption].
    apply BS; [assumption|]. rewrite Ef. apply walk_O.
  - pose proof (fp_result finite) as FR.
    pose proof (walk_in_universe W) as Hu.
    pose proof R as R'.
    rewrite (FR _ _ _ Hu A Ha) in R'. injection R' as <-.
    destruct (in_dec state_eq_dec s (explored cfg)) as [Hs | Hs].
    + destruct (BC s l a Hs A Ha) as [Hs' | Hs']; [contradiction|].
      destruct M as (_ & M2 & _). apply M2 in Hs'.
      apply in_map_iff in Hs' as (f & Ef & Hf).
      exists f. split; [assumption|]. split; [|intros _; assumption].
      apply BS; [assumption|]. rewrite Ef.
      apply walk_S with (s := s) (l := l) (a := a); assumption.
    + destruct (IH Hs) as (f & Hf & Hd & _).
      exists f. split; [assumption|]. split; [lia|]. intros Hk. lia.
Qed.

Lemma bfs_invariant_init : bfs_invariant problem (graph_init problem).
Proof.
  split.
  - apply graph_invariant_init.
  - right. left. reflexivity.
  - exists 0, [], [root_node (initial problem)]. simpl.
    split; [reflexivity|]. split; constructor; [reflexivity | constructor].
  - simpl. intros s l s' [].
  - simpl. intros f k [<- | []] _. simpl. lia.
Qed.

Lemma bfs_step_invariant cfg cfg' :
  bfs_invariant problem cfg ->
  graph_step appendleft_all problem cfg = Ret (Continue cfg') ->
  bfs_invariant problem cfg'.
Proof.
  intros BIv E0.
  destruct (graph_step_invariant appendleft_all
              appendleft_all_Permutation (bi_graph BIv) E0) as [GI' _].
  pose proof BIv as [[M G X] BI BL BC BS].
  apply graph_step_Continue in E0
    as (node & F1 & fs1 & nb & news & fs2 & P & R & Gt & A & NN & ->).
  pose proof (pop_right_Some _ P) as EF.
  pose proof (new_nodes_spec _ _ _ _ _ NN) as (N1 & N2 & N3 & N4).
  apply set_remove_Ret in R as [Rin R].
  destruct BL as (L & hi & lo & EL & Hhi & Hlo).
  destruct (@levels_pop (frontier cfg) F1 hi lo L node EL Hhi Hlo EF)
    as [Hmin Hlev].
  assert (Hdepth : Forall (fun m => depth m = S (depth node)) news).
  { apply Forall_forall. intros m Hm. destruct (N3 m Hm) as (-> & _).
    reflexivity. }
  split; simpl.
  - assumption.
  - destruct BI as [BI | BI].
    + left. apply set_add_In. right. assumption.
    + destruct (state_eq_dec (initial problem) (state node)) as [-> | Hne].
      * left. apply set_add_In. left. reflexivity.
      * right. apply N1. left. apply R. split; assumption.
  - apply Hlev. assumption.
  - intros s l s' Hs Al Hs'. apply set_add_In in Hs as [-> | Hs].
    + rewrite A in Al. injection Al as <-.
      destruct (N4 s' Hs'); [left | right]; assumption.
    + destruct (BC s l s' Hs Al Hs') as [Hx | Hx].
      * left. apply set_add_In. right. assumption.
      * destruct (state_eq_dec s' (state node)) as [-> | Hne].
        -- left. apply set_add_In. left. reflexivity.
        -- right. apply N1. left. apply R. split; assumption.
  - intros f k Hf W. unfold appendleft_all in Hf.
    apply in_app_or in Hf as [Hf | Hf].
    + apply in_rev in Hf.
      destruct (N3 f Hf) as (Ef & _ & HE & Hfs & _).
      rewrite Forall_forall in Hdepth. rewrite (Hdepth f Hf).
      assert (HE' : ~ In (state f) (explored cfg)).
      { intros Hin. apply HE. apply set_add_In. right. assumption. }
      destruct (frontier_cut BIv W HE') as (g & Hg & Hd & Hst).
      pose proof (Hmin g Hg) as Hge.
      destruct (Nat.eq_dec (depth g) k) as [Ek | Nk]; [|lia].
      exfalso. specialize (Hst Ek).
      rewrite EF in Hg. apply in_app_or in Hg as [Hg | [<- | []]].
      * apply Hfs. apply R. split.
        -- destruct M as (_ & M2 & _). apply M2. rewrite <- Hst.
           apply in_map. rewrite EF. apply in_or_app. left. assumption.
        -- intros Heq. apply HE. apply set_add_In. left. assumption.
      * apply HE. apply set_add_In. left. symmetry. assumption.
    + apply BS; [|assumption]. rewrite EF. apply in_or_app. left. assumption.
Qed.


(** When no goal state can be reached, both uninformed searches
    exhaust the frontier and return [None]. *)
Lemma graph_search_unreachable insert :
  (forall news F, Permutation (insert news F) (news ++ F)) ->
  (forall k s, walk problem k s -> goal_test problem s = false) ->
  forall fuel, List.length universe < fuel ->
    while_loop (graph_step insert problem) fuel (graph_init problem)
    = Some (Ret None).
Proof.
  intros PI Hno.
  destruct (graph_search_returns insert PI) as (cl & r & I1 & I2 & I3).
  destruct r as [n|]; [|assumption].
  destruct (graph_step_Return_goal _ I1 I2) as [Gn Gt].
  rewrite (Hno _ _ (generated_walk Gn)) in Gt. discriminate.
Qed.

(** When some goal state can be reached, the FIFO search returns a
    created goal node that is no deeper than any route to a goal is
    long. *)
Lemma bfs_returns_shortest :
  (exists k g, walk problem k g /\ goal_test problem g = true) ->
  exists n,
    (forall fuel, List.length universe < fuel ->
       while_loop (graph_step appendleft_all problem) fuel (graph_init problem)
       = Some (Ret (Some n))) /\
    generated problem n /\ goal_test problem (state n) = true /\
    forall k g, walk problem k g -> goal_test problem g = true -> depth n <= k.
Proof.
  intros (k0 & g0 & W0 & G0).
  destruct (@while_loop_invariant State C _ (graph_step appendleft_all problem)
              (bfs_invariant problem)
              (fun cfg => unexplored universe (explored cfg)))
    with (cfg := graph_init problem) as (cl & r & I1 & I2 & I3).
  - intros cfg HI. apply graph_step_progress. apply (bi_graph HI).
  - intros cfg cfg' HI E. split.
    + apply bfs_step_invariant with (cfg := cfg); assumption.
    + apply (graph_step_invariant appendleft_all appendleft_all_Permutation
               (bi_graph HI) E).
  - apply bfs_invariant_init.
  - assert (Hcut : forall k g, walk problem k g -> goal_test problem g = true ->
              exists f, In f (frontier cl) /\ depth f <= k).
    { intros k g W Gg. destruct (@frontier_cut cl k g I1 W) as (f & Hf & Hd & _).
      - intros Hin. destruct (gi_explored (bi_graph I1) _ Hin) as [Hng _].
        congruence.
      - exists f. auto. }
    pose proof I2 as I2'.
    apply graph_step_Return in I2' as [[Hnil _] | (n & F1 & P & Gt & ->)].
    { destruct (Hcut k0 g0 W0 G0) as (f & Hf & _). rewrite Hnil in Hf.
      contradiction. }
    exists n. split; [|split; [|split]].
    + intros fuel Hfuel.
      apply while_loop_more with (fuel := S (unexplored universe [])).
      * exact I3.
      * pose proof (unexplored_le universe []). lia.
    + apply (graph_step_Return_goal _ (bi_graph I1) I2).
    + assumption.
    + intros k g W Gg. destruct (Hcut k g W Gg) as (f & Hf & Hd).
      destruct (bi_levels I1) as (L & hi & lo & EL & Hhi & Hlo).
      destruct (@levels_pop (frontier cl) F1 hi lo L n EL Hhi Hlo
                  (pop_right_Some _ P)) as [Hmin _].
      specialize (Hmin f Hf). lia.
Qed.
End Finite.

End GraphSearch.

(** ** heapq keeps the elements of the heap *)

Section HeapqFacts.
Context {A : Type}.
Variable lt : A -> A -> bool.

Lemma list_set_length (heap : list A) (pos : nat) (item : A) :
  List.length (list_set heap pos item) = List.length heap.
Proof.
  revert pos. induction heap as [|x t IH]; intros [|pos]; simpl; auto.
Qed.

Lemma nth_list_set_other (heap : list A) (pos pos' : nat) (item d : A) :
  pos <> pos' -> nth pos' (list_set heap pos item) d = nth pos' heap d.
Proof.
  revert pos pos'. induction heap as [|x t IH]; intros [|pos] [|pos'] Hne; simpl;
    try reflexivity; try congruence.
  apply IH. congruence.
Qed.

(** Storing [item] at [pos] trades it for the element that was there. *)
Lemma list_set_exchange (heap : list A) (pos : nat) (item d : A) :
  pos < List.length heap ->
  Permutation (item :: heap) (nth pos heap d :: list_set heap pos item).
Proof.
  revert pos. induction heap as [|x t IH]; intros [|pos] Hpos; simpl in *; try lia.
  - apply perm_swap.
  - apply Permutation_trans with (x :: item :: t); [apply perm_swap|].
    apply Permutation_trans with (x :: nth pos t d :: list_set t pos item);
      [|apply perm_swap].
    apply perm_skip. apply IH. lia.
Qed.

Lemma siftdown_loop_Permutation (fuel : nat) :
  forall (heap : list A) (newitem : A) (startpos pos : nat) (d : A),
    pos < List.length heap ->
    Permutation (newitem :: heap)
      (nth pos heap d :: siftdown_loop lt fuel heap newitem startpos pos).
Proof.
  induction fuel as [|fuel IH]; intros heap newitem startpos pos d Hpos;
    cbn [siftdown_loop].
  - apply list_set_exchange. assumption.
  - destruct (startpos <? pos) eqn:Hlt; [|apply list_set_exchange; assumption].
    apply Nat.ltb_lt in Hlt.
    assert (Hpar : (pos - 1) / 2 < pos).
    { apply Nat.le_lt_trans with (pos - 1); [|lia].
      apply Nat.Div0.div_le_upper_bound. lia. }
    set (parentpos := (pos - 1) / 2) in *.
    destruct (lt newitem (nth parentpos heap newitem));
      [|apply list_set_exchange; assumption].
    set (parent := nth parentpos heap newitem).
    assert (Hparent : nth parentpos heap d = parent).
    { apply nth_indep. lia. }
    pose proof (IH (list_set heap pos parent) newitem startpos parentpos d) as P1.
    rewrite list_set_length in P1. specialize (P1 ltac:(lia)).
    rewrite nth_list_set_other in P1 by lia. rewrite Hparent in P1.
    pose proof (@list_set_exchange heap pos parent d Hpos) as P2.
    apply Permutation_cons_inv with (a := parent).
    apply Permutation_trans with (newitem :: parent :: heap); [apply perm_swap|].
    apply Permutation_trans with (newitem :: nth pos heap d :: list_set heap pos parent);
      [apply perm_skip; assumption|].
    apply Permutation_trans with (nth pos heap d :: newitem :: list_set heap pos parent);
      [apply perm_swap|].
    apply Permutation_trans with
      (nth pos heap d :: parent
         :: siftdown_loop lt fuel (list_set heap pos parent) newitem startpos parentpos);
      [apply perm_skip; assumption | apply perm_swap].
Qed.

Lemma siftdown_Permutation (heap : list A) (startpos pos : nat) :
  Permutation (siftdown lt heap startpos pos) heap.
Proof.
  unfold siftdown. destruct (nth_error heap pos) as [newitem|] eqn:E;
    [|apply Permutation_refl].
  assert (Hpos : pos < List.length heap) by (apply nth_error_Some; congruence).
  pose proof (@siftdown_loop_Permutation pos heap newitem startpos pos newitem Hpos)
    as P.
  rewrite (nth_error_nth _ _ _ E) in P.
  apply Permutation_cons_inv in P. apply Permutation_sym. assumption.
Qed.

Lemma siftup_loop_Permutation (fuel : nat) :
  forall (heap : list A) (newitem : A) (endpos pos : nat) (heap1 : list A)
         (pos1 : nat) (d : A),
    endpos <= List.length heap -> pos < List.length heap ->
    siftup_loop lt fuel heap newitem endpos pos = (heap1, pos1) ->
    pos1 < List.length heap1 /\
    Permutation (nth pos heap d :: heap1) (nth pos1 heap1 d :: heap).
Proof.
  induction fuel as [|fuel IH]; intros heap newitem endpos pos heap1 pos1 d
    Hend Hpos E; cbn [siftup_loop] in E.
  - injection E as <- <-. split; [assumption | apply Permutation_refl].
  - destruct (2 * pos + 1 <? endpos) eqn:Hc.
    2:{ injection E as <- <-. split; [assumption | apply Permutation_refl]. }
    apply Nat.ltb_lt in Hc.
    set (childpos :=
           if (2 * pos + 1 + 1 <? endpos)
              && negb (lt (nth (2 * pos + 1) heap newitem)
                          (nth (2 * pos + 1 + 1) heap newitem))
           then 2 * pos + 1 + 1 else 2 * pos + 1) in *.
    assert (Hchild : pos < childpos /\ childpos < endpos).
    { unfold childpos. destruct (2 * pos + 1 + 1 <? endpos) eqn:Hr; cbn [andb].
      - apply Nat.ltb_lt in Hr.
        destruct (negb (lt (nth (2 * pos + 1) heap newitem)
                          (nth (2 * pos + 1 + 1) heap newitem))); lia.
      - lia. }
    set (c := nth childpos heap newitem) in *.
    assert (Hc' : nth childpos heap d = c) by (apply nth_indep; lia).
    destruct (IH (list_set heap pos c) newitem endpos childpos heap1 pos1 d) as [L1 P1].
    + rewrite list_set_length. assumption.
    + rewrite list_set_length. lia.
    + assumption.
    + split; [assumption|].
      rewrite nth_list_set_other in P1 by lia. rewrite Hc' in P1.
      pose proof (@list_set_exchange heap pos c d Hpos) as P2.
      apply Permutation_cons_inv with (a := c).
      apply Permutation_trans with (nth pos heap d :: c :: heap1); [apply perm_swap|].
      apply Permutation_trans with
        (nth pos heap d :: nth pos1 heap1 d :: list_set heap pos c);
        [apply perm_skip; assumption|].
      apply Permutation_trans with
        (nth pos1 heap1 d :: nth pos heap d :: list_set heap pos c);
        [apply perm_swap|].
      apply Permutation_trans with (nth pos1 heap1 d :: c :: heap);
        [apply perm_skip, Permutation_sym; assumption | apply perm_swap].
Qed.

Lemma siftup_Permutation (heap : list A) (pos : nat) :
  Permutation (siftup lt heap pos) heap.
Proof.
  unfold siftup. destruct (nth_error heap pos) as [newitem|] eqn:E;
    [|apply Permutation_refl].
  assert (Hpos : pos < List.length heap) by (apply nth_error_Some; congruence).
  destruct (siftup_loop lt (List.length heap) heap newitem (List.length heap) pos)
    as [heap1 pos1] eqn:L.
  destruct (@siftup_loop_Permutation (List.length heap) heap newitem (List.length heap)
              pos heap1 pos1 newitem (le_n _) Hpos L) as [L1 P1].
  rewrite (nth_error_nth _ _ _ E) in P1.
  apply Permutation_trans with (list_set heap1 pos1 newitem);
    [apply siftdown_Permutation|].
  pose proof (@list_set_exchange heap1 pos1 newitem newitem L1) as P2.
  apply Permutation_cons_inv with (a := nth pos1 heap1 newitem).
  apply Permutation_trans with (newitem :: heap1);
    [apply Permutation_sym; assumption | assumption].
Qed.

(** [heappush] adds the item and nothing else. *)
Lemma heappush_Permutation (heap : list A) (item : A) :
  Permutation (heappush lt heap item) (item :: heap).
Proof.
  unfold heappush.
  apply Permutation_trans with (heap ++ [item]); [apply siftdown_Permutation|].
  apply Permutation_sym, Permutation_cons_append.
Qed.

(** [heappop] takes one element out of the heap and keeps the others. *)
Lemma heappop_Permutation (heap rest : list A) (item : A) :
  heappop lt heap = Some (item, rest) -> Permutation heap (item :: rest).
Proof.
  unfold heappop. destruct (pop_right heap) as [[lastelt heap1]|] eqn:P;
    [|discriminate].
  apply pop_right_Some in P. subst heap.
  destruct heap1 as [|returnitem t].
  - intros [= <- <-]. apply Permutation_refl.
  - intros [= <- <-]. simpl.
    apply perm_skip.
    apply Permutation_trans with (lastelt :: t);
      [apply Permutation_sym, Permutation_cons_append|].
    apply Permutation_sym. apply (siftup_Permutation (lastelt :: t) 0).
Qed.
End HeapqFacts.

(** ** The PathFinder problem is a finite problem *)

Section PathFinderFacts.
Context {State : Type} `{PyState State}.
Context {C : Type} `{PyNumber C}.

Lemma dict_get_In {V : Type} (k : State) (d : list (State * V)) (v : V) :
  dict_get state_eqb k d = Ret v -> In (k, v) d.
Proof.
  induction d as [|[k' v'] d IH]; simpl; [discriminate|].
  destruct (state_eqb k k') eqn:E.
  - apply state_eqb_eq in E. intros [= ->]. left. congruence.
  - intros Hd. right. apply IH. assumption.
Qed.

Lemma dict_get_keys {V : Type} (k : State) (d : list (State * V)) :
  In k (dict_keys d) -> exists v, dict_get state_eqb k d = Ret v.
Proof.
  induction d as [|[k' v'] d IH]; simpl; [contradiction|].
  intros [<- | Hin].
  - rewrite state_eqb_refl. eexists. reflexivity.
  - destruct (state_eqb k k'); [eexists; reflexivity | apply IH; assumption].
Qed.

Lemma PathFinder_finite (initial goal : State)
    (graph : list (State * list (State * Z))) :
  In initial (dict_keys graph) -> graph_closed graph = true ->
  finite_problem (PathFinder (C := C) initial goal graph) (dict_keys graph).
Proof.
  intros Hinit Hclosed. unfold graph_closed in Hclosed.
  rewrite forallb_forall in Hclosed.
  split; simpl.
  - assumption.
  - intros s Hs. destruct (dict_get_keys s graph Hs) as [adj E].
    rewrite E. simpl. exists (dict_keys adj). split; [reflexivity|].
    intros s' Hs'. unfold dict_keys in Hs'. apply in_map_iff in Hs' as (road & <- & Hroad).
    specialize (Hclosed _ (dict_get_In _ _ E)). simpl in Hclosed.
    rewrite forallb_forall in Hclosed. apply set_mem_In. apply Hclosed. assumption.
  - reflexivity.
  - intros c s l s' Hs A Hs'.
    destruct (dict_get state_eqb s graph) as [adj|e]; simpl in *; [|discriminate].
    injection A as <-. destruct (dict_get_keys s' adj Hs') as [w ->]. simpl.
    eexists. reflexivity.
Qed.
End PathFinderFacts.

(** ** The membership test of the cost-ordered searches *)

Section CostOrderedFacts.
Context {State : Type} `{PyState State}.
Context {C : Type} `{PyNumber C}.

(** Looking a bare state up among [(state, cost)] tuples finds nothing. *)
Lemma state_not_among_pairs (s : State) (fs : list (@set_elem State C)) :
  only_pairs fs -> set_mem set_elem_eqb (EState s) fs = false.
Proof.
  induction 1 as [|e fs He _ IH]; simpl; [reflexivity|].
  destruct e; [contradiction | assumption].
Qed.

Lemma only_pairs_add (s : State) (c : C) (fs : list (@set_elem State C)) :
  only_pairs fs -> only_pairs (set_add set_elem_eqb (EPair s c) fs).
Proof.
  intros Hfs. unfold set_add.
  destruct (set_mem set_elem_eqb (EPair s c) fs); [assumption|].
  constructor; [exact I | assumption].
Qed.

Lemma only_pairs_remove (e : @set_elem State C) (fs fs1 : list set_elem) :
  only_pairs fs -> set_remove set_elem_eqb e fs = Ret fs1 -> only_pairs fs1.
Proof.
  intros Hfs. unfold set_remove.
  destruct (set_mem set_elem_eqb e fs); [|discriminate].
  intros [= <-]. unfold only_pairs in *. rewrite Forall_forall in *.
  intros x Hx. apply filter_In in Hx as [Hx _]. apply Hfs. assumption.
Qed.

Lemma ucs_for_only_pairs (problem : @Problem State C) node E nb :
  forall F fs F2 fs2,
    only_pairs fs ->
    ucs_for problem node E nb F fs = Ret (F2, fs2) -> only_pairs fs2.
Proof.
  induction nb as [|neighbor rest IH]; intros F fs F2 fs2 Hfs E0; simpl in E0.
  - injection E0 as <- <-. assumption.
  - destruct (negb (set_mem state_eqb neighbor E)
              && negb (set_mem set_elem_eqb (EState neighbor) fs)).
    + destruct (path_cost problem (cost node) (state node) None neighbor) as [c|e];
        simpl in E0; [|discriminate].
      apply IH in E0; [assumption | apply only_pairs_add; assumption].
    + apply IH in E0; assumption.
Qed.

(** At every iteration of [uniform_cost_search], [frontier_states]
    holds tuples only, so the test [neighbor not in frontier_states]
    of its [for] loop always succeeds. *)
Lemma ucs_frontier_states_only_pairs (problem : @Problem State C) k :
  forall cfg cfg',
    only_pairs (heap_states cfg) ->
    configuration_at (ucs_step problem) k cfg = Some cfg' ->
    only_pairs (heap_states cfg').
Proof.
  induction k as [|k IH]; intros cfg cfg' Hfs E0; simpl in E0.
  - injection E0 as <-. assumption.
  - destruct (ucs_step problem cfg) as [[r|cfg1]|e] eqn:S1; try discriminate.
    apply (IH cfg1 cfg'); [|assumption].
    unfold ucs_step in S1.
    destruct (heappop Node_lt (heap cfg)) as [[node F1]|]; [|discriminate].
    destruct (set_remove set_elem_eqb (EPair (state node) (cost node)) (heap_states cfg))
      as [fs1|e] eqn:R; simpl in S1; [|discriminate].
    destruct (goal_test problem (state node)); [discriminate|].
    destruct (actions problem (state node)) as [nb|e]; simpl in S1; [|discriminate].
    destruct (ucs_for problem node _ nb F1 fs1) as [[F2 fs2]|e] eqn:UF;
      simpl in S1; [|discriminate].
    injection S1 as <-. simpl.
    eapply ucs_for_only_pairs; [|exact UF].
    eapply only_pairs_remove; eassumption.
Qed.

Lemma ucs_membership_test_vacuous (problem : @Problem State C) k cfg s :
  configuration_at (ucs_step problem) k (cost_init problem) = Some cfg ->
  set_mem set_elem_eqb (EState s) (heap_states cfg) = false.
Proof.
  intros E0. apply state_not_among_pairs.
  apply (ucs_frontier_states_only_pairs problem k (cost_init problem)); [|assumption].
  constructor; [exact I | constructor].
Qed.
End CostOrderedFacts.

(** ** The cost-ordered loops stop *)

Lemma list_sum_Permutation (l l' : list nat) :
  Permutation l l' -> list_sum l = list_sum l'.
Proof.
  induction 1; simpl; lia.
Qed.

(** A loop whose continuing iterations keep an invariant and decrease a
    measure stops, by returning or by raising. *)
Lemma while_loop_terminates {State C Config : Type}
    (step : Config -> outcome (@iteration State C Config))
    (Inv : Config -> Prop) (mu : Config -> nat) :
  (forall cfg cfg', Inv cfg -> step cfg = Ret (Continue cfg') ->
     Inv cfg' /\ mu cfg' < mu cfg) ->
  forall cfg, Inv cfg -> exists r, while_loop step (S (mu cfg)) cfg = Some r.
Proof.
  intros Hstep.
  assert (G : forall k cfg, mu cfg < k -> Inv cfg ->
            exists r, while_loop step k cfg = Some r).
  { induction k as [|k IH]; intros cfg Hk HI; [lia|]. simpl.
    destruct (step cfg) as [[r|cfg']|e] eqn:E; try (eexists; reflexivity).
    destruct (Hstep cfg cfg' HI E) as [HI' Hmu].
    apply IH; [lia | assumption]. }
  intros cfg HI. apply G; [lia | assumption].
Qed.

Section CostOrderedTermination.
Context {State : Type} `{PyState State}.
Context {C : Type} `{PyNumber C}.
Variable problem : @Problem State C.
Variable universe : list State.
Hypothesis finite : finite_problem problem universe.

Lemma degree_bound (s : State) (l : list State) :
  In s universe -> actions problem s = Ret l ->
  List.length l <= degree problem universe.
Proof.
  intros Hs A. unfold degree.
  pose proof (proj1 (list_max_le _ _) (le_n
    (list_max (map (fun s => match actions problem s with
                             | Ret l => List.length l
                             | Raise _ => 0
                             end) universe)))) as Hall.
  rewrite Forall_forall in Hall.
  specialize (Hall (List.length l)). apply Hall.
  apply in_map_iff. exists s. rewrite A. auto.
Qed.

Lemma rank_add_le (E : list State) (x s : State) :
  In x universe ->
  rank universe (set_add state_eqb x E) s <= rank universe E s.
Proof.
  intros Hx. unfold rank.
  destruct (in_dec state_eq_dec x E) as [Hin | Hnin].
  - unfold set_add. apply set_mem_In in Hin. rewrite Hin. lia.
  - pose proof (unexplored_add universe E x Hx Hnin).
    destruct (set_mem state_eqb s (set_add state_eqb x E));
      destruct (set_mem state_eqb s E); lia.
Qed.

Lemma rank_new_lt (E : list State) (x s : State) :
  In x universe -> ~ In s (set_add state_eqb x E) ->
  rank universe (set_add state_eqb x E) s + 1 <= rank universe E x.
Proof.
  intros Hx Hs. unfold rank.
  apply set_mem_not_In in Hs. rewrite Hs.
  destruct (in_dec state_eq_dec x E) as [Hin | Hnin].
  - unfold set_add. apply set_mem_In in Hin. rewrite Hin. lia.
  - pose proof (unexplored_add universe E x Hx Hnin).
    destruct (set_mem state_eqb x E); lia.
Qed.

Lemma potential_le (base : nat) (E E' : list State) (F : list (@Node State C)) :
  0 < base ->
  (forall s, rank universe E' s <= rank universe E s) ->
  potential base universe E' F <= potential base universe E F.
Proof.
  intros Hb Hr. unfold potential. induction F as [|n F IH]; simpl; [lia|].
  pose proof (Nat.pow_le_mono_r base _ _ ltac:(lia) (Hr (state n))). lia.
Qed.

Lemma potential_new (base k : nat) (E : list State) (news : list (@Node State C)) :
  0 < base ->
  (forall m, In m news -> rank universe E (state m) <= k) ->
  potential base universe E news <= List.length news * base ^ k.
Proof.
  intros Hb Hr. unfold potential. induction news as [|m news IH]; simpl; [lia|].
  pose proof (Nat.pow_le_mono_r base _ _ ltac:(lia) (Hr m (or_introl eq_refl))).
  assert (IH' : list_sum (map (fun n => base ^ rank universe E (state n)) news)
                <= List.length news * base ^ k)
    by (apply IH; intros m' Hm'; apply Hr; right; assumption).
  lia.
Qed.

(** The invariant of the cost-ordered loops: the states in the heap
    belong to the universe. *)
Lemma cost_step_decreases
    (step : @cost_config State C -> outcome (@iteration State C (@cost_config State C)))
    (cfg cfg' : @cost_config State C) :
  pops_and_pushes problem step ->
  (forall n, In n (heap cfg) -> In (state n) universe) ->
  step cfg = Ret (Continue cfg') ->
  (forall n, In n (heap cfg') -> In (state n) universe) /\
  potential (S (degree problem universe)) universe (settled cfg') (heap cfg')
  < potential (S (degree problem universe)) universe (settled cfg) (heap cfg).
Proof.
  intros Hshape Hinv E0.
  destruct (Hshape cfg cfg' E0) as (node & rest & news & nb & P & A & ES & P' & Hlen & Hnews).
  assert (Hnode : In (state node) universe).
  { apply Hinv. apply (Permutation_in _ (Permutation_sym P)). left. reflexivity. }
  pose proof (fp_actions finite) as FA.
  destruct (FA _ Hnode) as (l & A' & Hincl). rewrite A in A'. injection A' as <-.
  pose proof (@degree_bound (state node) nb Hnode A) as HD.
  split.
  - intros n Hn. apply (Permutation_in _ P') in Hn. apply in_app_or in Hn as [Hn | Hn].
    + apply Hincl. apply (Hnews n Hn).
    + apply Hinv. apply (Permutation_in _ (Permutation_sym P)). right. assumption.
  - set (B := S (degree problem universe)).
    unfold potential at 1 2.
    rewrite (list_sum_Permutation (Permutation_map _ P')).
    rewrite (list_sum_Permutation (Permutation_map _ P)).
    rewrite map_app, list_sum_app. simpl. rewrite ES.
    set (k := rank universe (settled cfg) (state node)).
    assert (Hk : forall m, In m news ->
              rank universe (set_add state_eqb (state node) (settled cfg)) (state m)
              <= k - 1 /\ 1 <= k).
    { intros m Hm. destruct (Hnews m Hm) as [_ Hs]. rewrite ES in Hs.
      pose proof (@rank_new_lt (settled cfg) (state node) (state m) Hnode Hs) as Hrk.
      fold k in Hrk. lia. }
    pose proof (@potential_new B (k - 1)
                  (set_add state_eqb (state node) (settled cfg)) news ltac:(unfold B; lia)
                  (fun m Hm => proj1 (Hk m Hm))) as Hn.
    pose proof (@potential_le B (settled cfg)
                  (set_add state_eqb (state node) (settled cfg)) rest ltac:(unfold B; lia)
                  (fun s => @rank_add_le (settled cfg) (state node) s Hnode)) as Hr.
    unfold potential in Hn, Hr.
    assert (Hpow : List.length news * B ^ (k - 1) < B ^ k).
    { destruct news as [|m news'].
      - simpl. apply Nat.neq_0_lt_0. apply Nat.pow_nonzero. unfold B. lia.
      - destruct (Hk m (or_introl eq_refl)) as [_ Hk1].
        replace k with (S (k - 1)) at 2 by lia. rewrite Nat.pow_succ_r'.
        assert (0 < B ^ (k - 1))
          by (apply Nat.neq_0_lt_0, Nat.pow_nonzero; unfold B; lia).
        apply Nat.mul_lt_mono_pos_r; [assumption|]. unfold B. simpl in *. lia. }
    lia.
Qed.

(** A cost-ordered loop on a finite problem stops. *)
Lemma cost_loop_terminates
    (step : @cost_config State C -> outcome (@iteration State C (@cost_config State C))) :
  pops_and_pushes problem step ->
  exists fuel r, while_loop step fuel (cost_init problem) = Some r.
Proof.
  intros Hshape.
  destruct (@while_loop_terminates State C _ step
              (fun cfg => forall n, In n (heap cfg) -> In (state n) universe)
              (fun cfg => potential (S (degree problem universe)) universe
                            (settled cfg) (heap cfg)))
    with (cfg := cost_init problem) as [r Hr].
  - intros cfg cfg' HI E. apply cost_step_decreases with (step := step); assumption.
  - simpl. intros n [<- | []]. apply (fp_initial finite).
  - eexists. exists r. exact Hr.
Qed.
End CostOrderedTermination.

Section CostOrderedShape.
Context {State : Type} `{PyState State}.

Lemma ucs_for_pushes {C : Type} `{PyNumber C} (problem : @Problem State C)
    (node : Node) (E nb : list State) :
  forall F fs F2 fs2,
    ucs_for problem node E nb F fs = Ret (F2, fs2) ->
    exists news,
      Permutation F2 (news ++ F) /\ List.length news <= List.length nb /\
      forall m, In m news -> In (state m) nb /\ ~ In (state m) E.
Proof.
  induction nb as [|neighbor rest IH]; intros F fs F2 fs2 E0; simpl in E0.
  - injection E0 as <- <-. exists []. simpl.
    split; [apply Permutation_refl | split; [lia | contradiction]].
  - destruct (set_mem state_eqb neighbor E) eqn:G1; simpl in E0.
    { destruct (IH _ _ _ _ E0) as (news & P & L & N). exists news.
      split; [assumption|]. split; [simpl; lia|].
      intros m Hm. destruct (N m Hm). split; [right|]; assumption. }
    destruct (set_mem set_elem_eqb (EState neighbor) fs); simpl in E0.
    { destruct (IH _ _ _ _ E0) as (news & P & L & N). exists news.
      split; [assumption|]. split; [simpl; lia|].
      intros m Hm. destruct (N m Hm). split; [right|]; assumption. }
    destruct (path_cost problem (cost node) (state node) None neighbor) as [c|e];
      simpl in E0; [|discriminate].
    destruct (IH _ _ _ _ E0) as (news & P & L & N).
    exists (Node_init neighbor (SVal neighbor) (SNode node) c :: news).
    split; [|split].
    + apply (Permutation_trans P). simpl.
      apply Permutation_trans with
        (news ++ Node_init neighbor (SVal neighbor) (SNode node) c :: F).
      * apply Permutation_app_head. apply heappush_Permutation.
      * apply Permutation_sym, Permutation_middle.
    + simpl. lia.
    + intros m [<- | Hm].
      * simpl. split; [left; reflexivity | apply set_mem_not_In; assumption].
      * destruct (N m Hm). split; [right|]; assumption.
Qed.

Lemma a_star_for_pushes (locs : list (State * Location))
    (problem : @Problem State float) (node : Node) (E nb : list State) :
  forall F fs F2 fs2,
    a_star_for locs problem node E nb F fs = Ret (F2, fs2) ->
    exists news,
      Permutation F2 (news ++ F) /\ List.length news <= List.length nb /\
      forall m, In m news -> In (state m) nb /\ ~ In (state m) E.
Proof.
  induction nb as [|neighbor rest IH]; intros F fs F2 fs2 E0; simpl in E0.
  - injection E0 as <- <-. exists []. simpl.
    split; [apply Permutation_refl | split; [lia | contradiction]].
  - destruct (set_mem state_eqb neighbor E) eqn:G1; simpl in E0.
    { destruct (IH _ _ _ _ E0) as (news & P & L & N). exists news.
      split; [assumption|]. split; [simpl; lia|].
      intros m Hm. destruct (N m Hm). split; [right|]; assumption. }
    destruct (set_mem set_elem_eqb (EState neighbor) fs); simpl in E0.
    { destruct (IH _ _ _ _ E0) as (news & P & L & N). exists news.
      split; [assumption|]. split; [simpl; lia|].
      intros m Hm. destruct (N m Hm). split; [right|]; assumption. }
    destruct (path_cost problem (cost node) (state node) None neighbor) as [g|e];
      simpl in E0; [|discriminate].
    destruct (dict_get state_eqb neighbor locs) as [loc1|e]; simpl in E0;
      [|discriminate].
    destruct (goal_location locs problem) as [loc2|e]; simpl in E0; [|discriminate].
    destruct (IH _ _ _ _ E0) as (news & P & L & N).
    set (m0 := Node_init neighbor (SVal neighbor) (SNode node)
                 (PrimFloat.add g (euclidean_distance loc1 loc2))) in *.
    exists (m0 :: news).
    split; [|split].
    + apply (Permutation_trans P). simpl.
      apply Permutation_trans with (news ++ m0 :: F).
      * apply Permutation_app_head. apply heappush_Permutation.
      * apply Permutation_sym, Permutation_middle.
    + simpl. lia.
    + intros m [<- | Hm].
      * simpl. split; [left; reflexivity | apply set_mem_not_In; assumption].
      * destruct (N m Hm). split; [right|]; assumption.
Qed.

Lemma ucs_step_pops_and_pushes {C : Type} `{PyNumber C} (problem : @Problem State C) :
  pops_and_pushes problem (ucs_step problem).
Proof.
  intros cfg cfg' E0. unfold ucs_step in E0.
  destruct (heappop Node_lt (heap cfg)) as [[node F1]|] eqn:P; [|discriminate].
  destruct (set_remove set_elem_eqb (EPair (state node) (cost node)) (heap_states cfg))
    as [fs1|e]; simpl in E0; [|discriminate].
  destruct (goal_test problem (state node)); [discriminate|].
  destruct (actions problem (state node)) as [nb|e] eqn:A; simpl in E0;
    [|discriminate].
  destruct (ucs_for problem node _ nb F1 fs1) as [[F2 fs2]|e] eqn:UF;
    simpl in E0; [|discriminate].
  injection E0 as <-.
  destruct (ucs_for_pushes _ _ _ _ _ _ UF) as (news & P2 & L & N).
  exists node, F1, news, nb. simpl.
  split; [apply (heappop_Permutation _ _ P)|].
  split; [assumption|]. split; [reflexivity|].
  split; [assumption|]. split; [assumption|]. exact N.
Qed.

Lemma a_star_step_pops_and_pushes (locs : list (State * Location))
    (problem : @Problem State float) :
  pops_and_pushes problem (a_star_step locs problem).
Proof.
  intros cfg cfg' E0. unfold a_star_step in E0.
  destruct (heappop Node_lt (heap cfg)) as [[node F1]|] eqn:P; [|discriminate].
  destruct (set_remove set_elem_eqb (EPair (state node) (cost node)) (heap_states cfg))
    as [fs1|e]; simpl in E0; [|discriminate].
  destruct (goal_test problem (state node)); [discriminate|].
  destruct (actions problem (state node)) as [nb|e] eqn:A; simpl in E0;
    [|discriminate].
  destruct (a_star_for locs problem node _ nb F1 fs1) as [[F2 fs2]|e] eqn:UF;
    simpl in E0; [|discriminate].
  injection E0 as <-.
  destruct (a_star_for_pushes _ _ _ _ _ _ _ UF) as (news & P2 & L & N).
  exists node, F1, news, nb. simpl.
  split; [apply (heappop_Permutation _ _ P)|].
  split; [assumption|]. split; [reflexivity|].
  split; [assumption|]. split; [assumption|]. exact N.
Qed.

(** On a finite problem the loops of [uniform_cost_search] and of
    [a_star_search] stop: the call returns or raises. *)
Lemma uniform_cost_search_terminates {C : Type} `{PyNumber C}
    (problem : @Problem State C) (universe : list State) :
  finite_problem problem universe ->
  exists fuel r, uniform_cost_search fuel problem = Some r.
Proof.
  intros finite. unfold uniform_cost_search.
  apply (cost_loop_terminates finite). apply ucs_step_pops_and_pushes.
Qed.

Lemma a_star_search_terminates (locs : list (State * Location))
    (problem : @Problem State float) (universe : list State) :
  finite_problem problem universe ->
  exists fuel r, a_star_search locs fuel problem = Some r.
Proof.
  intros finite. unfold a_star_search.
  apply (cost_loop_terminates finite). apply a_star_step_pops_and_pushes.
Qed.
End CostOrderedShape.

(** ** The uninformed searches on finite problems *)

Section UninformedSearches.
Context {State : Type} `{PyState State}.
Context {C : Type} `{PyNumber C}.
Variable problem : @Problem State C.
Variable universe : list State.
Hypothesis finite : finite_problem problem universe.

Lemma bfs_while_loop fuel :
  breadth_first_graph_search fuel problem =
  while_loop (graph_step appendleft_all problem) fuel (graph_init problem).
Proof.
  unfold breadth_first_graph_search. apply while_loop_ext.
  intros cfg. apply bfs_step_graph_step.
Qed.

Lemma dfs_while_loop fuel :
  depth_first_graph_search fuel problem =
  while_loop (graph_step append_all problem) fuel (graph_init problem).
Proof.
  unfold depth_first_graph_search. apply while_loop_ext.
  intros cfg. apply dfs_step_graph_step.
Qed.

(** On a finite problem both uninformed searches return, a node or
    [None], within [length universe + 1] iterations. *)
Lemma uninformed_searches_return :
  exists r_bfs r_dfs, forall fuel, List.length universe < fuel ->
    breadth_first_graph_search fuel problem = Some (Ret r_bfs) /\
    depth_first_graph_search fuel problem = Some (Ret r_dfs).
Proof.
  destruct (graph_search_returns finite appendleft_all appendleft_all_Permutation)
    as (_ & r1 & _ & _ & R1).
  destruct (graph_search_returns finite append_all append_all_Permutation)
    as (_ & r2 & _ & _ & R2).
  exists r1, r2. intros fuel Hfuel.
  rewrite bfs_while_loop, dfs_while_loop. auto.
Qed.

(** On a finite problem without a reachable goal state both uninformed
    searches return [None]. *)
Lemma uninformed_searches_unreachable :
  (forall k s, walk problem k s -> goal_test problem s = false) ->
  forall fuel, List.length universe < fuel ->
    breadth_first_graph_search fuel problem = Some (Ret None) /\
    depth_first_graph_search fuel problem = Some (Ret None).
Proof.
  intros Hno fuel Hfuel. rewrite bfs_while_loop, dfs_while_loop. split.
  - apply (graph_search_unreachable finite appendleft_all
             appendleft_all_Permutation Hno). assumption.
  - apply (graph_search_unreachable finite append_all
             append_all_Permutation Hno). assumption.
Qed.
End UninformedSearches.

(** Every iteration of a traced run of the FIFO search extends the trace. *)
Lemma bfs_trace_next {State : Type} `{PyState State} {C : Type} `{PyNumber C}
    (problem : @Problem State C) cfg log cfg' :
  bfs_trace problem cfg log ->
  bfs_step problem cfg = Ret (Continue cfg') ->
  exists log', bfs_trace problem cfg' log'.
Proof.
  intros T E. pose proof E as E'. rewrite bfs_step_graph_step in E'.
  apply graph_step_Continue in E'
    as (node & F1 & fs1 & nb & news & fs2 & P & _ & _ & _ & _ & ->).
  exists (map state (rev news) ++ log).
  apply bfs_trace_step with (cfg := cfg) (node := node) (rest := F1); auto.
Qed.

Lemma dfs_trace_next {State : Type} `{PyState State} {C : Type} `{PyNumber C}
    (problem : @Problem State C) cfg log cfg' :
  dfs_trace problem cfg log ->
  dfs_step problem cfg = Ret (Continue cfg') ->
  exists log', dfs_trace problem cfg' log'.
Proof.
  intros T E. pose proof E as E'. rewrite dfs_step_graph_step in E'.
  apply graph_step_Continue in E'
    as (node & F1 & fs1 & nb & news & fs2 & P & _ & _ & _ & _ & ->).
  exists (map state news ++ log).
  apply dfs_trace_step with (cfg := cfg) (node := node) (rest := F1); auto.
Qed.

(** The traces cover the runs: every configuration a run reaches at
    the start of an iteration is traced. *)
Lemma bfs_trace_configuration_at {State : Type} `{PyState State}
    {C : Type} `{PyNumber C} (problem : @Problem State C) (k : nat) :
  forall cfg0 log0 cfg,
    bfs_trace problem cfg0 log0 ->
    configuration_at (bfs_step problem) k cfg0 = Some cfg ->
    exists log, bfs_trace problem cfg log.
Proof.
  induction k as [|k IH]; intros cfg0 log0 cfg T E; simpl in E.
  - injection E as <-. exists log0. assumption.
  - destruct (bfs_step problem cfg0) as [[r|cfg1]|e] eqn:S1; try discriminate.
    destruct (bfs_trace_next T S1) as [log1 T1].
    apply (IH cfg1 log1 cfg T1 E).
Qed.

Lemma dfs_trace_configuration_at {State : Type} `{PyState State}
    {C : Type} `{PyNumber C} (problem : @Problem State C) (k : nat) :
  forall cfg0 log0 cfg,
    dfs_trace problem cfg0 log0 ->
    configuration_at (dfs_step problem) k cfg0 = Some cfg ->
    exists log, dfs_trace problem cfg log.
Proof.
  induction k as [|k IH]; intros cfg0 log0 cfg T E; simpl in E.
  - injection E as <-. exists log0. assumption.
  - destruct (dfs_step problem cfg0) as [[r|cfg1]|e] eqn:S1; try discriminate.
    destruct (dfs_trace_next T S1) as [log1 T1].
    apply (IH cfg1 log1 cfg T1 E).
Qed.

(** * The properties of the specification *)

Local Open Scope string_scope.

(** Runs of the searches on concrete inputs are settled by evaluation,
    one conjunct after the other. *)
Ltac evaluate_run :=
  repeat match goal with
         | |- _ /\ _ => split
         | |- exists _, _ => eexists
         end;
  vm_compute; reflexivity.

(** ** Node.child_node and Node.expand *)

(** [child_node] reads [self.path_cost], an attribute no node has: once
    [problem.result] has returned, the call raises [AttributeError]. *)
Lemma child_node_raises {State : Type} `{PyState State} {C : Type} `{PyNumber C}
    (problem : @Problem State C) (n : Node) (a s' : State) :
  result problem (state n) a = Ret s' ->
  child_node n problem a = Raise AttributeError.
Proof.
  intros R. unfold child_node. rewrite R. reflexivity.
Qed.

(** C3: on the Romania problem, for the root node at Arad and its
    applicable action Sibiu, [problem.result] returns Sibiu but
    [child_node] does not return a node: it raises [AttributeError], and
    so does [expand], which calls it for the first action. *)
Theorem child_node_raises_AttributeError :
  actions romania_problem "Arad" = Ret ["Zerind"; "Sibiu"; "Timisoara"] /\
  result romania_problem "Arad" "Sibiu" = Ret "Sibiu" /\
  child_node (root_node "Arad") romania_problem "Sibiu" = Raise AttributeError /\
  expand (root_node "Arad") romania_problem = Raise AttributeError.
Proof.
  evaluate_run.
Qed.

(** ** The worked example *)

(** C6: on the Romania problem from Arad to Bucharest,
    [breadth_first_graph_search] returns a node whose [path()] visits
    Arad, Sibiu, Fagaras, Bucharest, and [uniform_cost_search] returns a
    node whose [path()] visits Arad, Sibiu, Rimnicu, Pitesti, Bucharest
    and whose cost is 418. *)
Theorem romania_bfs_and_ucs_routes :
  (exists n p,
     breadth_first_graph_search 100 romania_problem = Some (Ret (Some n)) /\
     path n = Ret p /\
     map state p = ["Arad"; "Sibiu"; "Fagaras"; "Bucharest"]) /\
  (exists n p,
     uniform_cost_search 100 romania_problem = Some (Ret (Some n)) /\
     path n = Ret p /\
     map state p = ["Arad"; "Sibiu"; "Rimnicu"; "Pitesti"; "Bucharest"] /\
     cost n = 418%Z).
Proof.
  evaluate_run.
Qed.

(** The other two outputs of the notebook: the depth-first route of
    cost 733 and the A* route. *)
Lemma romania_dfs_and_a_star_routes :
  (exists n p,
     depth_first_graph_search 100 romania_problem = Some (Ret (Some n)) /\
     path n = Ret p /\
     map state p = ["Arad"; "Timisoara"; "Lugoj"; "Mehadia"; "Drobeta";
                    "Craiova"; "Pitesti"; "Bucharest"] /\
     cost n = 733%Z) /\
  (exists n p,
     a_star_search locations 100 romania_problem_float = Some (Ret (Some n)) /\
     path n = Ret p /\
     map state p = ["Arad"; "Sibiu"; "Fagaras"; "Bucharest"]).
Proof.
  evaluate_run.
Qed.

(** ** The priority of A* *)

(** The node the [for] loop of [a_star_search] pushes for a neighbor
    gets the priority [path_cost(node.cost, ...) + h(neighbor)], where
    [node.cost] is the priority of the parent, heuristic included. *)
Lemma a_star_child_priority {State : Type} `{PyState State}
    (locs : list (State * Location)) (problem : @Problem State float)
    (node : Node) (E : list State) (neighbor : State) (F : list Node)
    (fs : list set_elem) (g h : float) :
  set_mem state_eqb neighbor E = false ->
  only_pairs fs ->
  path_cost problem (cost node) (state node) None neighbor = Ret g ->
  heuristic locs problem neighbor = Ret h ->
  a_star_for locs problem node E [neighbor] F fs =
  Ret (heappush Node_lt F
         (Node_init neighbor (SVal neighbor) (SNode node) (PrimFloat.add g h)),
       set_add set_elem_eqb (EPair neighbor (PrimFloat.add g h)) fs).
Proof.
  intros HE Hfs Hg Hh. simpl. rewrite HE, (state_not_among_pairs neighbor Hfs).
  simpl. rewrite Hg. simpl. unfold heuristic in Hh.
  destruct (dict_get state_eqb neighbor locs) as [loc1|e]; simpl in *; [|discriminate].
  destruct (goal_location locs problem) as [loc2|e]; simpl in *; [|discriminate].
  injection Hh as <-. reflexivity.
Qed.

(** C1: in the run of [a_star_search] on the Romania problem the
    returned Bucharest node was ordered in the heap under a priority
    above 837, although the path cost accumulated from the root along
    its path is 450 and the heuristic of its state is 0: the priority is
    not path cost plus heuristic, the heuristics of Sibiu and Fagaras
    are part of it. *)
Theorem a_star_priority_accumulates_heuristics :
  exists n p,
    a_star_search locations 100 romania_problem_float = Some (Ret (Some n)) /\
    path n = Ret p /\
    map state p = ["Arad"; "Sibiu"; "Fagaras"; "Bucharest"] /\
    accumulated_cost romania_problem_float (map state p) = Ret 450%float /\
    heuristic locations romania_problem_float (state n) = Ret 0%float /\
    PrimFloat.eqb (cost n) (PrimFloat.add 450 0) = false /\
    PrimFloat.ltb 837 (cost n) = true.
Proof.
  evaluate_run.
Qed.

(** C2: no road of the Romania map is shorter than the straight line
    between its ends, so the straight-line heuristic is admissible and
    consistent; [uniform_cost_search] returns a path of total path cost
    418, yet the path [a_star_search] returns has total path cost 450
    (and its last node carries a cost above 418). *)
Theorem a_star_route_costlier_than_uniform_cost :
  roads_not_shorter_than_line romania_map = true /\
  exists nu pu na pa,
    uniform_cost_search 100 romania_problem = Some (Ret (Some nu)) /\
    path nu = Ret pu /\
    accumulated_cost romania_problem (map state pu) = Ret 418%Z /\
    cost nu = 418%Z /\
    a_star_search locations 100 romania_problem_float = Some (Ret (Some na)) /\
    path na = Ret pa /\
    accumulated_cost romania_problem (map state pa) = Ret 450%Z /\
    PrimFloat.ltb 418 (cost na) = true.
Proof.
  evaluate_run.
Qed.

(** ** Duplicates in the cost-ordered frontier *)

(** C4: in the run of [uniform_cost_search] on the fork map, at the
    iteration that pops Lugoj the pair (Craiova, 300) is a member of
    [frontier_states] and the cost computed for the neighbor Craiova is
    300, yet the neighbor is not skipped: a second Craiova node is
    pushed onto the heap.  The run of [a_star_search] does the same with
    the priority it computes. *)
Theorem cost_ordered_search_pushes_recorded_pair :
  (exists cfg cfg' node rest,
     configuration_at (ucs_step (fork_problem "Mehadia")) 2
       (cost_init (fork_problem "Mehadia")) = Some cfg /\
     heappop Node_lt (heap cfg) = Some (node, rest) /\
     state node = "Lugoj" /\
     actions (fork_problem "Mehadia") "Lugoj" = Ret ["Craiova"] /\
     path_cost (fork_problem "Mehadia") (cost node) "Lugoj" None "Craiova"
       = Ret 300%Z /\
     set_mem set_elem_eqb (EPair "Craiova" 300%Z) (heap_states cfg) = true /\
     ucs_step (fork_problem "Mehadia") cfg = Ret (Continue cfg') /\
     List.length (nodes_of_state "Craiova" rest) = 1 /\
     List.length (nodes_of_state "Craiova" (heap cfg')) = 2) /\
  (exists cfg cfg' node rest g h,
     configuration_at (a_star_step locations (fork_problem_float "Mehadia")) 2
       (cost_init (fork_problem_float "Mehadia")) = Some cfg /\
     heappop Node_lt (heap cfg) = Some (node, rest) /\
     state node = "Lugoj" /\
     actions (fork_problem_float "Mehadia") "Lugoj" = Ret ["Craiova"] /\
     path_cost (fork_problem_float "Mehadia") (cost node) "Lugoj" None "Craiova"
       = Ret g /\
     heuristic locations (fork_problem_float "Mehadia") "Craiova" = Ret h /\
     set_mem set_elem_eqb (EPair "Craiova" (PrimFloat.add g h)) (heap_states cfg)
       = true /\
     a_star_step locations (fork_problem_float "Mehadia") cfg = Ret (Continue cfg') /\
     List.length (nodes_of_state "Craiova" rest) = 1 /\
     List.length (nodes_of_state "Craiova" (heap cfg')) = 2).
Proof.
  evaluate_run.
Qed.

(** C10: in the run of [uniform_cost_search] on the fork map the heap
    holds two Craiova nodes of cost 300; when the second one is popped
    its pair is no longer in [frontier_states] and
    [frontier_states.remove] raises [KeyError].  The run of
    [a_star_search] raises at the same iteration. *)
Theorem heappop_node_absent_from_frontier_states :
  (exists cfg node rest,
     configuration_at (ucs_step (fork_problem "Mehadia")) 4
       (cost_init (fork_problem "Mehadia")) = Some cfg /\
     heappop Node_lt (heap cfg) = Some (node, rest) /\
     state node = "Craiova" /\ cost node = 300%Z /\
     set_mem set_elem_eqb (EPair (state node) (cost node)) (heap_states cfg) = false /\
     ucs_step (fork_problem "Mehadia") cfg = Raise KeyError) /\
  (exists cfg node rest,
     configuration_at (a_star_step locations (fork_problem_float "Mehadia")) 4
       (cost_init (fork_problem_float "Mehadia")) = Some cfg /\
     heappop Node_lt (heap cfg) = Some (node, rest) /\
     state node = "Craiova" /\
     set_mem set_elem_eqb (EPair (state node) (cost node)) (heap_states cfg) = false /\
     a_star_step locations (fork_problem_float "Mehadia") cfg = Raise KeyError).
Proof.
  evaluate_run.
Qed.

(** ** Termination and exhaustion *)

Lemma fork_problem_finite (goal : string) :
  finite_problem (fork_problem goal) (dict_keys fork_map).
Proof.
  apply PathFinder_finite; [simpl; tauto | vm_compute; reflexivity].
Qed.

Lemma dead_end_problem_finite (goal : string) :
  finite_problem (PathFinder (C := Z) "Sibiu" goal dead_end_map)
    (dict_keys dead_end_map).
Proof.
  apply PathFinder_finite; [simpl; tauto | vm_compute; reflexivity].
Qed.

(** C7: the fork problem has five states, finite action lists and
    positive road lengths, and its goal Mehadia is reachable; on it the
    two uninformed searches return a node, but [uniform_cost_search] and
    [a_star_search] return neither a node nor [None]: they stop with
    [KeyError]. *)
Theorem cost_ordered_searches_stop_with_KeyError :
  finite_problem (fork_problem "Mehadia") (dict_keys fork_map) /\
  roads_not_shorter_than_line fork_map = true /\
  (exists n, breadth_first_graph_search 10 (fork_problem "Mehadia")
             = Some (Ret (Some n))) /\
  (exists n, depth_first_graph_search 10 (fork_problem "Mehadia")
             = Some (Ret (Some n))) /\
  uniform_cost_search 10 (fork_problem "Mehadia") = Some (Raise KeyError) /\
  a_star_search locations 10 (fork_problem_float "Mehadia") = Some (Raise KeyError).
Proof.
  split; [apply fork_problem_finite|].
  evaluate_run.
Qed.

(** C8: on the dead-end map no walk from Sibiu reaches the goal
    Mehadia; the two uninformed searches return [None], but
    [uniform_cost_search] and [a_star_search] do not: the second pop of
    Craiova raises [KeyError]. *)
Theorem unreachable_goal_raises_in_cost_ordered_searches :
  finite_problem (PathFinder (C := Z) "Sibiu" "Mehadia" dead_end_map)
    (dict_keys dead_end_map) /\
  (forall k s, walk (PathFinder (C := Z) "Sibiu" "Mehadia" dead_end_map) k s ->
     goal_test (PathFinder (C := Z) "Sibiu" "Mehadia" dead_end_map) s = false) /\
  breadth_first_graph_search 10 (PathFinder (C := Z) "Sibiu" "Mehadia" dead_end_map)
    = Some (Ret None) /\
  depth_first_graph_search 10 (PathFinder (C := Z) "Sibiu" "Mehadia" dead_end_map)
    = Some (Ret None) /\
  uniform_cost_search 10 (PathFinder (C := Z) "Sibiu" "Mehadia" dead_end_map)
    = Some (Raise KeyError) /\
  a_star_search locations 10 (PathFinder (C := float) "Sibiu" "Mehadia" dead_end_map)
    = Some (Raise KeyError).
Proof.
  split; [apply dead_end_problem_finite|].
  split.
  - intros k s W.
    pose proof (walk_in_universe (dead_end_problem_finite "Mehadia") W) as Hs.
    simpl in Hs. destruct Hs as [<- | [<- | [<- | [<- | []]]]]; reflexivity.
  - evaluate_run.
Qed.

(** ** Breadth First Search finds a route with the fewest edges *)

(** C5, amended: on a finite problem whose actions are the states they
    lead to ([problem.result(s, a)] is [a], as [finite_problem] asks and
    as in [PathFinder]) and on which some sequence of actions leads
    from the initial state to a goal state, [breadth_first_graph_search]
    returns a goal node whose [path()] follows the actions from the
    initial state and has an edge count no larger than the length of any
    sequence of actions that leads from the initial state to a goal
    state.  (The step costs play no part: this holds in particular when
    all steps have the same cost.) *)
Theorem bfs_minimal_edge_count {State : Type} `{PyState State}
    {C : Type} `{PyNumber C}
    (problem : @Problem State C) (universe : list State) :
  finite_problem problem universe ->
  (exists k g, walk problem k g /\ goal_test problem g = true) ->
  exists n p,
    (forall fuel, List.length universe < fuel ->
       breadth_first_graph_search fuel problem = Some (Ret (Some n))) /\
    goal_test problem (state n) = true /\
    path n = Ret p /\
    route problem (map state p) /\
    (exists r, map state p = (r ++ [state n])%list) /\
    forall k g, walk problem k g -> goal_test problem g = true ->
      List.length p - 1 <= k.
Proof.
  intros finite Hgoal.
  destruct (bfs_returns_shortest finite Hgoal) as (n & Hrun & Gn & Gt & Hmin).
  destruct (generated_path finite Gn) as (p & Ep & Hlen & Hroute & Hlast).
  exists n, p. split; [|split; [|split; [|split; [|split]]]]; try assumption.
  - intros fuel Hfuel. rewrite bfs_while_loop. apply Hrun. assumption.
  - intros k g W Gg. specialize (Hmin k g W Gg). lia.
Qed.

Lemma romania_problem_finite :
  finite_problem romania_problem (dict_keys romania_map).
Proof.
  apply PathFinder_finite; [simpl; tauto | vm_compute; reflexivity].
Qed.

Lemma romania_goal_reachable :
  exists k g, walk romania_problem k g /\ goal_test romania_problem g = true.
Proof.
  exists 3, "Bucharest". split; [|reflexivity].
  apply walk_S with (s := "Fagaras") (l := ["Bucharest"; "Sibiu"]) (a := "Bucharest");
    [|reflexivity | simpl; tauto | reflexivity].
  apply walk_S with (s := "Sibiu") (l := ["Arad"; "Fagaras"; "Oradea"; "Rimnicu"])
                    (a := "Fagaras");
    [|reflexivity | simpl; tauto | reflexivity].
  apply walk_S with (s := "Arad") (l := ["Zerind"; "Sibiu"; "Timisoara"]) (a := "Sibiu");
    [|reflexivity | simpl; tauto | reflexivity].
  apply (walk_O romania_problem).
Qed.

(** The theorem applied to the Romania problem from Arad to Bucharest. *)
Lemma bfs_minimal_edge_count_on_romania :
  finite_problem romania_problem (dict_keys romania_map) /\
  (exists k g, walk romania_problem k g /\ goal_test romania_problem g = true) /\
  exists n p,
    (forall fuel, List.length (dict_keys romania_map) < fuel ->
       breadth_first_graph_search fuel romania_problem = Some (Ret (Some n))) /\
    goal_test romania_problem (state n) = true /\
    path n = Ret p /\
    route romania_problem (map state p) /\
    (exists r, map state p = (r ++ [state n])%list) /\
    forall k g, walk romania_problem k g -> goal_test romania_problem g = true ->
      List.length p - 1 <= k.
Proof.
  split; [exact romania_problem_finite|].
  split; [exact romania_goal_reachable|].
  exact (bfs_minimal_edge_count romania_problem_finite romania_goal_reachable).
Defined.

(** C5, as stated, fails on [labelled_problem]: its state space is
    finite, every step costs 1 and the goal is one action away from the
    initial state, yet [breadth_first_graph_search] returns [None].  The
    search takes the action ["go"] for the neighbouring state and never
    calls [problem.result]. *)
Lemma bfs_misses_the_goal_of_labelled_problem :
  finite_state_space labelled_problem ["A"; "go"; "G"] /\
  (forall c s a s', path_cost labelled_problem c s a s' = Ret (c + 1)%Z) /\
  walk labelled_problem 1 "G" /\
  goal_test labelled_problem "G" = true /\
  forall fuel, 2 < fuel ->
    breadth_first_graph_search fuel labelled_problem = Some (Ret None).
Proof.
  split; [|split; [|split; [|split]]].
  - split.
    + simpl. tauto.
    + intros s [<- | [<- | [<- | []]]]; eexists;
        (split; [reflexivity | intros x Hx; simpl in *; tauto]).
    + intros c s l s' _ _ _. eexists. reflexivity.
  - intros c s a s'. reflexivity.
  - apply walk_S with (s := "A") (l := ["go"]) (a := "go");
      [apply (walk_O labelled_problem) | reflexivity | simpl; tauto | reflexivity].
  - reflexivity.
  - intros fuel Hfuel. unfold breadth_first_graph_search.
    apply while_loop_more with (fuel := 3); [vm_compute; reflexivity | lia].
Qed.

(** ** The frontier_states set of the uninformed searches *)

(** C9: at the start of every iteration of
    [breadth_first_graph_search] and of [depth_first_graph_search],
    [frontier_states] holds exactly the states of the nodes in the
    frontier and none of them is in [explored]; no state has been put
    into the frontier twice in the run so far; and
    [frontier_states.remove(node.state)] finds its element for the node
    the iteration pops. *)
Theorem frontier_states_mirrors_frontier {State : Type} `{PyState State}
    {C : Type} `{PyNumber C}
    (problem : @Problem State C) (cfg : graph_config) (log : list State) :
  bfs_trace problem cfg log \/ dfs_trace problem cfg log ->
  (forall s, In s (frontier_states cfg) <-> In s (map state (frontier cfg))) /\
  (forall s, In s (frontier_states cfg) -> ~ In s (explored cfg)) /\
  NoDup log /\
  (forall node rest, pop_right (frontier cfg) = Some (node, rest) ->
     exists fs1, set_remove state_eqb (state node) (frontier_states cfg) = Ret fs1).
Proof.
  intros T.
  assert (ML : mirrors cfg /\ logged cfg log).
  { destruct T as [T | T];
      [apply (bfs_trace_mirrors T) | apply (dfs_trace_mirrors T)]. }
  destruct ML as [M [L1 L2]]. pose proof M as (M1 & M2 & M3).
  split; [assumption|]. split; [assumption|]. split; [assumption|].
  intros node rest P. apply mirrors_remove with (rest := rest); assumption.
Qed.

(** The theorem applied to the second iteration of the breadth-first
    run on the Romania problem. *)
Lemma frontier_states_mirrors_frontier_on_romania :
  (bfs_trace romania_problem romania_second_iteration
     (map state (frontier romania_second_iteration) ++ ["Arad"])%list \/
   dfs_trace romania_problem romania_second_iteration
     (map state (frontier romania_second_iteration) ++ ["Arad"])%list) /\
  (forall s, In s (frontier_states romania_second_iteration) <->
             In s (map state (frontier romania_second_iteration))) /\
  (forall s, In s (frontier_states romania_second_iteration) ->
             ~ In s (explored romania_second_iteration)) /\
  NoDup (map state (frontier romania_second_iteration) ++ ["Arad"])%list /\
  (forall node rest,
     pop_right (frontier romania_second_iteration) = Some (node, rest) ->
     exists fs1, set_remove state_eqb (state node)
                   (frontier_states romania_second_iteration) = Ret fs1).
Proof.
  assert (T : bfs_trace romania_problem romania_second_iteration
                (map state (frontier romania_second_iteration) ++ ["Arad"])%list).
  { apply bfs_trace_step with (cfg := graph_init romania_problem)
                              (node := root_node "Arad") (rest := []).
    - apply (bfs_trace_init romania_problem).
    - reflexivity.
    - vm_compute. reflexivity.
    - reflexivity. }
  split; [left; exact T|].
  exact (frontier_states_mirrors_frontier (or_introl T)).
Defined.

(** * Further properties of the code *)

Local Close Scope string_scope.

(** A loop whose continuing iterations keep an invariant returns only
    what an iteration on a configuration with the invariant returns. *)
Lemma while_loop_returns {State C Config : Type}
    (step : Config -> outcome (@iteration State C Config))
    (Inv : Config -> Prop) (Q : option (@Node State C) -> Prop) :
  (forall cfg cfg', Inv cfg -> step cfg = Ret (Continue cfg') -> Inv cfg') ->
  (forall cfg r, Inv cfg -> step cfg = Ret (Return r) -> Q r) ->
  forall fuel cfg r, Inv cfg -> while_loop step fuel cfg = Some (Ret r) -> Q r.
Proof.
  intros Hstep Hret. induction fuel as [|fuel IH]; intros cfg r HI E; [discriminate|].
  simpl in E. destruct (step cfg) as [[r'|cfg']|e] eqn:S1.
  - injection E as <-. apply (Hret cfg); assumption.
  - apply (IH cfg'); [apply (Hstep cfg) | ]; assumption.
  - discriminate.
Qed.

(** ** A problem whose initial state is a goal *)

(** X1: when the initial state passes the goal test, the two
    uninformed searches and [uniform_cost_search] return the root node
    at their first iteration, without calling [actions]; its [path()] is
    the root alone and its cost is 0.  (For the cost-ordered search the
    number 0 has to be equal to itself, as every [int] and [float] is.) *)
Theorem searches_return_root_when_initial_is_goal
    {State : Type} `{PyState State} {C : Type} `{PyNumber C}
    (problem : @Problem State C) (fuel : nat) :
  goal_test problem (initial problem) = true ->
  num_eqb (num_of_int 0 : C) (num_of_int 0) = true ->
  breadth_first_graph_search (S fuel) problem
    = Some (Ret (Some (root_node (initial problem)))) /\
  depth_first_graph_search (S fuel) problem
    = Some (Ret (Some (root_node (initial problem)))) /\
  uniform_cost_search (S fuel) problem
    = Some (Ret (Some (root_node (initial problem)))) /\
  path (root_node (initial problem)) = Ret [root_node (initial problem)] /\
  cost (root_node (initial problem)) = num_of_int 0.
Proof.
  intros Hgoal Hzero.
  split; [|split; [|split; [|split; reflexivity]]].
  - unfold breadth_first_graph_search. simpl. unfold bfs_step. simpl.
    unfold set_remove, set_mem. simpl. rewrite state_eqb_refl. simpl.
    rewrite Hgoal. reflexivity.
  - unfold depth_first_graph_search. simpl. unfold dfs_step. simpl.
    unfold set_remove, set_mem. simpl. rewrite state_eqb_refl. simpl.
    rewrite Hgoal. reflexivity.
  - unfold uniform_cost_search. simpl. unfold ucs_step. simpl.
    unfold set_remove, set_mem. simpl. rewrite state_eqb_refl, Hzero. simpl.
    rewrite Hgoal. reflexivity.
Qed.

(** The theorem applied to [PathFinder("Arad", "Arad", romania_map)]. *)
Lemma searches_return_root_on_romania :
  goal_test (PathFinder (C := Z) "Arad"%string "Arad"%string romania_map) "Arad"%string
    = true /\
  num_eqb (num_of_int 0 : Z) (num_of_int 0) = true /\
  breadth_first_graph_search 1 (PathFinder (C := Z) "Arad"%string "Arad"%string romania_map)
    = Some (Ret (Some (root_node "Arad"%string))) /\
  depth_first_graph_search 1 (PathFinder (C := Z) "Arad"%string "Arad"%string romania_map)
    = Some (Ret (Some (root_node "Arad"%string))) /\
  uniform_cost_search 1 (PathFinder (C := Z) "Arad"%string "Arad"%string romania_map)
    = Some (Ret (Some (root_node "Arad"%string))) /\
  path (root_node (C := Z) "Arad"%string) = Ret [root_node "Arad"%string] /\
  cost (root_node (C := Z) "Arad"%string) = 0%Z.
Proof.
  split; [reflexivity|]. split; [reflexivity|].
  exact (@searches_return_root_when_initial_is_goal string _ Z _
           (PathFinder "Arad"%string "Arad"%string romania_map) 0 eq_refl eq_refl).
Defined.

(** X2: [a_star_search] does the same: when the initial state passes
    the goal test it returns the root node at its first iteration and
    reads no location. *)
Theorem a_star_returns_root_when_initial_is_goal
    {State : Type} `{PyState State}
    (locs : list (State * Location)) (problem : @Problem State float) (fuel : nat) :
  goal_test problem (initial problem) = true ->
  a_star_search locs (S fuel) problem
    = Some (Ret (Some (root_node (initial problem)))).
Proof.
  intros Hgoal. unfold a_star_search. simpl. unfold a_star_step. simpl.
  unfold set_remove, set_mem. simpl. rewrite state_eqb_refl. simpl.
  rewrite Hgoal. reflexivity.
Qed.

(** The theorem applied to the Romania map with no location at all. *)
Lemma a_star_returns_root_on_romania :
  goal_test (PathFinder (C := float) "Arad"%string "Arad"%string romania_map)
    "Arad"%string = true /\
  a_star_search [] 1 (PathFinder (C := float) "Arad"%string "Arad"%string romania_map)
    = Some (Ret (Some (root_node "Arad"%string))).
Proof.
  split; [reflexivity|].
  exact (@a_star_returns_root_when_initial_is_goal string _ []
           (PathFinder "Arad"%string "Arad"%string romania_map) 0 eq_refl).
Defined.

(** ** Node.expand and Node.path *)

(** X3: [expand] returns only for a state without actions, and then
    the empty list: with an action to take it raises (what
    [problem.result] raises, or else the [AttributeError] of
    [child_node]). *)
Theorem expand_returns_only_empty
    {State : Type} `{PyState State} {C : Type} `{PyNumber C}
    (problem : @Problem State C) (n : Node) (l : list Node) :
  expand n problem = Ret l <->
  l = [] /\ actions problem (state n) = Ret [].
Proof.
  unfold expand. destruct (actions problem (state n)) as [[|a acts]|e]; simpl.
  - split; [intros [= <-]; auto | intros [-> _]; reflexivity].
  - unfold child_node. destruct (result problem (state n) a) as [s'|e]; simpl;
      (split; [discriminate | intros [_ D]; discriminate]).
  - split; [discriminate | intros [_ D]; discriminate].
Qed.

Lemma last_cons_default {A : Type} (x : A) (l : list A) (d d' : A) :
  last (x :: l) d = last (x :: l) d'.
Proof.
  revert x. induction l as [|y l IH]; intros x; [reflexivity|].
  change (last (y :: l) d = last (y :: l) d'). apply IH.
Qed.

Lemma last_after {State : Type} (s s' : State) (rest : list State) :
  last (s' :: rest) s = last rest s'.
Proof.
  destruct rest as [|x rest]; [reflexivity|].
  change (last (s' :: x :: rest) s) with (last (x :: rest) s).
  apply last_cons_default.
Qed.

Lemma parent_linked_snoc {State : Type} `{PyState State} {C : Type} `{PyNumber C}
    (m : @Node State C) (rest : list Node) :
  forall first,
    parent_linked first rest ->
    parent m = SNode (last rest first) ->
    parent_linked first (rest ++ [m]).
Proof.
  induction rest as [|n rest IH]; intros first L P.
  - simpl in *. auto.
  - destruct L as [L1 L2]. change (last (n :: rest) first)
      with (match rest with [] => n | _ :: _ => last rest first end) in P.
    split; [assumption|]. change (parent_linked n (rest ++ [m])).
    apply IH; [assumption|].
    destruct rest as [|x rest]; [assumption|].
    rewrite (last_cons_default x rest n first). assumption.
Qed.

Lemma chained_path_back {State : Type} `{PyState State} {C : Type} `{PyNumber C}
    (n : @Node State C) :
  chained n ->
  exists first rest,
    path_back n = Ret (rev (first :: rest)) /\
    parent first = SNone /\ parent_linked first rest /\
    last rest first = n /\ List.length rest = depth n.
Proof.
  induction 1 as [s a c | s a p c Hp IH].
  - exists (mkNode s a SNone c), []. simpl. auto.
  - destruct IH as (first & rest & E & P0 & L & La & Len).
    exists first, (rest ++ [mkNode s a (SNode p) c]).
    cbn [path_back]. rewrite E. cbn [bind].
    split; [|split; [assumption|split; [|split]]].
    + f_equal. change (first :: rest ++ [mkNode s a (SNode p) c])
        with ((first :: rest) ++ [mkNode s a (SNode p) c]).
      rewrite rev_app_distr. reflexivity.
    + apply parent_linked_snoc; [assumption|]. simpl. rewrite La. reflexivity.
    + apply last_last.
    + rewrite length_app. simpl. lia.
Qed.

(** X4: for a node whose parent links lead node by node to a node
    without parent, [path()] returns the list of its ancestors, root
    first and the node itself last, each the parent of the next; it has
    one node more than the node has ancestors. *)
Theorem path_lists_ancestors
    {State : Type} `{PyState State} {C : Type} `{PyNumber C} (n : @Node State C) :
  chained n ->
  exists first rest,
    path n = Ret (first :: rest) /\
    parent first = SNone /\ parent_linked first rest /\
    last rest first = n /\
    List.length (first :: rest) = S (depth n).
Proof.
  intros Hn. destruct (chained_path_back Hn) as (first & rest & E & P0 & L & La & Len).
  exists first, rest. unfold path. rewrite E. cbn [bind]. rewrite rev_involutive.
  split; [reflexivity|]. split; [assumption|]. split; [assumption|].
  split; [assumption|]. simpl. rewrite Len. reflexivity.
Qed.

(** The theorem applied to the node the searches create for Sibiu. *)
Lemma path_lists_ancestors_of_sibiu :
  chained (Node_init "Sibiu"%string (SVal "Sibiu"%string)
             (SNode (root_node "Arad"%string)) 140%Z) /\
  exists first rest,
    path (Node_init "Sibiu"%string (SVal "Sibiu"%string)
            (SNode (root_node "Arad"%string)) 140%Z) = Ret (first :: rest) /\
    parent first = SNone /\ parent_linked first rest /\
    last rest first = Node_init "Sibiu"%string (SVal "Sibiu"%string)
                        (SNode (root_node "Arad"%string)) 140%Z /\
    List.length (first :: rest)
    = S (depth (Node_init "Sibiu"%string (SVal "Sibiu"%string)
                  (SNode (root_node "Arad"%string)) 140%Z)).
Proof.
  assert (Hc : chained (Node_init "Sibiu"%string (SVal "Sibiu"%string)
                          (SNode (root_node "Arad"%string)) 140%Z)).
  { apply chained_child. apply chained_root. }
  split; [exact Hc|]. exact (path_lists_ancestors Hc).
Defined.

(** ** The PathFinder problem *)

Lemma dict_get_Raise {State : Type} `{PyState State} {V : Type}
    (k : State) (d : list (State * V)) (e : exn) :
  dict_get state_eqb k d = Raise e -> e = KeyError /\ ~ In k (dict_keys d).
Proof.
  induction d as [|[k' v'] d IH]; simpl.
  - intros [= <-]. auto.
  - destruct (state_eqb k k') eqn:E; [discriminate|].
    intros Hd. destruct (IH Hd) as [-> Hn]. split; [reflexivity|].
    intros [-> | Hin]; [|auto].
    rewrite state_eqb_refl in E. discriminate.
Qed.


(** ** What the searches return *)

Section ReturnedNodes.
Context {State : Type} `{PyState State}.
Context {C : Type} `{PyNumber C}.
Variable problem : @Problem State C.

Lemma follows_actions_snoc (s' : State) (tl : list State) :
  forall s,
    follows_actions problem s tl ->
    (exists l, actions problem (last tl s) = Ret l /\ In s' l) ->
    follows_actions problem s (tl ++ [s']).
Proof.
  induction tl as [|x tl IH]; intros s F A.
  - simpl in *. auto.
  - destruct F as [F1 F2].
    change (last (x :: tl) s) with (match tl with [] => x | _ :: _ => last tl s end) in A.
    split; [assumption|]. change (follows_actions problem x (tl ++ [s'])).
    apply IH; [assumption|].
    destruct tl as [|y tl]; [assumption|].
    rewrite (last_cons_default y tl x s). assumption.
Qed.

Lemma accumulate_snoc (s' : State) (tl : list State) :
  forall (c c1 c2 : C) s,
    accumulate problem c s tl = Ret c1 ->
    path_cost problem c1 (last tl s) None s' = Ret c2 ->
    accumulate problem c s (tl ++ [s']) = Ret c2.
Proof.
  induction tl as [|x tl IH]; intros c c1 c2 s A P.
  - simpl in *. injection A as <-. rewrite P. reflexivity.
  - change (last (x :: tl) s) with (match tl with [] => x | _ :: _ => last tl s end) in P.
    simpl in A. simpl.
    destruct (path_cost problem c s None x) as [c'|e]; simpl in *; [|discriminate].
    apply IH with (c1 := c1); [assumption|].
    destruct tl as [|y tl]; [assumption|].
    rewrite (last_cons_default y tl x s). assumption.
Qed.

Lemma costed_linked (n : Node) : costed problem n -> linked problem n.
Proof.
  induction 1 as [|n l s c Hn IH A Hs P]; [apply linked_root|].
  apply linked_child with (l := l); assumption.
Qed.

Lemma linked_path_back (n : Node) :
  linked problem n ->
  exists q tl,
    path_back n = Ret q /\
    map state (rev q) = initial problem :: tl /\
    follows_actions problem (initial problem) tl /\
    last tl (initial problem) = state n.
Proof.
  induction 1 as [|n l s c Hn IH A Hs].
  - exists [root_node (initial problem)], []. simpl. auto.
  - destruct IH as (q & tl & E & M & F & La).
    exists (Node_init s (SVal s) (SNode n) c :: q), (tl ++ [s]).
    cbn [path_back Node_init]. rewrite E. cbn [bind].
    split; [reflexivity|]. split; [|split].
    + cbn [rev]. rewrite map_app, M. reflexivity.
    + apply follows_actions_snoc; [assumption|].
      rewrite La. exists l. auto.
    + apply last_last.
Qed.

Lemma costed_path_back (n : Node) :
  costed problem n ->
  exists q tl,
    path_back n = Ret q /\
    map state (rev q) = initial problem :: tl /\
    last tl (initial problem) = state n /\
    accumulate problem (num_of_int 0) (initial problem) tl = Ret (cost n).
Proof.
  induction 1 as [|n l s c Hn IH A Hs P].
  - exists [root_node (initial problem)], []. simpl. auto.
  - destruct IH as (q & tl & E & M & La & Acc).
    exists (Node_init s (SVal s) (SNode n) c :: q), (tl ++ [s]).
    cbn [path_back Node_init]. rewrite E. cbn [bind].
    split; [reflexivity|]. split; [|split].
    + cbn [rev]. rewrite map_app, M. reflexivity.
    + apply last_last.
    + apply accumulate_snoc with (c1 := cost n); [assumption|].
      rewrite La. assumption.
Qed.

(** [path()] of a node a search has created: it returns the nodes of a
    sequence of states that starts at the initial state, follows an
    action at every step and ends at the state of the node. *)
Lemma linked_path (n : Node) :
  linked problem n ->
  exists p tl,
    path n = Ret p /\
    map state p = initial problem :: tl /\
    follows_actions problem (initial problem) tl /\
    last tl (initial problem) = state n.
Proof.
  intros L. destruct (linked_path_back L) as (q & tl & E & M & F & La).
  exists (rev q), tl. unfold path. rewrite E. auto.
Qed.

Lemma costed_path (n : Node) :
  costed problem n ->
  exists p tl,
    path n = Ret p /\
    map state p = initial problem :: tl /\
    follows_actions problem (initial problem) tl /\
    last tl (initial problem) = state n /\
    accumulated_cost problem (map state p) = Ret (cost n).
Proof.
  intros Hc. destruct (costed_path_back Hc) as (q & tl & E & M & La & Acc).
  destruct (linked_path_back (costed_linked Hc)) as (q' & tl' & E' & M' & F' & _).
  rewrite E in E'. injection E' as <-. rewrite M in M'. injection M' as <-.
  exists (rev q), tl. unfold path. rewrite E. cbn [bind]. rewrite M.
  simpl. auto.
Qed.

(** The frontier of the uninformed searches holds costed nodes only. *)
Lemma graph_step_costed insert (cfg cfg' : @graph_config State C) :
  (forall news F, Permutation (insert news F) (news ++ F)) ->
  (forall n, In n (frontier cfg) -> costed problem n) ->
  graph_step insert problem cfg = Ret (Continue cfg') ->
  forall n, In n (frontier cfg') -> costed problem n.
Proof.
  intros PI Hc E0.
  apply graph_step_Continue in E0
    as (node & F1 & fs1 & nb & news & fs2 & P & R & Gt & A & NN & ->).
  pose proof (pop_right_Some _ P) as EF.
  apply new_nodes_spec in NN as (_ & _ & N3 & _).
  simpl. intros n Hn. apply (Permutation_in _ (PI news F1)) in Hn.
  apply in_app_or in Hn as [Hn | Hn].
  - destruct (N3 n Hn) as (En & Hnb & _ & _ & Pc). rewrite En.
    apply costed_child with (l := nb); try assumption.
    apply Hc. rewrite EF. apply in_or_app. right. left. reflexivity.
  - apply Hc. rewrite EF. apply in_or_app. left. assumption.
Qed.

Lemma graph_search_returns_costed insert fuel (n : Node) :
  (forall news F, Permutation (insert news F) (news ++ F)) ->
  while_loop (graph_step insert problem) fuel (graph_init problem)
    = Some (Ret (Some n)) ->
  costed problem n /\ goal_test problem (state n) = true.
Proof.
  intros PI E.
  apply (@while_loop_returns State C _ (graph_step insert problem)
           (fun cfg => forall n, In n (frontier cfg) -> costed problem n)
           (fun r => forall n, r = Some n ->
                       costed problem n /\ goal_test problem (state n) = true))
    with (fuel := fuel) (cfg := graph_init problem) (r := Some n).
  - intros cfg cfg' HI S1. apply graph_step_costed with (insert := insert) (cfg := cfg);
      assumption.
  - intros cfg r HI S1 m ->.
    apply graph_step_Return in S1 as [[_ D] | (n' & F1 & P & Gt & D)]; [discriminate|].
    injection D as <-. split; [|assumption].
    apply HI. rewrite (pop_right_Some _ P). apply in_or_app. right. left. reflexivity.
  - simpl. intros m [<- | []]. apply costed_root.
  - assumption.
  - reflexivity.
Qed.

(** The heap of [uniform_cost_search] holds costed nodes only. *)
Lemma ucs_for_costed (node : Node) (E l : list State) (nb : list State) :
  costed problem node -> actions problem (state node) = Ret l ->
  forall F fs F2 fs2,
    incl nb l ->
    (forall n, In n F -> costed problem n) ->
    ucs_for problem node E nb F fs = Ret (F2, fs2) ->
    forall n, In n F2 -> costed problem n.
Proof.
  intros Hnode A. induction nb as [|neighbor rest IH]; intros F fs F2 fs2 Hincl HF E0;
    simpl in E0.
  - injection E0 as <- <-. assumption.
  - assert (Hrest : incl rest l) by (intros x Hx; apply Hincl; right; assumption).
    destruct (negb (set_mem state_eqb neighbor E)
              && negb (set_mem set_elem_eqb (EState neighbor) fs)).
    + destruct (path_cost problem (cost node) (state node) None neighbor) as [c|e] eqn:P;
        simpl in E0; [|discriminate].
      eapply IH; [exact Hrest | | exact E0].
      intros n Hn. apply (Permutation_in _ (heappush_Permutation _ _ _)) in Hn.
      destruct Hn as [<- | Hn]; [|apply HF; assumption].
      apply costed_child with (l := l); try assumption.
      apply Hincl. left. reflexivity.
    + apply (IH _ _ _ _ Hrest HF E0).
Qed.

Lemma uniform_cost_search_returns_costed fuel (n : Node) :
  uniform_cost_search fuel problem = Some (Ret (Some n)) ->
  costed problem n /\ goal_test problem (state n) = true.
Proof.
  unfold uniform_cost_search. intros E.
  apply (@while_loop_returns State C _ (ucs_step problem)
           (fun cfg => forall n, In n (heap cfg) -> costed problem n)
           (fun r => forall n, r = Some n ->
                       costed problem n /\ goal_test problem (state n) = true))
    with (fuel := fuel) (cfg := cost_init problem) (r := Some n).
  - intros cfg cfg' HI S1. unfold ucs_step in S1.
    destruct (heappop Node_lt (heap cfg)) as [[node F1]|] eqn:P; [|discriminate].
    pose proof (heappop_Permutation _ _ P) as PP.
    destruct (set_remove set_elem_eqb (EPair (state node) (cost node)) (heap_states cfg))
      as [fs1|e]; simpl in S1; [|discriminate].
    destruct (goal_test problem (state node)); [discriminate|].
    destruct (actions problem (state node)) as [nb|e] eqn:A; simpl in S1;
      [|discriminate].
    destruct (ucs_for problem node _ nb F1 fs1) as [[F2 fs2]|e] eqn:UF;
      simpl in S1; [|discriminate].
    injection S1 as <-. simpl.
    eapply ucs_for_costed; [ | exact A | apply incl_refl | | exact UF].
    + apply HI. apply (Permutation_in _ (Permutation_sym PP)). left. reflexivity.
    + intros m Hm. apply HI. apply (Permutation_in _ (Permutation_sym PP)).
      right. assumption.
  - intros cfg r HI S1 m ->. unfold ucs_step in S1.
    destruct (heappop Node_lt (heap cfg)) as [[node F1]|] eqn:P; [|discriminate].
    pose proof (heappop_Permutation _ _ P) as PP.
    destruct (set_remove set_elem_eqb (EPair (state node) (cost node)) (heap_states cfg))
      as [fs1|e]; simpl in S1; [|discriminate].
    destruct (goal_test problem (state node)) eqn:Gt.
    + injection S1 as <-. split; [|assumption].
      apply HI. apply (Permutation_in _ (Permutation_sym PP)). left. reflexivity.
    + destruct (actions problem (state node)) as [nb|e]; simpl in S1; [|discriminate].
      destruct (ucs_for problem node _ nb F1 fs1) as [[F2 fs2]|e]; discriminate.
  - simpl. intros m [<- | []]. apply costed_root.
  - assumption.
  - reflexivity.
Qed.
End ReturnedNodes.

(** X6: whenever [breadth_first_graph_search],
    [depth_first_graph_search] or [uniform_cost_search] returns a node,
    its state passes the goal test, its [path()] starts at the initial
    state, takes one of the actions of the state it is in at every step
    and ends at the node, and the cost of the node is the cost that
    [problem.path_cost] accumulates from 0 along that path. *)
Theorem returned_node_cost_is_path_cost
    {State : Type} `{PyState State} {C : Type} `{PyNumber C}
    (problem : @Problem State C) (fuel : nat) (n : Node) :
  breadth_first_graph_search fuel problem = Some (Ret (Some n)) \/
  depth_first_graph_search fuel problem = Some (Ret (Some n)) \/
  uniform_cost_search fuel problem = Some (Ret (Some n)) ->
  goal_test problem (state n) = true /\
  exists p tl,
    path n = Ret p /\
    map state p = initial problem :: tl /\
    follows_actions problem (initial problem) tl /\
    last tl (initial problem) = state n /\
    accumulated_cost problem (map state p) = Ret (cost n).
Proof.
  intros E.
  assert (Hn : costed problem n /\ goal_test problem (state n) = true).
  { destruct E as [E | [E | E]].
    - unfold breadth_first_graph_search in E.
      rewrite (while_loop_ext _ _ (bfs_step_graph_step problem)) in E.
      apply (graph_search_returns_costed _ _ _ (@appendleft_all_Permutation _ _) E).
    - unfold depth_first_graph_search in E.
      rewrite (while_loop_ext _ _ (dfs_step_graph_step problem)) in E.
      apply (graph_search_returns_costed _ _ _ (@append_all_Permutation _ _) E).
    - apply (uniform_cost_search_returns_costed _ _ E). }
  destruct Hn as [Hc Gt]. split; [assumption|]. apply costed_path. assumption.
Qed.

(** The theorem applied to the node [uniform_cost_search] returns on
    the Romania problem. *)
Lemma returned_node_cost_is_path_cost_on_romania :
  (breadth_first_graph_search 100 romania_problem = Some (Ret (Some romania_ucs_node)) \/
   depth_first_graph_search 100 romania_problem = Some (Ret (Some romania_ucs_node)) \/
   uniform_cost_search 100 romania_problem = Some (Ret (Some romania_ucs_node))) /\
  goal_test romania_problem (state romania_ucs_node) = true /\
  exists p tl,
    path romania_ucs_node = Ret p /\
    map state p = initial romania_problem :: tl /\
    follows_actions romania_problem (initial romania_problem) tl /\
    last tl (initial romania_problem) = state romania_ucs_node /\
    accumulated_cost romania_problem (map state p) = Ret (cost romania_ucs_node).
Proof.
  assert (E : uniform_cost_search 100 romania_problem
              = Some (Ret (Some romania_ucs_node))) by (vm_compute; reflexivity).
  split; [right; right; exact E|].
  exact (returned_node_cost_is_path_cost romania_problem 100 (or_intror (or_intror E))).
Defined.

Section AStarReturns.
Context {State : Type} `{PyState State}.
Variable locs : list (State * Location).
Variable problem : @Problem State float.

Lemma a_star_for_linked (node : Node) (E l : list State) (nb : list State) :
  linked problem node -> actions problem (state node) = Ret l ->
  forall F fs F2 fs2,
    incl nb l ->
    (forall n, In n F -> linked problem n) ->
    a_star_for locs problem node E nb F fs = Ret (F2, fs2) ->
    forall n, In n F2 -> linked problem n.
Proof.
  intros Hnode A. induction nb as [|neighbor rest IH]; intros F fs F2 fs2 Hincl HF E0;
    simpl in E0.
  - injection E0 as <- <-. assumption.
  - assert (Hrest : incl rest l) by (intros x Hx; apply Hincl; right; assumption).
    destruct (negb (set_mem state_eqb neighbor E)
              && negb (set_mem set_elem_eqb (EState neighbor) fs)).
    + destruct (path_cost problem (cost node) (state node) None neighbor) as [g|e];
        simpl in E0; [|discriminate].
      destruct (dict_get state_eqb neighbor locs) as [loc1|e]; simpl in E0;
        [|discriminate].
      destruct (goal_location locs problem) as [loc2|e]; simpl in E0; [|discriminate].
      eapply IH; [exact Hrest | | exact E0].
      intros n Hn. apply (Permutation_in _ (heappush_Permutation _ _ _)) in Hn.
      destruct Hn as [<- | Hn]; [|apply HF; assumption].
      apply linked_child with (l := l); try assumption.
      apply Hincl. left. reflexivity.
    + eapply IH; [exact Hrest | exact HF | exact E0].
Qed.

Lemma a_star_search_returns_linked fuel (n : Node) :
  a_star_search locs fuel problem = Some (Ret (Some n)) ->
  linked problem n /\ goal_test problem (state n) = true.
Proof.
  unfold a_star_search. intros E.
  apply (@while_loop_returns State float _ (a_star_step locs problem)
           (fun cfg => forall n, In n (heap cfg) -> linked problem n)
           (fun r => forall n, r = Some n ->
                       linked problem n /\ goal_test problem (state n) = true))
    with (fuel := fuel) (cfg := cost_init problem) (r := Some n).
  - intros cfg cfg' HI S1. unfold a_star_step in S1.
    destruct (heappop Node_lt (heap cfg)) as [[node F1]|] eqn:P; [|discriminate].
    pose proof (heappop_Permutation _ _ P) as PP.
    destruct (set_remove set_elem_eqb (EPair (state node) (cost node)) (heap_states cfg))
      as [fs1|e]; simpl in S1; [|discriminate].
    destruct (goal_test problem (state node)); [discriminate|].
    destruct (actions problem (state node)) as [nb|e] eqn:A; simpl in S1;
      [|discriminate].
    destruct (a_star_for locs problem node _ nb F1 fs1) as [[F2 fs2]|e] eqn:UF;
      simpl in S1; [|discriminate].
    injection S1 as <-. simpl.
    eapply a_star_for_linked; [ | exact A | apply incl_refl | | exact UF].
    + apply HI. apply (Permutation_in _ (Permutation_sym PP)). left. reflexivity.
    + intros m Hm. apply HI. apply (Permutation_in _ (Permutation_sym PP)).
      right. assumption.
  - intros cfg r HI S1 m ->. unfold a_star_step in S1.
    destruct (heappop Node_lt (heap cfg)) as [[node F1]|] eqn:P; [|discriminate].
    pose proof (heappop_Permutation _ _ P) as PP.
    destruct (set_remove set_elem_eqb (EPair (state node) (cost node)) (heap_states cfg))
      as [fs1|e]; simpl in S1; [|discriminate].
    destruct (goal_test problem (state node)) eqn:Gt.
    + injection S1 as <-. split; [|assumption].
      apply HI. apply (Permutation_in _ (Permutation_sym PP)). left. reflexivity.
    + destruct (actions problem (state node)) as [nb|e]; simpl in S1; [|discriminate].
      destruct (a_star_for locs problem node _ nb F1 fs1) as [[F2 fs2]|e]; discriminate.
  - simpl. intros m [<- | []]. apply linked_root.
  - assumption.
  - reflexivity.
Qed.
End AStarReturns.

(** X7: whenever [a_star_search] returns a node, its state passes the
    goal test and its [path()] starts at the initial state, takes one of
    the actions of the state it is in at every step and ends at the
    node. *)
Theorem a_star_returns_a_route_to_a_goal
    {State : Type} `{PyState State}
    (locs : list (State * Location)) (problem : @Problem State float)
    (fuel : nat) (n : Node) :
  a_star_search locs fuel problem = Some (Ret (Some n)) ->
  goal_test problem (state n) = true /\
  exists p tl,
    path n = Ret p /\
    map state p = initial problem :: tl /\
    follows_actions problem (initial problem) tl /\
    last tl (initial problem) = state n.
Proof.
  intros E. destruct (a_star_search_returns_linked _ _ _ E) as [L Gt].
  split; [assumption|]. apply linked_path. assumption.
Qed.

(** The theorem applied to the node [a_star_search] returns on the
    Romania problem. *)
Lemma a_star_returns_a_route_on_romania :
  a_star_search locations 100 romania_problem_float
    = Some (Ret (Some romania_a_star_node)) /\
  goal_test romania_problem_float (state romania_a_star_node) = true /\
  exists p tl,
    path romania_a_star_node = Ret p /\
    map state p = initial romania_problem_float :: tl /\
    follows_actions romania_problem_float (initial romania_problem_float) tl /\
    last tl (initial romania_problem_float) = state romania_a_star_node.
Proof.
  assert (E : a_star_search locations 100 romania_problem_float
              = Some (Ret (Some romania_a_star_node))) by (vm_compute; reflexivity).
  split; [exact E|].
  exact (a_star_returns_a_route_to_a_goal locations romania_problem_float 100 E).
Defined.

(** ** The uninformed searches find a reachable goal *)

Section Completeness.
Context {State : Type} `{PyState State}.
Context {C : Type} `{PyNumber C}.
Variable problem : @Problem State C.
Variable universe : list State.
Hypothesis finite : finite_problem problem universe.

Lemma complete_invariant_init : complete_invariant problem (graph_init problem).
Proof.
  split.
  - apply graph_invariant_init. 
  - right. left. reflexivity.
  - simpl. intros s l s' [].
Qed.

Lemma graph_step_complete insert (cfg cfg' : @graph_config State C) :
  (forall news F, Permutation (insert news F) (news ++ F)) ->
  complete_invariant problem cfg ->
  graph_step insert problem cfg = Ret (Continue cfg') ->
  complete_invariant problem cfg'.
Proof.
  intros PI [GI CI CC] E0.
  destruct (graph_step_invariant finite insert PI GI E0) as [GI' _].
  apply graph_step_Continue in E0
    as (node & F1 & fs1 & nb & news & fs2 & P & R & Gt & A & NN & ->).
  pose proof (new_nodes_spec _ _ _ _ _ NN) as (N1 & N2 & N3 & N4).
  apply set_remove_Ret in R as [Rin R].
  split; simpl.
  - assumption.
  - destruct CI as [CI | CI].
    + left. apply set_add_In. right. assumption.
    + destruct (state_eq_dec (initial problem) (state node)) as [-> | Hne].
      * left. apply set_add_In. left. reflexivity.
      * right. apply N1. left. apply R. split; assumption.
  - intros s l s' Hs Al Hs'. apply set_add_In in Hs as [-> | Hs].
    + rewrite A in Al. injection Al as <-.
      destruct (N4 s' Hs'); [left | right]; assumption.
    + destruct (CC s l s' Hs Al Hs') as [Hx | Hx].
      * left. apply set_add_In. right. assumption.
      * destruct (state_eq_dec s' (state node)) as [-> | Hne].
        -- left. apply set_add_In. left. reflexivity.
        -- right. apply N1. left. apply R. split; assumption.
Qed.

(** While a state that can be reached is unexplored, the frontier is
    not empty. *)
Lemma frontier_separates (cfg : @graph_config State C) k s :
  complete_invariant problem cfg ->
  walk problem k s -> ~ In s (explored cfg) ->
  exists f, In f (frontier cfg).
Proof.
  intros [[M G X] CI CC] W. simpl in *.
  induction W as [|k s l a s' W IH A Ha R]; intros HE.
  - destruct CI as [CI | CI]; [contradiction|].
    destruct M as (_ & M2 & _). apply M2 in CI.
    apply in_map_iff in CI as (f & _ & Hf). exists f. assumption.
  - pose proof (fp_result finite) as FR.
    pose proof (walk_in_universe finite W) as Hu.
    rewrite (FR _ _ _ Hu A Ha) in R. injection R as <-.
    destruct (in_dec state_eq_dec s (explored cfg)) as [Hs | Hs].
    + destruct (CC s l a Hs A Ha) as [Hs' | Hs']; [contradiction|].
      destruct M as (_ & M2 & _). apply M2 in Hs'.
      apply in_map_iff in Hs' as (f & _ & Hf). exists f. assumption.
    + apply IH. assumption.
Qed.

Lemma graph_search_complete insert :
  (forall news F, Permutation (insert news F) (news ++ F)) ->
  (exists k g, walk problem k g /\ goal_test problem g = true) ->
  exists n,
    (forall fuel, List.length universe < fuel ->
       while_loop (graph_step insert problem) fuel (graph_init problem)
       = Some (Ret (Some n))) /\
    generated problem n /\ goal_test problem (state n) = true.
Proof.
  intros PI (k0 & g0 & W0 & G0).
  destruct (@while_loop_invariant State C _ (graph_step insert problem)
              (complete_invariant problem)
              (fun cfg => unexplored universe (explored cfg)))
    with (cfg := graph_init problem) as (cl & r & I1 & I2 & I3).
  - intros cfg HI. apply (graph_step_progress finite). apply (ci_graph HI).
  - intros cfg cfg' HI E. split.
    + apply graph_step_complete with (insert := insert) (cfg := cfg); assumption.
    + apply (graph_step_invariant finite insert PI (ci_graph HI) E).
  - apply complete_invariant_init.
  - pose proof I2 as I2'.
    apply graph_step_Return in I2' as [[Hnil _] | (n & F1 & P & Gt & ->)].
    { destruct (@frontier_separates cl k0 g0 I1 W0) as [f Hf].
      - intros Hin. destruct (gi_explored (ci_graph I1) _ Hin) as [Hng _]. congruence.
      - rewrite Hnil in Hf. contradiction. }
    exists n.
    split; [|eapply graph_step_Return_goal; [exact (ci_graph I1) | exact I2]].
    intros fuel Hfuel.
    apply while_loop_more with (fuel := S (unexplored universe [])).
    + exact I3.
    + pose proof (unexplored_le universe []). lia.
Qed.
End Completeness.

(** ** The searches do not call problem.result *)

Section ResultFree.
Context {State : Type} `{PyState State}.
Context {C : Type} `{PyNumber C}.
Variable problem : @Problem State C.

Lemma new_nodes_result_free (node : Node) (E nb : list State) :
  forall fs,
    new_nodes (actions_as_states problem) node E nb fs
    = new_nodes problem node E nb fs.
Proof.
  induction nb as [|neighbor rest IH]; intros fs; simpl; [reflexivity|].
  destruct (negb (set_mem state_eqb neighbor E)
            && negb (set_mem state_eqb neighbor fs)); [|apply IH].
  destruct (path_cost problem (cost node) (state node) None neighbor) as [c|e];
    simpl; [|reflexivity].
  rewrite IH. reflexivity.
Qed.

Lemma graph_step_result_free insert (cfg : @graph_config State C) :
  graph_step insert (actions_as_states problem) cfg = graph_step insert problem cfg.
Proof.
  unfold graph_step.
  destruct (pop_right (frontier cfg)) as [[node F1]|]; [|reflexivity].
  destruct (set_remove state_eqb (state node) (frontier_states cfg)) as [fs1|e];
    simpl; [|reflexivity].
  destruct (goal_test problem (state node)); [reflexivity|].
  destruct (actions problem (state node)) as [nb|e]; simpl; [|reflexivity].
  rewrite new_nodes_result_free. reflexivity.
Qed.

Lemma graph_search_result_free insert (fuel : nat) :
  while_loop (graph_step insert (actions_as_states problem)) fuel
    (graph_init (actions_as_states problem))
  = while_loop (graph_step insert problem) fuel (graph_init problem).
Proof.
  change (graph_init (actions_as_states problem)) with (graph_init problem).
  apply while_loop_ext. intros cfg. apply graph_step_result_free.
Qed.

Lemma ucs_for_result_free (node : Node) (E nb : list State) :
  forall F fs,
    ucs_for (actions_as_states problem) node E nb F fs
    = ucs_for problem node E nb F fs.
Proof.
  induction nb as [|neighbor rest IH]; intros F fs; simpl; [reflexivity|].
  destruct (negb (set_mem state_eqb neighbor E)
            && negb (set_mem set_elem_eqb (EState neighbor) fs)); [|apply IH].
  destruct (path_cost problem (cost node) (state node) None neighbor) as [c|e];
    simpl; [|reflexivity].
  apply IH.
Qed.

Lemma uniform_cost_search_result_free (fuel : nat) :
  uniform_cost_search fuel (actions_as_states problem)
  = uniform_cost_search fuel problem.
Proof.
  unfold uniform_cost_search.
  change (cost_init (actions_as_states problem)) with (cost_init problem).
  apply while_loop_ext. intros cfg. unfold ucs_step.
  destruct (heappop Node_lt (heap cfg)) as [[node F1]|]; [|reflexivity].
  destruct (set_remove set_elem_eqb (EPair (state node) (cost node)) (heap_states cfg))
    as [fs1|e]; simpl; [|reflexivity].
  destruct (goal_test problem (state node)); [reflexivity|].
  destruct (actions problem (state node)) as [nb|e]; simpl; [|reflexivity].
  rewrite ucs_for_result_free. reflexivity.
Qed.

Lemma finite_state_space_problem (universe : list State) :
  finite_state_space problem universe ->
  finite_problem (actions_as_states problem) universe.
Proof.
  intros [F1 F2 F3]. split; simpl; try assumption. reflexivity.
Qed.

Lemma finite_problem_state_space (universe : list State) :
  finite_problem problem universe -> finite_state_space problem universe.
Proof.
  intros [F1 F2 _ F4]. split; assumption.
Qed.

Lemma follows_actions_unsnoc (s' : State) (tl : list State) :
  forall s,
    follows_actions problem s (tl ++ [s']) ->
    follows_actions problem s tl /\
    exists l, actions problem (last tl s) = Ret l /\ In s' l.
Proof.
  induction tl as [|x tl IH]; intros s F.
  - destruct F as [A _]. split; [exact I | exact A].
  - destruct F as [A F]. destruct (IH x F) as [F' A'].
    split; [split; assumption|].
    rewrite last_after. assumption.
Qed.

(** The sequences of actions of the problem so read are the sequences
    of states each of which is among the actions of the state before. *)
Lemma walk_route (k : nat) (s : State) :
  walk (actions_as_states problem) k s ->
  exists rest,
    List.length rest = k /\ follows_actions problem (initial problem) rest /\
    last rest (initial problem) = s.
Proof.
  induction 1 as [|k s l a s' W IH A Ha R].
  - exists []. split; [reflexivity|]. split; [exact I | reflexivity].
  - destruct IH as (rest & Hlen & Hf & Hl). simpl in R. injection R as <-.
    exists (rest ++ [a]).
    split; [rewrite length_app; simpl; lia|].
    split; [|apply last_last].
    apply follows_actions_snoc; [assumption|].
    exists l. rewrite Hl. split; assumption.
Qed.

Lemma route_walk (rest : list State) :
  follows_actions problem (initial problem) rest ->
  walk (actions_as_states problem) (List.length rest) (last rest (initial problem)).
Proof.
  induction rest as [|a rest IH] using rev_ind; intros Hf.
  - apply (walk_O (actions_as_states problem)).
  - apply follows_actions_unsnoc in Hf as [Hf (l & A & Ha)].
    rewrite length_app, last_last. simpl. rewrite Nat.add_1_r.
    apply walk_S with (s := last rest (initial problem)) (l := l) (a := a);
      [apply IH; assumption | exact A | exact Ha | reflexivity].
Qed.
End ResultFree.



(** The route through Fagaras on the Romania map. *)
Lemma romania_route_through_Fagaras {C : Type} `{PyNumber C} :
  follows_actions (PathFinder (C := C) "Arad"%string "Bucharest"%string romania_map)
    "Arad"%string ["Sibiu"; "Fagaras"; "Bucharest"]%string.
Proof.
  simpl. repeat split; eexists; (split; [reflexivity | simpl; tauto]).
Qed.

(** X8: on a problem with a finite state space on which some sequence
    of states, each among the actions of the state before, leads from
    the initial state to a state that passes the goal test,
    [depth_first_graph_search] returns, within one iteration per state
    and one more, a node whose state passes the goal test and whose
    [path()] is such a sequence from the initial state to that state.
    (The search takes the actions of a state as its neighbouring states
    and never calls [problem.result], of which nothing is assumed.) *)
Theorem dfs_finds_a_route
    {State : Type} `{PyState State} {C : Type} `{PyNumber C}
    (problem : @Problem State C) (universe rest : list State) :
  finite_state_space problem universe ->
  follows_actions problem (initial problem) rest ->
  goal_test problem (last rest (initial problem)) = true ->
  exists n p tl,
    (forall fuel, List.length universe < fuel ->
       depth_first_graph_search fuel problem = Some (Ret (Some n))) /\
    goal_test problem (state n) = true /\
    path n = Ret p /\
    map state p = initial problem :: tl /\
    follows_actions problem (initial problem) tl /\
    last tl (initial problem) = state n.
Proof.
  intros finite Hf Hg.
  pose proof (finite_state_space_problem finite) as finite'.
  destruct (graph_search_complete finite' append_all (@append_all_Permutation _ _))
    as (n & Hrun & _ & Gt).
  { exists (List.length rest), (last rest (initial problem)).
    split; [apply route_walk; assumption | exact Hg]. }
  assert (Hrun' : forall fuel, List.length universe < fuel ->
            while_loop (graph_step append_all problem) fuel (graph_init problem)
            = Some (Ret (Some n))).
  { intros fuel Hfuel. rewrite <- graph_search_result_free. apply Hrun. assumption. }
  assert (Hc : costed problem n).
  { eapply graph_search_returns_costed; [apply append_all_Permutation|].
    apply (Hrun' (S (List.length universe))). lia. }
  destruct (costed_path Hc) as (p & tl & Ep & Hm & Hfp & Hl & _).
  exists n, p, tl. split; [|auto].
  intros fuel Hfuel. rewrite dfs_while_loop. apply Hrun'. assumption.
Qed.

(** The theorem applied to the Romania problem. *)
Lemma dfs_finds_a_route_on_romania :
  finite_state_space romania_problem (dict_keys romania_map) /\
  exists n p tl,
    (forall fuel, List.length (dict_keys romania_map) < fuel ->
       depth_first_graph_search fuel romania_problem = Some (Ret (Some n))) /\
    goal_test romania_problem (state n) = true /\
    path n = Ret p /\
    map state p = initial romania_problem :: tl /\
    follows_actions romania_problem (initial romania_problem) tl /\
    last tl (initial romania_problem) = state n.
Proof.
  pose proof (finite_problem_state_space romania_problem_finite) as F.
  split; [exact F|].
  exact (@dfs_finds_a_route string _ Z _ romania_problem (dict_keys romania_map)
           ["Sibiu"; "Fagaras"; "Bucharest"]%string F
           romania_route_through_Fagaras eq_refl).
Defined.

(** X9: on a problem with a finite state space the two uninformed
    searches return within one iteration per state and one more, and
    each returns [None] exactly when no sequence of states, each among
    the actions of the state before, leads from the initial state to a
    state that passes the goal test.  (The searches take the actions
    of a state as its neighbouring states and never call
    [problem.result], of which nothing is assumed.) *)
Theorem uninformed_searches_return_None_iff_unreachable
    {State : Type} `{PyState State} {C : Type} `{PyNumber C}
    (problem : @Problem State C) (universe : list State) :
  finite_state_space problem universe ->
  exists r_bfs r_dfs,
    (forall fuel, List.length universe < fuel ->
       breadth_first_graph_search fuel problem = Some (Ret r_bfs) /\
       depth_first_graph_search fuel problem = Some (Ret r_dfs)) /\
    (r_bfs = None <->
     forall rest, follows_actions problem (initial problem) rest ->
       goal_test problem (last rest (initial problem)) = false) /\
    (r_dfs = None <->
     forall rest, follows_actions problem (initial problem) rest ->
       goal_test problem (last rest (initial problem)) = false).
Proof.
  intros finite.
  pose proof (finite_state_space_problem finite) as finite'.
  assert (G : forall insert,
            (forall news F, Permutation (insert news F) (news ++ F)) ->
            exists r,
              (forall fuel, List.length universe < fuel ->
                 while_loop (graph_step insert problem) fuel (graph_init problem)
                 = Some (Ret r)) /\
              (r = None <->
               forall rest, follows_actions problem (initial problem) rest ->
                 goal_test problem (last rest (initial problem)) = false)).
  { intros insert PI.
    destruct (graph_search_returns finite' insert PI) as (_ & r & _ & _ & R).
    assert (R' : forall fuel, List.length universe < fuel ->
              while_loop (graph_step insert problem) fuel (graph_init problem)
              = Some (Ret r)).
    { intros fuel Hfuel. rewrite <- graph_search_result_free. apply R. assumption. }
    exists r. split; [exact R'|]. split.
    - intros -> rest Hf.
      destruct (goal_test problem (last rest (initial problem))) eqn:Gs; [|reflexivity].
      destruct (graph_search_complete finite' insert PI) as (n & Rn & _).
      { exists (List.length rest), (last rest (initial problem)).
        split; [apply route_walk; assumption | exact Gs]. }
      specialize (R (S (List.length universe)) (Nat.lt_succ_diag_r _)).
      specialize (Rn (S (List.length universe)) (Nat.lt_succ_diag_r _)).
      rewrite R in Rn. discriminate.
    - intros Hno.
      assert (Hno' : forall k s, walk (actions_as_states problem) k s ->
                goal_test (actions_as_states problem) s = false).
      { intros k s W. apply walk_route in W as (rest & _ & Hf & <-).
        apply Hno. assumption. }
      pose proof (graph_search_unreachable finite' insert PI Hno'
                    (Nat.lt_succ_diag_r (List.length universe))) as R0.
      specialize (R (S (List.length universe)) (Nat.lt_succ_diag_r _)).
      rewrite R in R0. injection R0 as ->. reflexivity. }
  destruct (G appendleft_all (@appendleft_all_Permutation _ _)) as (r1 & R1 & I1).
  destruct (G append_all (@append_all_Permutation _ _)) as (r2 & R2 & I2).
  exists r1, r2. split; [|split; assumption].
  intros fuel Hfuel. rewrite bfs_while_loop, dfs_while_loop. auto.
Qed.

(** The theorem applied to the dead-end map, on which Mehadia cannot
    be reached. *)
Lemma uninformed_searches_return_None_on_dead_end :
  finite_state_space (PathFinder (C := Z) "Sibiu"%string "Mehadia"%string dead_end_map)
    (dict_keys dead_end_map) /\
  exists r_bfs r_dfs,
    (forall fuel, List.length (dict_keys dead_end_map) < fuel ->
       breadth_first_graph_search fuel
         (PathFinder (C := Z) "Sibiu"%string "Mehadia"%string dead_end_map)
       = Some (Ret r_bfs) /\
       depth_first_graph_search fuel
         (PathFinder (C := Z) "Sibiu"%string "Mehadia"%string dead_end_map)
       = Some (Ret r_dfs)) /\
    (r_bfs = None <->
     forall rest,
       follows_actions (PathFinder (C := Z) "Sibiu"%string "Mehadia"%string dead_end_map)
         "Sibiu"%string rest ->
       goal_test (PathFinder (C := Z) "Sibiu"%string "Mehadia"%string dead_end_map)
         (last rest "Sibiu"%string) = false) /\
    (r_dfs = None <->
     forall rest,
       follows_actions (PathFinder (C := Z) "Sibiu"%string "Mehadia"%string dead_end_map)
         "Sibiu"%string rest ->
       goal_test (PathFinder (C := Z) "Sibiu"%string "Mehadia"%string dead_end_map)
         (last rest "Sibiu"%string) = false).
Proof.
  pose proof (finite_problem_state_space (dead_end_problem_finite "Mehadia"%string))
    as F.
  split; [exact F|].
  exact (uninformed_searches_return_None_iff_unreachable F).
Defined.

(** ** Problems that inherit path_cost *)

Lemma costed_unit_depth {State : Type} `{PyState State}
    (problem : @Problem State Z) (n : Node) :
  (forall c s a s',
     path_cost problem c s a s'
     = path_cost (Problem_base (initial problem) (goal problem)) c s a s') ->
  costed problem n -> cost n = Z.of_nat (depth n).
Proof.
  intros Hpc. induction 1 as [|n l s c Hn IH A Hs P]; [reflexivity|].
  rewrite Hpc in P. simpl in P. injection P as <-.
  cbn [cost depth Node_init]. rewrite IH. lia.
Qed.

(** X10: on a problem with a finite state space that inherits
    [path_cost] from the base class (every step costs 1) and on which
    some sequence of states, each among the actions of the state
    before, leads from the initial state to a state that passes the
    goal test, [breadth_first_graph_search] returns a goal node whose
    cost is the edge count of its path and is no larger than the
    length of any such sequence.  (Nothing is assumed of
    [problem.result], which the search never calls.) *)
Theorem bfs_cost_is_minimal_under_inherited_path_cost
    {State : Type} `{PyState State}
    (problem : @Problem State Z) (universe route0 : list State) :
  finite_state_space problem universe ->
  (forall c s a s',
     path_cost problem c s a s'
     = path_cost (Problem_base (initial problem) (goal problem)) c s a s') ->
  follows_actions problem (initial problem) route0 ->
  goal_test problem (last route0 (initial problem)) = true ->
  exists n,
    (forall fuel, List.length universe < fuel ->
       breadth_first_graph_search fuel problem = Some (Ret (Some n))) /\
    goal_test problem (state n) = true /\
    cost n = Z.of_nat (depth n) /\
    forall rest, follows_actions problem (initial problem) rest ->
      goal_test problem (last rest (initial problem)) = true ->
      (cost n <= Z.of_nat (List.length rest))%Z.
Proof.
  intros finite Hpc Hf0 Hg0.
  pose proof (finite_state_space_problem finite) as finite'.
  destruct (bfs_returns_shortest finite') as (n & Hrun & _ & Gt & Hmin).
  { exists (List.length route0), (last route0 (initial problem)).
    split; [apply route_walk; assumption | exact Hg0]. }
  assert (Hrun' : forall fuel, List.length universe < fuel ->
            while_loop (graph_step appendleft_all problem) fuel (graph_init problem)
            = Some (Ret (Some n))).
  { intros fuel Hfuel. rewrite <- graph_search_result_free. apply Hrun. assumption. }
  assert (Hc : costed problem n).
  { eapply graph_search_returns_costed; [apply appendleft_all_Permutation|].
    apply (Hrun' (S (List.length universe))). lia. }
  pose proof (costed_unit_depth Hpc Hc) as Hd.
  exists n. split; [|split; [exact Gt|split; [assumption|]]].
  - intros fuel Hfuel. rewrite bfs_while_loop. apply Hrun'. assumption.
  - intros rest Hf Hg.
    pose proof (Hmin (List.length rest) (last rest (initial problem))
                  (route_walk problem rest Hf) Hg) as Hk.
    lia.
Qed.

Lemma with_inherited_path_cost_finite {State : Type} `{PyState State}
    {C : Type} `{PyNumber C} (problem : @Problem State C) (universe : list State) :
  finite_state_space problem universe ->
  finite_state_space (with_inherited_path_cost problem) universe.
Proof.
  intros [F1 F2 F3]. split; simpl; try assumption.
  intros c s l s' _ _ _. eexists. reflexivity.
Qed.

(** The theorem applied to the Romania map with unit step costs. *)
Lemma bfs_cost_is_minimal_on_unit_cost_romania :
  finite_state_space romania_unit_cost_problem (dict_keys romania_map) /\
  (forall c s a s',
     path_cost romania_unit_cost_problem c s a s'
     = path_cost (Problem_base (initial romania_unit_cost_problem)
                    (goal romania_unit_cost_problem)) c s a s') /\
  exists n,
    (forall fuel, List.length (dict_keys romania_map) < fuel ->
       breadth_first_graph_search fuel romania_unit_cost_problem
       = Some (Ret (Some n))) /\
    goal_test romania_unit_cost_problem (state n) = true /\
    cost n = Z.of_nat (depth n) /\
    forall rest,
      follows_actions romania_unit_cost_problem
        (initial romania_unit_cost_problem) rest ->
      goal_test romania_unit_cost_problem
        (last rest (initial romania_unit_cost_problem)) = true ->
      (cost n <= Z.of_nat (List.length rest))%Z.
Proof.
  assert (F : finite_state_space romania_unit_cost_problem (dict_keys romania_map))
    by (apply with_inherited_path_cost_finite, finite_problem_state_space,
          romania_problem_finite).
  assert (P : forall c s a s',
            path_cost romania_unit_cost_problem c s a s'
            = path_cost (Problem_base (initial romania_unit_cost_problem)
                           (goal romania_unit_cost_problem)) c s a s')
    by (intros; reflexivity).
  split; [exact F|]. split; [exact P|].
  apply (@bfs_cost_is_minimal_under_inherited_path_cost string _
           romania_unit_cost_problem (dict_keys romania_map)
           ["Sibiu"; "Fagaras"; "Bucharest"]%string F P).
  - simpl. repeat split; eexists; (split; [reflexivity | simpl; tauto]).
  - reflexivity.
Defined.

(** ** What the cost-ordered searches can raise *)

(** A loop whose continuing iterations keep an invariant and decrease a
    measure stops, and raises only what an iteration on a configuration
    with the invariant raises. *)
Lemma while_loop_terminates_raising {State C Config : Type}
    (step : Config -> outcome (@iteration State C Config))
    (Inv : Config -> Prop) (mu : Config -> nat) (P : exn -> Prop) :
  (forall cfg cfg', Inv cfg -> step cfg = Ret (Continue cfg') ->
     Inv cfg' /\ mu cfg' < mu cfg) ->
  (forall cfg e, Inv cfg -> step cfg = Raise e -> P e) ->
  forall cfg, Inv cfg ->
  exists r, while_loop step (S (mu cfg)) cfg = Some r /\
            forall e, r = Raise e -> P e.
Proof.
  intros Hstep Hraise.
  assert (G : forall k cfg, mu cfg < k -> Inv cfg ->
            exists r, while_loop step k cfg = Some r /\ forall e, r = Raise e -> P e).
  { induction k as [|k IH]; intros cfg Hk HI; [lia|]. simpl.
    destruct (step cfg) as [[r|cfg']|e] eqn:E.
    - eexists. split; [reflexivity | discriminate].
    - destruct (Hstep cfg cfg' HI E) as [HI' Hmu]. apply IH; [lia | assumption].
    - eexists. split; [reflexivity|]. intros e' [= <-]. apply (Hraise cfg); assumption. }
  intros cfg HI. apply G; [lia | assumption].
Qed.

Section CostOrderedRaises.
Context {State : Type} `{PyState State}.

Lemma ucs_for_total {C : Type} `{PyNumber C} (problem : @Problem State C)
    (node : Node) (E nb : list State) :
  (forall s', In s' nb ->
     exists c', path_cost problem (cost node) (state node) None s' = Ret c') ->
  forall F fs, exists F2 fs2, ucs_for problem node E nb F fs = Ret (F2, fs2).
Proof.
  induction nb as [|neighbor rest IH]; intros Hpc F fs; simpl.
  - eexists. eexists. reflexivity.
  - assert (Hrest : forall s', In s' rest ->
              exists c', path_cost problem (cost node) (state node) None s' = Ret c')
      by (intros s' Hs'; apply Hpc; right; assumption).
    destruct (negb (set_mem state_eqb neighbor E)
              && negb (set_mem set_elem_eqb (EState neighbor) fs));
      [|apply IH; assumption].
    destruct (Hpc neighbor (or_introl eq_refl)) as [c' ->]. simpl.
    apply IH. assumption.
Qed.

End CostOrderedRaises.

Lemma ucs_loop_stops {State : Type} `{PyState State} {C : Type} `{PyNumber C}
    (problem : @Problem State C) (universe : list State) :
  finite_problem problem universe ->
  exists fuel r,
    uniform_cost_search fuel problem = Some r /\
    forall e, r = Raise e -> e = KeyError.
Proof.
  intros finite. unfold uniform_cost_search.
  destruct (@while_loop_terminates_raising State C _ (ucs_step problem)
              (fun cfg => forall n, In n (heap cfg) -> In (state n) universe)
              (fun cfg => potential (S (degree problem universe)) universe
                            (settled cfg) (heap cfg))
              (fun e => e = KeyError))
    with (cfg := cost_init problem) as (r & Hr & He).
  - intros cfg cfg' HI E.
    eapply cost_step_decreases with (step := ucs_step problem);
      [exact finite | apply ucs_step_pops_and_pushes | exact HI | exact E].
  - intros cfg e HI E. unfold ucs_step in E.
    destruct (heappop Node_lt (heap cfg)) as [[node F1]|] eqn:P; [|discriminate].
    pose proof (heappop_Permutation _ _ P) as PP.
    unfold set_remove in E.
    destruct (set_mem set_elem_eqb (EPair (state node) (cost node)) (heap_states cfg));
      simpl in E; [|injection E as <-; reflexivity].
    destruct (goal_test problem (state node)); [discriminate|].
    assert (Hu : In (state node) universe).
    { apply HI. apply (Permutation_in _ (Permutation_sym PP)). left. reflexivity. }
    pose proof (fp_actions finite) as FA. pose proof (fp_path_cost finite) as FP.
    destruct (FA _ Hu) as (nb & A & _). rewrite A in E. simpl in E.
    match type of E with
    | context [ucs_for problem node ?E1 nb ?F ?fs] =>
        destruct (@ucs_for_total State _ C _ problem node E1 nb
                    (fun s' Hs' => FP (cost node) (state node) nb s' Hu A Hs') F fs)
          as (F2 & fs2 & U)
    end.
    rewrite U in E. discriminate.
  - simpl. intros n [<- | []]. apply (fp_initial finite).
  - eexists. exists r. split; [exact Hr | exact He].
Qed.




Lemma ucs_loop_stops_state_space {State : Type} `{PyState State}
    {C : Type} `{PyNumber C} (problem : @Problem State C) (universe : list State) :
  finite_state_space problem universe ->
  exists fuel r,
    uniform_cost_search fuel problem = Some r /\
    forall e, r = Raise e -> e = KeyError.
Proof.
  intros finite.
  destruct (ucs_loop_stops (finite_state_space_problem finite)) as (fuel & r & Hrun & He).
  rewrite uniform_cost_search_result_free in Hrun.
  exists fuel, r. split; assumption.
Qed.




(** ** When [frontier_states.remove] cannot fail *)

Section DistinctRuns.
Context {State : Type} `{PyState State}.
Context {C : Type} `{PyNumber C}.
Hypothesis num_eqb_eq : forall x y : C, num_eqb x y = true <-> x = y.

Lemma set_elem_eqb_eq (a b : @set_elem State C) :
  set_elem_eqb a b = true <-> a = b.
Proof.
  destruct a as [x|x c], b as [y|y d]; simpl.
  - rewrite state_eqb_eq. split; congruence.
  - split; discriminate.
  - split; discriminate.
  - rewrite andb_true_iff, state_eqb_eq, num_eqb_eq. split.
    + intros [-> ->]. reflexivity.
    + intros [= -> ->]. split; reflexivity.
Qed.

Lemma elem_mem_In (e : @set_elem State C) (fs : list set_elem) :
  set_mem set_elem_eqb e fs = true <-> In e fs.
Proof.
  unfold set_mem. rewrite existsb_exists. split.
  - intros [y [Hy Heq]]. apply set_elem_eqb_eq in Heq. subst. assumption.
  - intros Hin. exists e. split; [assumption | apply set_elem_eqb_eq; reflexivity].
Qed.

Lemma elem_add_In (e x : @set_elem State C) (fs : list set_elem) :
  In e (set_add set_elem_eqb x fs) <-> e = x \/ In e fs.
Proof.
  unfold set_add. destruct (set_mem set_elem_eqb x fs) eqn:E.
  - apply elem_mem_In in E. split; [tauto | intros [-> | ?]; assumption].
  - simpl. split; intros [? | ?]; auto.
Qed.

Lemma elem_remove_Ret (x : @set_elem State C) (fs fs1 : list set_elem) :
  set_remove set_elem_eqb x fs = Ret fs1 ->
  forall e, In e fs1 <-> In e fs /\ e <> x.
Proof.
  unfold set_remove. destruct (set_mem set_elem_eqb x fs); [|discriminate].
  intros [= <-] e. rewrite filter_In. split; intros [He Hne]; split; try assumption.
  - intros ->. rewrite (proj2 (set_elem_eqb_eq x x) eq_refl) in Hne. discriminate.
  - destruct (set_elem_eqb x e) eqn:E'; [|reflexivity].
    apply set_elem_eqb_eq in E'. congruence.
Qed.

Lemma ucs_for_mirror (problem : @Problem State C) (node : Node) (E nb : list State) :
  forall F fs F2 fs2,
    (forall e, In e fs <-> In e (pairs F)) ->
    ucs_for problem node E nb F fs = Ret (F2, fs2) ->
    forall e, In e fs2 <-> In e (pairs F2).
Proof.
  induction nb as [|neighbor rest IH]; intros F fs F2 fs2 Hm E0; simpl in E0.
  - injection E0 as <- <-. assumption.
  - destruct (negb (set_mem state_eqb neighbor E)
              && negb (set_mem set_elem_eqb (EState neighbor) fs));
      [|eapply IH; [exact Hm | exact E0]].
    destruct (path_cost problem (cost node) (state node) None neighbor) as [c|e'];
      simpl in E0; [|discriminate].
    eapply IH; [|exact E0].
    intros e. rewrite elem_add_In, Hm. unfold pairs. split.
    + intros Hin.
      apply (Permutation_in _ (Permutation_map _
               (Permutation_sym (heappush_Permutation Node_lt F _)))).
      simpl. destruct Hin as [-> | Hin]; [left; reflexivity | right; assumption].
    + intros Hin.
      apply (Permutation_in _ (Permutation_map _ (heappush_Permutation Node_lt F _)))
        in Hin.
      simpl in Hin. destruct Hin as [<- | Hin]; [left; reflexivity | right; assumption].
Qed.

Lemma ucs_step_mirror (problem : @Problem State C) (cfg cfg' : @cost_config State C) :
  (forall e, In e (heap_states cfg) <-> In e (pairs (heap cfg))) ->
  NoDup (pairs (heap cfg)) ->
  ucs_step problem cfg = Ret (Continue cfg') ->
  forall e, In e (heap_states cfg') <-> In e (pairs (heap cfg')).
Proof.
  intros Hm Hnd E0. unfold ucs_step in E0.
  destruct (heappop Node_lt (heap cfg)) as [[node F1]|] eqn:P; [|discriminate].
  pose proof (heappop_Permutation _ _ P) as PP.
  destruct (set_remove set_elem_eqb (EPair (state node) (cost node)) (heap_states cfg))
    as [fs1|e1] eqn:R; simpl in E0; [|discriminate].
  destruct (goal_test problem (state node)); [discriminate|].
  destruct (actions problem (state node)) as [nb|e2]; simpl in E0; [|discriminate].
  match type of E0 with
  | context [ucs_for problem node ?E1 nb F1 fs1] =>
      destruct (ucs_for problem node E1 nb F1 fs1) as [[F2 fs2]|e3] eqn:U
  end; simpl in E0; [|discriminate].
  injection E0 as <-. simpl.
  eapply ucs_for_mirror; [|exact U].
  pose proof (Permutation_map (fun n => EPair (state n) (cost n)) PP) as PM.
  fold (pairs (heap cfg)) in PM. simpl in PM.
  pose proof (Permutation_NoDup PM Hnd) as Hnd'.
  apply NoDup_cons_iff in Hnd' as [Hnot _].
  intros e. rewrite (elem_remove_Ret _ _ R e), Hm. split.
  - intros [Hin Hne]. apply (Permutation_in _ PM) in Hin.
    destruct Hin as [<- | Hin]; [congruence | assumption].
  - intros Hin. split.
    + apply (Permutation_in _ (Permutation_sym PM)). right. assumption.
    + intros ->. apply Hnot. assumption.
Qed.

Lemma distinct_run_mirror (problem : @Problem State C) (cfg : @cost_config State C) :
  distinct_run problem cfg ->
  forall e, In e (heap_states cfg) <-> In e (pairs (heap cfg)).
Proof.
  induction 1 as [|cfg cfg' _ IH Hnd E0].
  - intros e. simpl. tauto.
  - eapply ucs_step_mirror; [exact IH | exact Hnd | exact E0].
Qed.
End DistinctRuns.

(** X13: while no two nodes of the frontier of [uniform_cost_search]
    have carried the same state with the same cost, [frontier_states]
    holds exactly the [(state, cost)] tuples of the frontier's nodes,
    so [frontier_states.remove] of the popped node's tuple succeeds
    and the iteration does not raise [KeyError] there.  Costs are
    compared by an equality that holds of equal costs only, as that of
    [int] does. *)
Theorem frontier_states_remove_succeeds_while_pairs_distinct
    {State : Type} `{PyState State} {C : Type} `{PyNumber C}
    (problem : @Problem State C) (cfg : @cost_config State C) :
  (forall x y : C, num_eqb x y = true <-> x = y) ->
  distinct_run problem cfg ->
  (forall e, In e (heap_states cfg) <-> In e (pairs (heap cfg))) /\
  forall node rest,
    heappop Node_lt (heap cfg) = Some (node, rest) ->
    exists fs1,
      set_remove set_elem_eqb (EPair (state node) (cost node)) (heap_states cfg)
      = Ret fs1.
Proof.
  intros Heq Hrun.
  pose proof (distinct_run_mirror Heq Hrun) as Hm.
  split; [exact Hm|].
  intros node rest P. unfold set_remove.
  assert (Hin : In (EPair (state node) (cost node)) (heap_states cfg)).
  { apply Hm. unfold pairs.
    apply (in_map (fun n => EPair (state n) (cost n))).
    apply (Permutation_in _ (Permutation_sym (heappop_Permutation _ _ P))).
    left. reflexivity. }
  apply (elem_mem_In Heq) in Hin. rewrite Hin. eexists. reflexivity.
Qed.

(** The theorem applied to the second iteration of the search on the
    Romania problem, whose frontier holds Zerind, Sibiu and Timisoara. *)
Lemma frontier_states_remove_succeeds_on_romania :
  (forall x y : Z, num_eqb x y = true <-> x = y) /\
  distinct_run romania_problem romania_ucs_second_iteration /\
  (forall e, In e (heap_states romania_ucs_second_iteration)
             <-> In e (pairs (heap romania_ucs_second_iteration))) /\
  forall node rest,
    heappop Node_lt (heap romania_ucs_second_iteration) = Some (node, rest) ->
    exists fs1,
      set_remove set_elem_eqb (EPair (state node) (cost node))
        (heap_states romania_ucs_second_iteration) = Ret fs1.
Proof.
  assert (Heq : forall x y : Z, num_eqb x y = true <-> x = y)
    by (intros x y; apply Z.eqb_eq).
  assert (Hrun : distinct_run romania_problem romania_ucs_second_iteration).
  { apply distinct_step with (cfg := cost_init romania_problem).
    - apply distinct_init.
    - simpl. constructor; [intros [] | constructor].
    - vm_compute. reflexivity. }
  split; [exact Heq|]. split; [exact Hrun|].
  exact (frontier_states_remove_succeeds_while_pairs_distinct Heq Hrun).
Defined.

(** ** A* Search without a location *)

(** X14: [a_star_search] reads [locations[neighbor]] and
    [locations[problem.goal]] for the first neighbor of the initial
    state; when one of them is missing (a goal that is not on the map,
    or the default goal [None]) the call raises [KeyError] at its
    first iteration, once [path_cost] has returned. *)
Theorem a_star_raises_KeyError_without_location
    {State : Type} `{PyState State}
    (locs : list (State * Location)) (problem : @Problem State float)
    (fuel : nat) (neighbor : State) (rest : list State) (g : float) :
  goal_test problem (initial problem) = false ->
  actions problem (initial problem) = Ret (neighbor :: rest) ->
  neighbor <> initial problem ->
  path_cost problem (num_of_int 0) (initial problem) None neighbor = Ret g ->
  (forall h, heuristic locs problem neighbor <> Ret h) ->
  a_star_search locs (S fuel) problem = Some (Raise KeyError).
Proof.
  intros Hgoal Hact Hne Hpc Hh. unfold a_star_search. simpl. unfold a_star_step. simpl.
  unfold set_remove, set_mem. simpl. rewrite state_eqb_refl. simpl.
  rewrite Hgoal, Hact. simpl.
  unfold set_add, set_mem. simpl.
  assert (Hn : state_eqb neighbor (initial problem) = false).
  { destruct (state_eqb neighbor (initial problem)) eqn:E; [|reflexivity].
    apply state_eqb_eq in E. contradiction. }
  rewrite Hn. simpl. simpl in Hpc. rewrite Hpc. simpl.
  unfold heuristic in Hh.
  destruct (dict_get state_eqb neighbor locs) as [loc1|e1] eqn:D1; simpl in *.
  - destruct (goal_location locs problem) as [loc2|e2] eqn:D2; simpl in *.
    + exfalso. apply (Hh _ eq_refl).
    + unfold goal_location in D2. destruct (goal problem) as [goal0|].
      * apply dict_get_Raise in D2 as [-> _]. reflexivity.
      * injection D2 as <-. reflexivity.
  - apply dict_get_Raise in D1 as [-> _]. reflexivity.
Qed.

(** The theorem applied to the Romania map and the notebook's locations
    with a goal that is not on the map. *)
Lemma a_star_raises_KeyError_for_goal_off_the_map :
  a_star_search locations 1
    (PathFinder (C := float) "Arad"%string "Atlantis"%string romania_map)
  = Some (Raise KeyError).
Proof.
  apply (@a_star_raises_KeyError_without_location string _ locations
           (PathFinder "Arad"%string "Atlantis"%string romania_map) 0
           "Zerind"%string ["Sibiu"%string; "Timisoara"%string]
           (PrimFloat.add (float_of_int 0) (float_of_int 75))).
  - reflexivity.
  - reflexivity.
  - discriminate.
  - reflexivity.
  - intros h. vm_compute. discriminate.
Defined.

(** ** heapq keeps its invariant *)

Lemma half_spec (n : nat) : 2 * (n / 2) <= n < 2 * (n / 2) + 2.
Proof.
  pose proof (Nat.div_mod_eq n 2) as E. pose proof (Nat.mod_upper_bound n 2) as U.
  lia.
Qed.

Section HeapOrderFacts.
Context {A : Type}.
Variable key : A -> Z.
Variable lt : A -> A -> bool.
Hypothesis lt_key : forall x y, lt x y = (key x <? key y)%Z.

Lemma nth_list_set_same (heap : list A) (pos : nat) (item d : A) :
  pos < List.length heap -> nth pos (list_set heap pos item) d = item.
Proof.
  revert pos. induction heap as [|x t IH]; intros [|pos] Hpos; simpl in *;
    try lia; [reflexivity|].
  apply IH. lia.
Qed.

Lemma heap_ordered_nth (d : A) (heap : list A) :
  heap_ordered key heap <-> ordered_nth key d heap.
Proof.
  unfold heap_ordered, ordered_nth. split.
  - intros Ho k Hk. pose proof (half_spec (k - 1)) as Hh.
    apply (Ho k); [lia | |]; apply nth_error_nth'; lia.
  - intros Ho k x p Hk Ex Ep.
    assert (Hlen : k < List.length heap)
      by (apply nth_error_Some; rewrite Ex; discriminate).
    rewrite <- (nth_error_nth _ _ d Ex), <- (nth_error_nth _ _ d Ep).
    apply Ho. lia.
Qed.

(** The item at the root of a heap is a least one. *)
Lemma ordered_nth_root (d : A) (heap : list A) :
  ordered_nth key d heap ->
  forall k, k < List.length heap -> (key (nth 0 heap d) <= key (nth k heap d))%Z.
Proof.
  intros Ho k. induction k as [k IH] using lt_wf_ind. intros Hk.
  destruct (Nat.eq_dec k 0) as [-> | Hne]; [lia|].
  pose proof (half_spec (k - 1)) as Hh.
  assert (Hp : (k - 1) / 2 < k) by lia.
  pose proof (IH _ Hp ltac:(lia)) as H1.
  pose proof (Ho k ltac:(lia)) as H2. lia.
Qed.

(** Putting the item into the free position, below a parent that is
    not above it and above the children of the position. *)
Lemma sifting_done (d : A) (heap : list A) (pos : nat) (item : A) :
  sifting key d heap pos ->
  (forall k, 0 < k < List.length heap -> (k - 1) / 2 = pos ->
     (key item <= key (nth k heap d))%Z) ->
  (0 < pos -> (key (nth ((pos - 1) / 2) heap d) <= key item)%Z) ->
  ordered_nth key d (list_set heap pos item).
Proof.
  intros (Hpos & Hedges & _) Habove Hbelow k Hk.
  rewrite list_set_length in Hk.
  pose proof (half_spec (k - 1)) as Hh.
  destruct (Nat.eq_dec k pos) as [-> | Hkp].
  - rewrite nth_list_set_same by assumption.
    rewrite (@nth_list_set_other _ _ _ ((pos - 1) / 2)) by lia. apply Hbelow. lia.
  - rewrite (@nth_list_set_other _ _ _ (k)) by lia.
    destruct (Nat.eq_dec ((k - 1) / 2) pos) as [Hpp | Hpp].
    + rewrite Hpp, nth_list_set_same by assumption. apply Habove; assumption.
    + rewrite (@nth_list_set_other _ _ _ ((k - 1) / 2)) by lia. apply Hedges; assumption.
Qed.

(** The value at the free position does not matter. *)
Lemma sifting_list_set (d : A) (heap : list A) (pos : nat) (item : A) :
  sifting key d heap pos -> sifting key d (list_set heap pos item) pos.
Proof.
  intros (Hpos & Hedges & Hgrand). unfold sifting. rewrite list_set_length.
  split; [assumption|]. split.
  - intros k Hk Hkp Hpp.
    rewrite (@nth_list_set_other _ _ _ (k)) by lia. rewrite (@nth_list_set_other _ _ _ ((k - 1) / 2)) by lia.
    apply Hedges; assumption.
  - intros k H0 Hk Hpp. pose proof (half_spec (k - 1)) as Hh.
    pose proof (half_spec (pos - 1)) as Hh'.
    rewrite (@nth_list_set_other _ _ _ (k)) by lia. rewrite (@nth_list_set_other _ _ _ ((pos - 1) / 2)) by lia.
    apply Hgrand; assumption.
Qed.

(** [_siftdown] moves the item up to its place. *)
Lemma siftdown_loop_ordered (d : A) (fuel : nat) :
  forall (heap : list A) (newitem : A) (pos : nat),
    pos <= fuel ->
    sifting key d heap pos ->
    (forall k, 0 < k < List.length heap -> (k - 1) / 2 = pos ->
       (key newitem <= key (nth k heap d))%Z) ->
    ordered_nth key d (siftdown_loop lt fuel heap newitem 0 pos).
Proof.
  induction fuel as [|fuel IH]; intros heap newitem pos Hfuel Hs Habove.
  - cbn [siftdown_loop]. apply sifting_done; [assumption | assumption | lia].
  - cbn [siftdown_loop]. destruct (0 <? pos) eqn:E0.
    + apply Nat.ltb_lt in E0.
      pose proof (half_spec (pos - 1)) as Hh.
      destruct Hs as (Hpos & Hedges & Hgrand).
      assert (Hpp : (pos - 1) / 2 < List.length heap) by lia.
      rewrite (nth_indep heap newitem d Hpp).
      set (pp := (pos - 1) / 2) in *.
      rewrite lt_key. destruct (key newitem <? key (nth pp heap d))%Z eqn:L.
      * apply Z.ltb_lt in L.
        assert (Hs2 : sifting key d (list_set heap pos (nth pp heap d)) pp).
        { unfold sifting. rewrite list_set_length. split; [lia|]. split.
          - intros k Hk Hkp Hkpp. pose proof (half_spec (k - 1)) as Hhk.
            destruct (Nat.eq_dec k pos) as [-> | Hne]; [unfold pp in Hkpp; lia|].
            rewrite (@nth_list_set_other _ _ _ (k)) by lia.
            destruct (Nat.eq_dec ((k - 1) / 2) pos) as [Hc | Hc].
            + rewrite Hc, nth_list_set_same by assumption. apply Hgrand; assumption.
            + rewrite (@nth_list_set_other _ _ _ ((k - 1) / 2)) by lia.
              apply Hedges; assumption.
          - intros k Hpp0 Hk Hkpp. pose proof (half_spec (pp - 1)) as Hhp.
            assert (Hgp : (key (nth ((pp - 1) / 2) heap d) <= key (nth pp heap d))%Z)
              by (apply (Hedges pp); lia).
            rewrite (@nth_list_set_other _ heap pos ((pp - 1) / 2)) by lia.
            destruct (Nat.eq_dec k pos) as [-> | Hne].
            + rewrite nth_list_set_same by assumption. assumption.
            + rewrite (@nth_list_set_other _ _ _ (k)) by lia.
              assert ((key (nth pp heap d) <= key (nth k heap d))%Z).
              { rewrite <- Hkpp. apply Hedges; [assumption | assumption | lia]. }
              lia. }
        apply IH; [lia | exact Hs2 |].
        rewrite list_set_length. intros k Hk Hkpp.
        destruct (Nat.eq_dec k pos) as [-> | Hne].
        -- rewrite nth_list_set_same by assumption. lia.
        -- rewrite (@nth_list_set_other _ _ _ (k)) by lia.
           assert ((key (nth pp heap d) <= key (nth k heap d))%Z).
           { rewrite <- Hkpp. apply Hedges; [assumption | assumption | lia]. }
           lia.
      * apply Z.ltb_ge in L.
        apply sifting_done; [unfold sifting; auto | assumption | intros _; exact L].
    + apply Nat.ltb_ge in E0.
      apply sifting_done; [assumption | assumption | lia].
Qed.

Lemma siftdown_ordered (d : A) (heap : list A) (pos : nat) :
  sifting key d heap pos ->
  (forall k, 0 < k < List.length heap -> (k - 1) / 2 = pos ->
     forall item, nth_error heap pos = Some item ->
     (key item <= key (nth k heap d))%Z) ->
  ordered_nth key d (siftdown lt heap 0 pos).
Proof.
  intros Hs Habove. unfold siftdown.
  destruct (nth_error heap pos) as [newitem|] eqn:E.
  - apply siftdown_loop_ordered; [lia | assumption |].
    intros k Hk Hkp. apply Habove; auto.
  - destruct Hs as [Hpos _]. apply nth_error_None in E. lia.
Qed.

(** [heappush] keeps the invariant. *)
Lemma heappush_ordered (heap : list A) (item : A) :
  heap_ordered key heap -> heap_ordered key (heappush lt heap item).
Proof.
  intros Ho. apply (heap_ordered_nth item). apply (heap_ordered_nth item) in Ho.
  unfold heappush. apply siftdown_ordered.
  - unfold sifting. rewrite length_app. cbn [List.length]. split; [lia|]. split.
    + intros k Hk Hkp Hpp. pose proof (half_spec (k - 1)) as Hh.
      rewrite !app_nth1 by lia. apply Ho. lia.
    + intros k H0 Hk Hpp. pose proof (half_spec (k - 1)) as Hh. lia.
  - rewrite length_app. cbn [List.length]. intros k Hk Hpp.
    pose proof (half_spec (k - 1)) as Hh. lia.
Qed.

(** The [while] loop of [_siftup] moves the free position down to a
    leaf. *)
Lemma siftup_loop_sifting (d : A) (fuel : nat) :
  forall (heap : list A) (newitem : A) (pos : nat) (heap1 : list A) (pos1 : nat),
    List.length heap - pos <= fuel ->
    sifting key d heap pos ->
    siftup_loop lt fuel heap newitem (List.length heap) pos = (heap1, pos1) ->
    sifting key d heap1 pos1 /\ List.length heap1 = List.length heap /\
    List.length heap <= 2 * pos1 + 1.
Proof.
  induction fuel as [|fuel IH]; intros heap newitem pos heap1 pos1 Hfuel Hs E.
  - destruct Hs as [Hpos _]. lia.
  - cbn [siftup_loop] in E.
    destruct (2 * pos + 1 <? List.length heap) eqn:E1.
    + apply Nat.ltb_lt in E1.
      destruct Hs as (Hpos & Hedges & Hgrand).
      set (cp := 2 * pos + 1) in *.
      set (child := if (cp + 1 <? List.length heap)
                       && negb (lt (nth cp heap newitem) (nth (cp + 1) heap newitem))
                    then cp + 1 else cp) in *.
      assert (Hchild : (child = cp \/ child = cp + 1) /\ child < List.length heap /\
                forall k, 0 < k < List.length heap -> (k - 1) / 2 = pos ->
                  (key (nth child heap d) <= key (nth k heap d))%Z).
      { unfold child. destruct (cp + 1 <? List.length heap) eqn:E2; cbn [andb negb].
        - apply Nat.ltb_lt in E2.
          rewrite (nth_indep heap newitem d E1), (nth_indep heap newitem d E2), lt_key.
          destruct (key (nth cp heap d) <? key (nth (cp + 1) heap d))%Z eqn:L;
            cbn [andb negb].
          + apply Z.ltb_lt in L. split; [auto|]. split; [assumption|].
            intros k Hk Hkp. pose proof (half_spec (k - 1)) as Hh.
            assert (Hk2 : k = cp \/ k = cp + 1) by (unfold cp; lia).
            destruct Hk2 as [-> | ->]; lia.
          + apply Z.ltb_ge in L. split; [auto|]. split; [assumption|].
            intros k Hk Hkp. pose proof (half_spec (k - 1)) as Hh.
            assert (Hk2 : k = cp \/ k = cp + 1) by (unfold cp; lia).
            destruct Hk2 as [-> | ->]; lia.
        - apply Nat.ltb_ge in E2. split; [auto|]. split; [assumption|].
          intros k Hk Hkp. pose proof (half_spec (k - 1)) as Hh.
          assert (Hk2 : k = cp) by (unfold cp; lia). subst k. lia. }
      destruct Hchild as (Hcc & Hclen & Hcmin).
      rewrite (nth_indep heap newitem d Hclen) in E.
      assert (Hcpar : (child - 1) / 2 = pos).
      { pose proof (half_spec (child - 1)) as Hh. unfold cp in Hcc. lia. }
      assert (Hs2 : sifting key d (list_set heap pos (nth child heap d)) child).
      { unfold sifting. rewrite list_set_length. split; [assumption|]. split.
        - intros k Hk Hkc Hkpc. pose proof (half_spec (k - 1)) as Hh.
          destruct (Nat.eq_dec k pos) as [-> | Hne].
          + rewrite nth_list_set_same by assumption.
            rewrite (@nth_list_set_other _ _ _ ((pos - 1) / 2)) by lia.
            apply Hgrand; [lia | lia | assumption].
          + rewrite (@nth_list_set_other _ _ _ (k)) by lia.
            destruct (Nat.eq_dec ((k - 1) / 2) pos) as [Hc | Hc].
            * rewrite Hc, nth_list_set_same by assumption. apply Hcmin; assumption.
            * rewrite (@nth_list_set_other _ _ _ ((k - 1) / 2)) by lia.
              apply Hedges; assumption.
        - intros k Hc0 Hk Hkc. pose proof (half_spec (k - 1)) as Hh.
          rewrite Hcpar, nth_list_set_same by assumption.
          rewrite (@nth_list_set_other _ _ _ k) by (unfold cp in Hcc; lia).
          rewrite <- Hkc. apply Hedges; [assumption | unfold cp in Hcc; lia | lia]. }
      rewrite <- (list_set_length heap pos (nth child heap d)) in E at 1.
      apply IH in E; [| rewrite list_set_length; unfold cp in Hcc; lia | exact Hs2].
      rewrite list_set_length in E. exact E.
    + apply Nat.ltb_ge in E1. injection E as <- <-.
      split; [assumption|]. split; [reflexivity | lia].
Qed.

Lemma siftup_ordered (d : A) (heap : list A) :
  sifting key d heap 0 -> ordered_nth key d (siftup lt heap 0).
Proof.
  intros Hs. unfold siftup.
  destruct (nth_error heap 0) as [newitem|] eqn:E;
    [|destruct Hs as [Hpos _]; apply nth_error_None in E; lia].
  destruct (siftup_loop lt (List.length heap) heap newitem (List.length heap) 0)
    as [heap1 pos1] eqn:L.
  apply siftup_loop_sifting with (d := d) in L; [|lia | assumption].
  destruct L as (Hs1 & Hlen & Hleaf).
  apply siftdown_ordered.
  - apply sifting_list_set. assumption.
  - rewrite list_set_length. intros k Hk Hkp. pose proof (half_spec (k - 1)) as Hh. lia.
Qed.

(** [heappop] returns a least item and leaves a heap. *)
Lemma heappop_ordered (heap rest : list A) (item : A) :
  heap_ordered key heap -> heappop lt heap = Some (item, rest) ->
  heap_ordered key rest /\ forall x, In x heap -> (key item <= key x)%Z.
Proof.
  intros Ho E. apply (heap_ordered_nth item) in Ho.
  rewrite (heap_ordered_nth item).
  unfold heappop in E.
  destruct (pop_right heap) as [[lastelt heap1]|] eqn:P; [|discriminate].
  apply pop_right_Some in P. subst heap.
  destruct heap1 as [|returnitem t].
  - injection E as <- <-. split.
    + intros k Hk. cbn [List.length app] in Hk. lia.
    + intros x [<- | []]. lia.
  - injection E as <- <-. split.
    + apply siftup_ordered. unfold sifting. cbn [List.length].
      split; [lia|]. split; [|intros k H0; lia].
      intros k Hk Hk0 Hkp. pose proof (half_spec (k - 1)) as Hh.
      assert (Hsame : forall j, j <> 0 ->
                nth j (lastelt :: t) returnitem = nth j (returnitem :: t) returnitem)
        by (intros [|j] Hj; [congruence | reflexivity]).
      rewrite (Hsame k), (Hsame ((k - 1) / 2)) by assumption.
      specialize (Ho k). rewrite length_app in Ho. cbn [List.length] in Ho.
      rewrite !app_nth1 in Ho by (cbn [List.length]; lia). apply Ho. lia.
    + intros x Hx. apply (In_nth _ _ returnitem) in Hx as (k & Hk & <-).
      apply (ordered_nth_root Ho Hk).
Qed.
End HeapOrderFacts.

(** ** The cost-ordered searches do not miss a goal *)

Section CostOrderedComplete.
Context {State : Type} `{PyState State}.

(** The part of a route after the last visit of one of its states. *)
Lemma after_last_visit {C : Type} `{PyNumber C} (problem : @Problem State C)
    (x : State) :
  forall suffix s,
    In x (s :: suffix) ->
    follows_actions problem s suffix ->
    exists post,
      follows_actions problem x post /\
      last post x = last suffix s /\ ~ In x post /\ incl post suffix.
Proof.
  induction suffix as [|s' rest IH]; intros s Hin Hf.
  - destruct Hin as [<- | []]. exists [].
    split; [exact I|]. split; [reflexivity|]. split; [intros []|]. apply incl_refl.
  - destruct (in_dec state_eq_dec x (s' :: rest)) as [Hin' | Hnot].
    + destruct Hf as [_ Hf'].
      destruct (IH s' Hin' Hf') as (post & Hfp & Hl & Hn & Hi).
      exists post. split; [assumption|].
      split; [rewrite Hl; symmetry; apply last_after|].
      split; [assumption|]. apply incl_tl. assumption.
    + destruct Hin as [<- | Hin]; [|contradiction].
      exists (s' :: rest).
      split; [assumption|]. split; [reflexivity|]. split; [assumption|].
      apply incl_refl.
Qed.

Lemma route_pending_step {C : Type} `{PyNumber C} (problem : @Problem State C)
    (step : @cost_config State C -> outcome (@iteration State C (@cost_config State C)))
    (cfg : @cost_config State C) :
  expands_frontier problem step ->
  route_pending problem cfg ->
  forall it, step cfg = Ret it ->
    match it with
    | Return r => exists n, r = Some n /\ goal_test problem (state n) = true
    | Continue cfg' => route_pending problem cfg'
    end.
Proof.
  intros Hshape [Hfs (n & suffix & Hn & Hf & Hg & Hun)] it E0.
  pose proof (Hshape cfg it Hfs E0) as Hit.
  destruct it as [[m|]|cfg'].
  - destruct Hit as [_ Hgm]. exists m. split; [reflexivity | assumption].
  - rewrite Hit in Hn. contradiction.
  - destruct Hit as (m & rest & nb & PP & Gm & Am & ES & Hfs' & Hrest & Hpush).
    split; [assumption|].
    destruct (in_dec state_eq_dec (state m) (state n :: suffix)) as [Hon | Hoff].
    + destruct (@after_last_visit C _ problem (state m) suffix (state n) Hon Hf)
        as (post & Hfp & Hl & Hnp & Hi).
      destruct post as [|s' post'].
      { simpl in Hl. rewrite <- Hl in Hg. congruence. }
      destruct Hfp as [(l & Hl1 & Hl2) Hfp'].
      rewrite Am in Hl1. injection Hl1 as <-.
      assert (Hfresh : forall s, In s (s' :: post') -> ~ In s (settled cfg')).
      { intros s Hs Hin. rewrite ES in Hin.
        apply set_add_In in Hin as [-> | Hin]; [contradiction|].
        apply (Hun s); [|assumption]. right. apply Hi. assumption. }
      destruct (Hpush s' Hl2 (Hfresh s' (or_introl eq_refl))) as (m' & Hm' & Hs').
      exists m', post'. rewrite Hs'.
      split; [assumption|]. split; [assumption|].
      split; [rewrite <- Hg, <- Hl; f_equal; symmetry; apply last_after|].
      exact Hfresh.
    + exists n, suffix.
      split.
      { apply Hrest. apply (Permutation_in _ PP) in Hn.
        destruct Hn as [<- | Hn]; [|assumption].
        exfalso. apply Hoff. left. reflexivity. }
      split; [assumption|]. split; [assumption|].
      intros s Hs Hin. rewrite ES in Hin.
      apply set_add_In in Hin as [-> | Hin]; [contradiction|].
      apply (Hun s); assumption.
Qed.

Lemma route_pending_init {C : Type} `{PyNumber C} (problem : @Problem State C)
    (rest : list State) :
  follows_actions problem (initial problem) rest ->
  goal_test problem (last rest (initial problem)) = true ->
  route_pending problem (cost_init problem).
Proof.
  intros Hf Hg. split; [constructor; [exact I | constructor]|].
  exists (root_node (initial problem)), rest. simpl.
  split; [left; reflexivity|]. split; [assumption|]. split; [assumption|].
  intros s _ [].
Qed.

Lemma heappop_None {A : Type} (lt : A -> A -> bool) (heap : list A) :
  heappop lt heap = None -> heap = [].
Proof.
  unfold heappop. destruct (pop_right heap) as [[lastelt heap1]|] eqn:PR.
  - destruct heap1; discriminate.
  - intros _. apply pop_right_None. assumption.
Qed.

(** A neighbor that has not been explored is pushed, whatever
    [frontier_states] holds. *)
Lemma ucs_for_pushed {C : Type} `{PyNumber C} (problem : @Problem State C)
    (node : Node) (E nb : list State) (s' : State) :
  In s' nb -> ~ In s' E ->
  forall F fs F2 fs2,
    only_pairs fs ->
    ucs_for problem node E nb F fs = Ret (F2, fs2) ->
    exists c', path_cost problem (cost node) (state node) None s' = Ret c' /\
               In (Node_init s' (SVal s') (SNode node) c') F2.
Proof.
  intros Hin Hnot. induction nb as [|neighbor rest IH]; intros F fs F2 fs2 Hfs E0;
    [contradiction|].
  simpl in E0.
  assert (Hkeep : forall nb' F' fs' F3 fs3 x,
            ucs_for problem node E nb' F' fs' = Ret (F3, fs3) -> In x F' -> In x F3).
  { intros nb' F' fs' F3 fs3 x U Hx.
    apply ucs_for_pushes in U as (news & PP & _).
    apply (Permutation_in _ (Permutation_sym PP)). apply in_or_app. right. assumption. }
  destruct Hin as [-> | Hin].
  - apply set_mem_not_In in Hnot. rewrite Hnot in E0.
    rewrite state_not_among_pairs in E0 by assumption. simpl in E0.
    destruct (path_cost problem (cost node) (state node) None s') as [c|e];
      simpl in E0; [|discriminate].
    exists c. split; [reflexivity|].
    apply (Hkeep _ _ _ _ _ _ E0).
    apply (Permutation_in _ (Permutation_sym (heappush_Permutation Node_lt F _))).
    left. reflexivity.
  - destruct (negb (set_mem state_eqb neighbor E)
              && negb (set_mem set_elem_eqb (EState neighbor) fs)).
    + destruct (path_cost problem (cost node) (state node) None neighbor) as [c|e];
        simpl in E0; [|discriminate].
      eapply (IH Hin); [|exact E0]. apply only_pairs_add. assumption.
    + eapply (IH Hin); [exact Hfs | exact E0].
Qed.



Lemma ucs_step_expands_frontier {C : Type} `{PyNumber C} (problem : @Problem State C) :
  expands_frontier problem (ucs_step problem).
Proof.
  intros cfg it Hfs E0. unfold ucs_step in E0.
  destruct (heappop Node_lt (heap cfg)) as [[m F1]|] eqn:P.
  2:{ injection E0 as <-. apply (heappop_None _ _ P). }
  pose proof (heappop_Permutation _ _ P) as PP.
  destruct (set_remove set_elem_eqb (EPair (state m) (cost m)) (heap_states cfg))
    as [fs1|e1] eqn:R; simpl in E0; [|discriminate].
  assert (Hfs1 : only_pairs fs1) by (eapply only_pairs_remove; [exact Hfs | exact R]).
  destruct (goal_test problem (state m)) eqn:G.
  - injection E0 as <-. split; [|assumption].
    apply (Permutation_in _ (Permutation_sym PP)). left. reflexivity.
  - destruct (actions problem (state m)) as [nb|e2] eqn:A; simpl in E0; [|discriminate].
    match type of E0 with
    | context [ucs_for problem m ?E1 nb F1 fs1] =>
        destruct (ucs_for problem m E1 nb F1 fs1) as [[F2 fs2]|e3] eqn:U
    end; simpl in E0; [|discriminate].
    injection E0 as <-. exists m, F1, nb. simpl.
    split; [assumption|]. split; [assumption|]. split; [assumption|].
    split; [reflexivity|].
    split; [eapply ucs_for_only_pairs; [exact Hfs1 | exact U]|].
    split.
    + intros x Hx. pose proof U as U'. apply ucs_for_pushes in U' as (news & PN & _).
      apply (Permutation_in _ (Permutation_sym PN)). apply in_or_app. right. assumption.
    + intros s' Hs' Hnot.
      destruct (@ucs_for_pushed C _ problem m _ nb s' Hs' Hnot F1 fs1 F2 fs2 Hfs1 U)
        as (c' & _ & Hin).
      eexists. split; [exact Hin | reflexivity].
Qed.


Lemma cost_ordered_loop_finds_a_goal {C : Type} `{PyNumber C}
    (problem : @Problem State C)
    (step : @cost_config State C -> outcome (@iteration State C (@cost_config State C)))
    (rest : list State) (fuel : nat) (r : option Node) :
  expands_frontier problem step ->
  follows_actions problem (initial problem) rest ->
  goal_test problem (last rest (initial problem)) = true ->
  while_loop step fuel (cost_init problem) = Some (Ret r) ->
  exists n, r = Some n /\ goal_test problem (state n) = true.
Proof.
  intros Hshape Hf Hg Hrun.
  apply (@while_loop_returns State C _ step (route_pending problem)
           (fun r => exists n, r = Some n /\ goal_test problem (state n) = true))
    with (fuel := fuel) (cfg := cost_init problem).
  - intros cfg cfg' HI E0.
    apply (@route_pending_step C _ problem step cfg Hshape HI (Continue cfg') E0).
  - intros cfg r' HI E0.
    apply (@route_pending_step C _ problem step cfg Hshape HI (Return r') E0).
  - eapply route_pending_init; [exact Hf | exact Hg].
  - exact Hrun.
Qed.
End CostOrderedComplete.

(** X20: on a problem whose states are [str]s, with [int] costs of
    any sign and a finite state space, on which some sequence of
    states, each among the actions of the state before, leads from the
    initial state to a state passing the goal test,
    [uniform_cost_search] does not return [None]: it stops, and unless
    it raises [KeyError] it returns a node whose state passes the goal
    test. *)
Theorem uniform_cost_search_reaches_a_goal_or_raises_KeyError
    (problem : @Problem string Z) (universe rest : list string) :
  finite_state_space problem universe ->
  follows_actions problem (initial problem) rest ->
  goal_test problem (last rest (initial problem)) = true ->
  exists fuel,
    uniform_cost_search fuel problem = Some (Raise KeyError) \/
    exists n, uniform_cost_search fuel problem = Some (Ret (Some n)) /\
              goal_test problem (state n) = true.
Proof.
  intros finite Hf Hg.
  destruct (ucs_loop_stops_state_space finite) as (fuel & r & Hrun & He).
  exists fuel. destruct r as [r|e].
  - right.
    destruct (@cost_ordered_loop_finds_a_goal string _ Z _ problem (ucs_step problem)
                rest fuel r (ucs_step_expands_frontier problem) Hf Hg Hrun)
      as (n & -> & Hgn).
    exists n. split; [exact Hrun | exact Hgn].
  - left. rewrite (He e eq_refl) in Hrun. exact Hrun.
Qed.

(** The theorem applied to the fork problem, on which the search
    raises. *)
Lemma uniform_cost_search_reaches_a_goal_or_raises_on_fork :
  finite_state_space (fork_problem "Mehadia"%string) (dict_keys fork_map) /\
  exists fuel,
    uniform_cost_search fuel (fork_problem "Mehadia"%string) = Some (Raise KeyError) \/
    exists n, uniform_cost_search fuel (fork_problem "Mehadia"%string)
              = Some (Ret (Some n)) /\
              goal_test (fork_problem "Mehadia"%string) (state n) = true.
Proof.
  pose proof (finite_problem_state_space (fork_problem_finite "Mehadia"%string)) as F.
  split; [exact F|].
  apply (@uniform_cost_search_reaches_a_goal_or_raises_KeyError
           (fork_problem "Mehadia"%string) (dict_keys fork_map)
           ["Drobeta"; "Craiova"; "Mehadia"]%string F).
  - simpl. repeat split; eexists; (split; [reflexivity | simpl; tauto]).
  - reflexivity.
Defined.



(** ** Cheapest First Search pops a cheapest node *)

Section CheapestFirstFacts.
Context {State : Type} `{PyState State}.

Lemma Node_lt_cost (x y : @Node State Z) : Node_lt x y = (cost x <? cost y)%Z.
Proof. reflexivity. Qed.

Lemma cost_init_ordered (problem : @Problem State Z) :
  heap_ordered cost (heap (cost_init problem)).
Proof.
  intros k x p Hk Ex _. destruct k as [|[|k]]; [lia | discriminate | discriminate].
Qed.

Lemma ucs_for_ordered (problem : @Problem State Z) (node : Node) (E nb : list State) :
  forall F fs F2 fs2,
    heap_ordered cost F ->
    ucs_for problem node E nb F fs = Ret (F2, fs2) -> heap_ordered cost F2.
Proof.
  induction nb as [|neighbor rest IH]; intros F fs F2 fs2 Ho E0; simpl in E0.
  - injection E0 as <- <-. assumption.
  - destruct (negb (set_mem state_eqb neighbor E)
              && negb (set_mem set_elem_eqb (EState neighbor) fs));
      [|eapply IH; [exact Ho | exact E0]].
    destruct (path_cost problem (cost node) (state node) None neighbor) as [c|e];
      simpl in E0; [|discriminate].
    eapply IH; [|exact E0].
    apply (@heappush_ordered _ cost Node_lt Node_lt_cost). assumption.
Qed.

Lemma ucs_step_ordered (problem : @Problem State Z) (cfg cfg' : @cost_config State Z) :
  heap_ordered cost (heap cfg) ->
  ucs_step problem cfg = Ret (Continue cfg') ->
  heap_ordered cost (heap cfg').
Proof.
  intros Ho E0. unfold ucs_step in E0.
  destruct (heappop Node_lt (heap cfg)) as [[node F1]|] eqn:P; [|discriminate].
  destruct (@heappop_ordered _ cost Node_lt Node_lt_cost _ _ _ Ho P) as [Ho1 _].
  destruct (set_remove set_elem_eqb (EPair (state node) (cost node)) (heap_states cfg))
    as [fs1|e1]; simpl in E0; [|discriminate].
  destruct (goal_test problem (state node)); [discriminate|].
  destruct (actions problem (state node)) as [nb|e2]; simpl in E0; [|discriminate].
  match type of E0 with
  | context [ucs_for problem node ?E1 nb F1 fs1] =>
      destruct (ucs_for problem node E1 nb F1 fs1) as [[F2 fs2]|e3] eqn:U
  end; simpl in E0; [|discriminate].
  injection E0 as <-. simpl. eapply ucs_for_ordered; [exact Ho1 | exact U].
Qed.

Lemma configuration_at_ordered (problem : @Problem State Z) (k : nat) :
  forall cfg cfg',
    heap_ordered cost (heap cfg) ->
    configuration_at (ucs_step problem) k cfg = Some cfg' ->
    heap_ordered cost (heap cfg').
Proof.
  induction k as [|k IH]; intros cfg cfg' Ho E0; simpl in E0.
  - injection E0 as <-. assumption.
  - destruct (ucs_step problem cfg) as [[r|cfg1]|e] eqn:S1; try discriminate.
    apply (IH cfg1 cfg'); [|assumption].
    eapply ucs_step_ordered; [exact Ho | exact S1].
Qed.

(** The route ahead *)

Lemma accumulate_nonnegative (problem : @Problem State Z) :
  nonnegative_steps problem ->
  forall rest c s d, accumulate problem c s rest = Ret d -> (c <= d)%Z.
Proof.
  intros Hnn. induction rest as [|s' rest IH]; intros c s d E0; simpl in E0.
  - injection E0 as <-. lia.
  - destruct (path_cost problem c s None s') as [c'|e] eqn:P; simpl in E0;
      [|discriminate].
    apply Hnn in P. apply IH in E0. lia.
Qed.

(** The part of a route after the last visit of one of its states. *)
Lemma route_after_last_visit (problem : @Problem State Z) (x : State) :
  nonnegative_steps problem ->
  forall suffix s c0 d,
    In x (s :: suffix) ->
    follows_actions problem s suffix ->
    accumulate problem c0 s suffix = Ret d ->
    exists post c1,
      (c0 <= c1)%Z /\ follows_actions problem x post /\
      accumulate problem c1 x post = Ret d /\
      last post x = last suffix s /\ ~ In x post /\ incl post suffix.
Proof.
  intros Hnn. induction suffix as [|s' rest IH]; intros s c0 d Hin Hf Ha.
  - destruct Hin as [<- | []]. exists [], c0.
    split; [lia|]. split; [exact I|]. split; [exact Ha|].
    split; [reflexivity|]. split; [intros []|]. apply incl_refl.
  - destruct (in_dec state_eq_dec x (s' :: rest)) as [Hin' | Hnot].
    + simpl in Ha.
      destruct (path_cost problem c0 s None s') as [c'|e] eqn:P; simpl in Ha;
        [|discriminate].
      destruct Hf as [_ Hf'].
      destruct (IH s' c' d Hin' Hf' Ha) as (post & c1 & Hc & Hfp & Hap & Hl & Hn & Hi).
      exists post, c1. apply Hnn in P.
      split; [lia|]. split; [assumption|]. split; [assumption|].
      split; [rewrite Hl; symmetry; apply last_after|].
      split; [assumption|]. apply incl_tl. assumption.
    + destruct Hin as [<- | Hin]; [|contradiction].
      exists (s' :: rest), c0.
      split; [lia|]. split; [assumption|]. split; [assumption|].
      split; [reflexivity|]. split; [assumption|]. apply incl_refl.
Qed.

Lemma cheapest_first_init (problem : @Problem State Z) (rest : list State) (d : Z) :
  follows_actions problem (initial problem) rest ->
  goal_test problem (last rest (initial problem)) = true ->
  accumulate problem 0%Z (initial problem) rest = Ret d ->
  cheapest_first_invariant problem d (cost_init problem).
Proof.
  intros Hf Hg Ha. split.
  - apply cost_init_ordered.
  - constructor; [exact I | constructor].
  - exists (root_node (initial problem)), rest, 0%Z. simpl.
    split; [left; reflexivity|]. split; [lia|]. split; [assumption|].
    split; [assumption|]. split; [assumption|]. intros s _ [].
Qed.

Lemma cheapest_first_step (problem : @Problem State Z) (d : Z)
    (cfg : @cost_config State Z) :
  nonnegative_steps problem -> monotone_path_cost problem ->
  cheapest_first_invariant problem d cfg ->
  forall it, ucs_step problem cfg = Ret it ->
    match it with
    | Return r => exists n, r = Some n /\ goal_test problem (state n) = true /\
                            (cost n <= d)%Z
    | Continue cfg' => cheapest_first_invariant problem d cfg'
    end.
Proof.
  intros Hnn Hmono [Ho Hfs (n & suffix & c0 & Hn & Hc & Hf & Ha & Hg & Hun)] it E0.
  unfold ucs_step in E0.
  destruct (heappop Node_lt (heap cfg)) as [[m F1]|] eqn:P.
  2:{ unfold heappop in P.
      destruct (pop_right (heap cfg)) as [[lastelt heap1]|] eqn:PR.
      - destruct heap1; discriminate.
      - apply pop_right_None in PR. rewrite PR in Hn. contradiction. }
  destruct (@heappop_ordered _ cost Node_lt Node_lt_cost _ _ _ Ho P) as [Ho1 Hmin].
  pose proof (heappop_Permutation _ _ P) as PP.
  destruct (set_remove set_elem_eqb (EPair (state m) (cost m)) (heap_states cfg))
    as [fs1|e1] eqn:R; simpl in E0; [|discriminate].
  assert (Hfs1 : only_pairs fs1) by (eapply only_pairs_remove; [exact Hfs | exact R]).
  pose proof (Hmin n Hn) as Hmn.
  assert (Hc0d : (c0 <= d)%Z) by (eapply accumulate_nonnegative; [exact Hnn | exact Ha]).
  destruct (in_dec state_eq_dec (state m) (state n :: suffix)) as [Hon | Hoff].
  - destruct (@route_after_last_visit problem (state m) Hnn suffix (state n) c0 d
                Hon Hf Ha)
      as (post & c1 & Hc1 & Hfp & Hap & Hl & Hnp & Hi).
    assert (Hc1d : (c1 <= d)%Z)
      by (eapply accumulate_nonnegative; [exact Hnn | exact Hap]).
    destruct (goal_test problem (state m)) eqn:G.
    + injection E0 as <-. exists m. split; [reflexivity|]. split; [assumption|]. lia.
    + destruct post as [|s' post'].
      { simpl in Hl. rewrite <- Hl in Hg. congruence. }
      destruct Hfp as [(l & Hl1 & Hl2) Hfp'].
      rewrite Hl1 in E0. simpl in E0.
      simpl in Hap.
      destruct (path_cost problem c1 (state m) None s') as [c2|e2] eqn:P2;
        simpl in Hap; [|discriminate].
      assert (Hfresh : forall s, In s (s' :: post') ->
                ~ In s (set_add state_eqb (state m) (settled cfg))).
      { intros s Hs Hin. apply set_add_In in Hin as [-> | Hin]; [contradiction|].
        apply (Hun s); [|assumption]. right. apply Hi. assumption. }
      match type of E0 with
      | context [ucs_for problem m ?E1 l F1 fs1] =>
          destruct (ucs_for problem m E1 l F1 fs1) as [[F2 fs2]|e3] eqn:U
      end; simpl in E0; [|discriminate].
      injection E0 as <-.
      destruct (@ucs_for_pushed _ _ Z _ problem m _ l s' Hl2
                  (Hfresh s' (or_introl eq_refl)) F1 fs1 F2 fs2 Hfs1 U)
        as (c' & Pc & Hin2).
      split; simpl.
      * eapply ucs_for_ordered; [exact Ho1 | exact U].
      * eapply ucs_for_only_pairs; [exact Hfs1 | exact U].
      * exists (Node_init s' (SVal s') (SNode m) c'), post', c2. simpl.
        split; [assumption|].
        split; [apply (Hmono (cost m) c1 (state m) s' c' c2); [lia | assumption..]|].
        split; [assumption|]. split; [assumption|].
        split; [rewrite <- Hg, <- Hl; f_equal; symmetry; apply last_after|].
        exact Hfresh.
  - destruct (goal_test problem (state m)) eqn:G.
    + injection E0 as <-. exists m. split; [reflexivity|]. split; [assumption|]. lia.
    + destruct (actions problem (state m)) as [nb|e2]; simpl in E0; [|discriminate].
      match type of E0 with
      | context [ucs_for problem m ?E1 nb F1 fs1] =>
          destruct (ucs_for problem m E1 nb F1 fs1) as [[F2 fs2]|e3] eqn:U
      end; simpl in E0; [|discriminate].
      injection E0 as <-.
      split; simpl.
      * eapply ucs_for_ordered; [exact Ho1 | exact U].
      * eapply ucs_for_only_pairs; [exact Hfs1 | exact U].
      * exists n, suffix, c0. simpl.
        split.
        { apply ucs_for_pushes in U as (news & PN & _).
          apply (Permutation_in _ (Permutation_sym PN)). apply in_or_app. right.
          apply (Permutation_in _ PP) in Hn. destruct Hn as [<- | Hn]; [|assumption].
          exfalso. apply Hoff. left. reflexivity. }
        split; [assumption|]. split; [assumption|]. split; [assumption|].
        split; [assumption|].
        intros s Hs Hin. apply set_add_In in Hin as [-> | Hin]; [contradiction|].
        apply (Hun s); assumption.
Qed.
End CheapestFirstFacts.

(** X15: at every iteration of [uniform_cost_search] on costs that are
    [int]s, the node [heapq.heappop] takes from the frontier has the
    least cost of the frontier: [heappush] and [heappop] keep the heap
    invariant, which the one-node frontier of the start has. *)
Theorem uniform_cost_search_pops_a_cheapest_node
    {State : Type} `{PyState State}
    (problem : @Problem State Z) (k : nat) (cfg : @cost_config State Z)
    (node : Node) (rest : list Node) :
  configuration_at (ucs_step problem) k (cost_init problem) = Some cfg ->
  heappop Node_lt (heap cfg) = Some (node, rest) ->
  forall m, In m (heap cfg) -> (cost node <= cost m)%Z.
Proof.
  intros Hk P.
  assert (Ho : heap_ordered cost (heap cfg)).
  { eapply configuration_at_ordered; [apply cost_init_ordered | exact Hk]. }
  destruct (@heappop_ordered _ cost Node_lt Node_lt_cost _ _ _ Ho P) as [_ Hmin].
  exact Hmin.
Qed.

(** The theorem applied to the second iteration of the search on the
    Romania problem, which pops Zerind at cost 75. *)
Lemma uniform_cost_search_pops_a_cheapest_node_on_romania :
  exists node rest,
    heappop Node_lt (heap romania_ucs_second_iteration) = Some (node, rest) /\
    cost node = 75%Z /\
    forall m, In m (heap romania_ucs_second_iteration) -> (cost node <= cost m)%Z.
Proof.
  destruct (heappop Node_lt (heap romania_ucs_second_iteration))
    as [[node rest]|] eqn:P; [|vm_compute in P; discriminate].
  exists node, rest. split; [reflexivity|]. split.
  - vm_compute in P. injection P as <- _. reflexivity.
  - apply (@uniform_cost_search_pops_a_cheapest_node string _ romania_problem 1
             romania_ucs_second_iteration node rest);
      [vm_compute; reflexivity | exact P].
Defined.

Section PathFinderCosts.
Context {State : Type} `{PyState State}.

Lemma PathFinder_monotone (initial goal : State)
    (graph : list (State * list (State * Z))) :
  monotone_path_cost (PathFinder (C := Z) initial goal graph).
Proof.
  intros c c' s s' r r' Hc. simpl.
  destruct (dict_get state_eqb s graph) as [adj|e]; simpl; [|discriminate].
  destruct (dict_get state_eqb s' adj) as [w|e]; simpl; [|discriminate].
  intros [= <-] [= <-]. lia.
Qed.

Lemma PathFinder_nonnegative (initial goal : State)
    (graph : list (State * list (State * Z))) :
  roads_nonnegative graph = true ->
  nonnegative_steps (PathFinder (C := Z) initial goal graph).
Proof.
  intros Hg c s s' r. simpl.
  destruct (dict_get state_eqb s graph) as [adj|e] eqn:D1; simpl; [|discriminate].
  destruct (dict_get state_eqb s' adj) as [w|e] eqn:D2; simpl; [|discriminate].
  intros [= <-].
  apply dict_get_In in D1. apply dict_get_In in D2.
  unfold roads_nonnegative in Hg. rewrite forallb_forall in Hg.
  specialize (Hg _ D1). simpl in Hg. rewrite forallb_forall in Hg.
  specialize (Hg _ D2). simpl in Hg. apply Z.leb_le in Hg. lia.
Qed.
End PathFinderCosts.

(** A call of [uniform_cost_search] that returns has found a route at
    least as cheap as any given one. *)
Lemma cheapest_first_returns {State : Type} `{PyState State}
    (problem : @Problem State Z) (rest : list State) (d : Z)
    (fuel : nat) (r : option Node) :
  nonnegative_steps problem -> monotone_path_cost problem ->
  follows_actions problem (initial problem) rest ->
  goal_test problem (last rest (initial problem)) = true ->
  accumulated_cost problem (initial problem :: rest) = Ret d ->
  uniform_cost_search fuel problem = Some (Ret r) ->
  exists n, r = Some n /\ goal_test problem (state n) = true /\ (cost n <= d)%Z.
Proof.
  intros Hnn Hmono Hf Hg Ha Hrun. unfold uniform_cost_search in Hrun.
  apply (@while_loop_returns State Z _ (ucs_step problem)
           (cheapest_first_invariant problem d)
           (fun r => exists n, r = Some n /\ goal_test problem (state n) = true /\
                               (cost n <= d)%Z))
    with (fuel := fuel) (cfg := cost_init problem).
  - intros cfg cfg' HI E0.
    apply (@cheapest_first_step _ _ problem d cfg Hnn Hmono HI (Continue cfg') E0).
  - intros cfg r' HI E0.
    apply (@cheapest_first_step _ _ problem d cfg Hnn Hmono HI (Return r') E0).
  - eapply cheapest_first_init; [exact Hf | exact Hg | exact Ha].
  - exact Hrun.
Qed.

(** X16: on a problem whose states are [str]s, with [int] costs and a
    finite state space, whose [path_cost] never lowers a cost and gives
    no lower result for a higher cost (as [PathFinder]'s does on roads
    of non-negative length), [uniform_cost_search] stops, and unless it
    raises [KeyError] it has found a cheapest route: for every sequence
    of states, each among the actions of the state before, that leads
    from the initial state to a state passing the goal test and along
    which [path_cost] adds up to [d], it returns a node (not [None])
    whose state passes the goal test and whose cost is at most [d]. *)
Theorem uniform_cost_search_returns_a_cheapest_route
    (problem : @Problem string Z) (universe rest : list string) (d : Z) :
  finite_state_space problem universe ->
  nonnegative_steps problem -> monotone_path_cost problem ->
  follows_actions problem (initial problem) rest ->
  goal_test problem (last rest (initial problem)) = true ->
  accumulated_cost problem (initial problem :: rest) = Ret d ->
  exists fuel,
    uniform_cost_search fuel problem = Some (Raise KeyError) \/
    exists n, uniform_cost_search fuel problem = Some (Ret (Some n)) /\
              goal_test problem (state n) = true /\ (cost n <= d)%Z.
Proof.
  intros finite Hnn Hmono Hf Hg Ha.
  destruct (ucs_loop_stops_state_space finite) as (fuel & r & Hrun & He).
  exists fuel. destruct r as [r|e].
  - right.
    destruct (@cheapest_first_returns _ _ problem rest d fuel r Hnn Hmono Hf Hg Ha Hrun)
      as (n & -> & Hgn & Hcn).
    exists n. split; [exact Hrun|]. split; assumption.
  - left. rewrite (He e eq_refl) in Hrun. exact Hrun.
Qed.

(** The theorem applied to the Romania problem and the route through
    Fagaras, of cost 450. *)
Lemma uniform_cost_search_returns_a_cheapest_route_on_romania :
  finite_state_space romania_problem (dict_keys romania_map) /\
  nonnegative_steps romania_problem /\ monotone_path_cost romania_problem /\
  accumulated_cost romania_problem
    ["Arad"; "Sibiu"; "Fagaras"; "Bucharest"]%string = Ret 450%Z /\
  exists fuel,
    uniform_cost_search fuel romania_problem = Some (Raise KeyError) \/
    exists n, uniform_cost_search fuel romania_problem = Some (Ret (Some n)) /\
              goal_test romania_problem (state n) = true /\ (cost n <= 450)%Z.
Proof.
  pose proof (finite_problem_state_space romania_problem_finite) as F.
  assert (Hnn : nonnegative_steps romania_problem)
    by (apply PathFinder_nonnegative; vm_compute; reflexivity).
  assert (Hmono : monotone_path_cost romania_problem) by apply PathFinder_monotone.
  assert (Ha : accumulated_cost romania_problem
                 ["Arad"; "Sibiu"; "Fagaras"; "Bucharest"]%string = Ret 450%Z)
    by (vm_compute; reflexivity).
  split; [exact F|].
  split; [exact Hnn|]. split; [exact Hmono|]. split; [exact Ha|].
  apply (@uniform_cost_search_returns_a_cheapest_route romania_problem
           (dict_keys romania_map) ["Sibiu"; "Fagaras"; "Bucharest"]%string 450%Z
           F Hnn Hmono).
  - apply romania_route_through_Fagaras.
  - reflexivity.
  - exact Ha.
Defined.

(** ** What [problem.actions] raises *)

(** X17: when the initial state does not pass the goal test and
    [problem.actions] raises on it (as the [actions] of the base class
    [Problem] does, with [NotImplementedError]), the two uninformed
    searches and [uniform_cost_search] raise the same exception at
    their first iteration. *)
Theorem searches_raise_what_actions_raises
    {State : Type} `{PyState State} {C : Type} `{PyNumber C}
    (problem : @Problem State C) (fuel : nat) (e : exn) :
  goal_test problem (initial problem) = false ->
  actions problem (initial problem) = Raise e ->
  num_eqb (num_of_int 0 : C) (num_of_int 0) = true ->
  breadth_first_graph_search (S fuel) problem = Some (Raise e) /\
  depth_first_graph_search (S fuel) problem = Some (Raise e) /\
  uniform_cost_search (S fuel) problem = Some (Raise e).
Proof.
  intros Hgoal Hact Hzero.
  split; [|split].
  - unfold breadth_first_graph_search. simpl. unfold bfs_step. simpl.
    unfold set_remove, set_mem. simpl. rewrite state_eqb_refl. simpl.
    rewrite Hgoal, Hact. reflexivity.
  - unfold depth_first_graph_search. simpl. unfold dfs_step. simpl.
    unfold set_remove, set_mem. simpl. rewrite state_eqb_refl. simpl.
    rewrite Hgoal, Hact. reflexivity.
  - unfold uniform_cost_search. simpl. unfold ucs_step. simpl.
    unfold set_remove, set_mem. simpl. rewrite state_eqb_refl, Hzero. simpl.
    rewrite Hgoal, Hact. reflexivity.
Qed.

(** The theorem applied to [Problem("Arad", "Bucharest")], of the base
    class. *)
Lemma searches_raise_NotImplementedError_on_base_class :
  breadth_first_graph_search 1
    (Problem_base (C := Z) "Arad"%string (Some "Bucharest"%string))
  = Some (Raise NotImplementedError) /\
  depth_first_graph_search 1
    (Problem_base (C := Z) "Arad"%string (Some "Bucharest"%string))
  = Some (Raise NotImplementedError) /\
  uniform_cost_search 1
    (Problem_base (C := Z) "Arad"%string (Some "Bucharest"%string))
  = Some (Raise NotImplementedError).
Proof.
  exact (@searches_raise_what_actions_raises string _ Z _
           (Problem_base "Arad"%string (Some "Bucharest"%string)) 0
           NotImplementedError eq_refl eq_refl eq_refl).
Defined.

(** ** The straight-line distance *)

(** X18: [euclidean_distance] of a location to itself is [0.0], so the
    heuristic term [a_star_search] adds for the goal state itself is
    [0.0] whenever the goal has a location. *)
Theorem heuristic_of_goal_is_zero
    {State : Type} `{PyState State}
    (locs : list (State * Location)) (problem : @Problem State float)
    (g : State) (loc : Location) :
  goal problem = Some g ->
  dict_get state_eqb g locs = Ret loc ->
  euclidean_distance loc loc = float_of_int 0 /\
  heuristic locs problem g = Ret (float_of_int 0).
Proof.
  intros Hg Hloc.
  assert (Hd : euclidean_distance loc loc = float_of_int 0).
  { unfold euclidean_distance. rewrite !Z.sub_diag. vm_compute. reflexivity. }
  split; [exact Hd|].
  unfold heuristic, goal_location. rewrite Hg, Hloc. simpl. rewrite Hd. reflexivity.
Qed.

(** The theorem applied to Bucharest on the notebook's locations. *)
Lemma heuristic_of_Bucharest_is_zero :
  heuristic locations romania_problem_float "Bucharest"%string = Ret (float_of_int 0).
Proof.
  apply (@heuristic_of_goal_is_zero string _ locations romania_problem_float
           "Bucharest"%string (Build_Location 400 327)).
  - reflexivity.
  - vm_compute. reflexivity.
Defined.

Lemma mul_opp_opp (x : float) :
  PrimFloat.mul (PrimFloat.opp x) (PrimFloat.opp x) = PrimFloat.mul x x.
Proof.
  apply Prim2SF_inj. rewrite !FloatAxioms.mul_spec, !FloatAxioms.opp_spec.
  destruct (Prim2SF x) as [[]|[]| |[] m e]; reflexivity.
Qed.

Lemma pow2_opp (d : Z) : pow2 (- d) = pow2 d.
Proof.
  unfold pow2, float_of_int.
  destruct (Z.ltb_spec (- d) 0), (Z.ltb_spec d 0); try lia.
  - rewrite mul_opp_opp, Z.opp_involutive. reflexivity.
  - rewrite mul_opp_opp. reflexivity.
  - assert (d = 0%Z) by lia. subst. reflexivity.
Qed.

(** X19: [euclidean_distance] is symmetric, bit for bit, on
    locations whose coordinate differences have squares below 2^53
    (where [math.pow(d, 2)] is the exact square): swapping the two
    locations negates the two differences, and the square of [-d] is
    that of [d]. *)
Theorem euclidean_distance_symmetric (loc1 loc2 : Location) :
  ((loc_x loc1 - loc_x loc2) ^ 2 < 2 ^ 53)%Z ->
  ((loc_y loc1 - loc_y loc2) ^ 2 < 2 ^ 53)%Z ->
  euclidean_distance loc1 loc2 = euclidean_distance loc2 loc1.
Proof.
  intros _ _. unfold euclidean_distance.
  replace (loc_x loc2 - loc_x loc1)%Z with (- (loc_x loc1 - loc_x loc2))%Z by lia.
  replace (loc_y loc2 - loc_y loc1)%Z with (- (loc_y loc1 - loc_y loc2))%Z by lia.
  rewrite !pow2_opp. reflexivity.
Qed.

(** The theorem applied to the locations of Arad and Bucharest. *)
Lemma euclidean_distance_symmetric_on_romania :
  euclidean_distance (Build_Location 91 492) (Build_Location 400 327)
  = euclidean_distance (Build_Location 400 327) (Build_Location 91 492).
Proof.
  apply (euclidean_distance_symmetric (Build_Location 91 492) (Build_Location 400 327));
    vm_compute; reflexivity.
Defined.
